(** * Hand-driven artifact viewer: mesh normaliser and rotation estimator

  A shallow embedding of [src/App.tsx] (the per-frame detection routine
  [predict]) and of [src/components/ArtifactModel.tsx] (the normalisation
  effect and the [useFrame] smoothing callback).

  JavaScript numbers are taken in exact real arithmetic ([R]) where a
  statement is about which values are written and where; the two places
  where the arithmetic of IEEE-754 decides the statement (the display
  scale factor and the smoothing of the angles) are modelled over
  binary64 in module [Double]. *)

From Stdlib Require Import Reals Lra Lia List Bool Arith ZArith SpecFloat.
Import ListNotations.

Set Warnings "-register-all".

Local Open Scope R_scope.

(** ** The part of three.js the two components use *)

Module THREE.

(** The entries of a three-element array of numbers, [a[0]], [a[1]], [a[2]] *)
Definition idx0 (a : R * R * R) : R := fst (fst a).

Definition idx1 (a : R * R * R) : R := snd (fst a).

Definition idx2 (a : R * R * R) : R := snd a.

(** [THREE.MathUtils.lerp(x, y, t)], over the reals; [Double.lerp] is the
    same expression over binary64 *)
Definition lerp (x y t : R) : R := (1 - t) * x + t * y.

Record Vector3 := mkVector3 { vx : R; vy : R; vz : R }.

Inductive EulerOrder := XYZ | YXZ | ZXY | ZYX | YZX | XZY.

Record Euler := mkEuler { ex : R; ey : R; ez : R; order : EulerOrder }.

Record Quaternion := mkQuaternion { qx : R; qy : R; qz : R; qw : R }.

(** [Quaternion.setFromEuler] *)
Definition setFromEuler (e : Euler) : Quaternion :=
  let c1 := cos (ex e / 2) in
  let c2 := cos (ey e / 2) in
  let c3 := cos (ez e / 2) in
  let s1 := sin (ex e / 2) in
  let s2 := sin (ey e / 2) in
  let s3 := sin (ez e / 2) in
  match order e with
  | XYZ => mkQuaternion (s1 * c2 * c3 + c1 * s2 * s3) (c1 * s2 * c3 - s1 * c2 * s3)
                        (c1 * c2 * s3 + s1 * s2 * c3) (c1 * c2 * c3 - s1 * s2 * s3)
  | YXZ => mkQuaternion (s1 * c2 * c3 + c1 * s2 * s3) (c1 * s2 * c3 - s1 * c2 * s3)
                        (c1 * c2 * s3 - s1 * s2 * c3) (c1 * c2 * c3 + s1 * s2 * s3)
  | ZXY => mkQuaternion (s1 * c2 * c3 - c1 * s2 * s3) (c1 * s2 * c3 + s1 * c2 * s3)
                        (c1 * c2 * s3 + s1 * s2 * c3) (c1 * c2 * c3 - s1 * s2 * s3)
  | ZYX => mkQuaternion (s1 * c2 * c3 - c1 * s2 * s3) (c1 * s2 * c3 + s1 * c2 * s3)
                        (c1 * c2 * s3 - s1 * s2 * c3) (c1 * c2 * c3 + s1 * s2 * s3)
  | YZX => mkQuaternion (s1 * c2 * c3 + c1 * s2 * s3) (c1 * s2 * c3 + s1 * c2 * s3)
                        (c1 * c2 * s3 - s1 * s2 * c3) (c1 * c2 * c3 - s1 * s2 * s3)
  | XZY => mkQuaternion (s1 * c2 * c3 - c1 * s2 * s3) (c1 * s2 * c3 - s1 * c2 * s3)
                        (c1 * c2 * s3 + s1 * s2 * c3) (c1 * c2 * c3 + s1 * s2 * s3)
  end.

(** *** Vectors *)

(** [Vector3.set], [sub], [addVectors], [subVectors], [multiplyScalar],
    [min], [max] *)
Definition Vector3_set (x y z : R) : Vector3 := mkVector3 x y z.

Definition Vector3_sub (this v : Vector3) : Vector3 :=
  mkVector3 (vx this - vx v) (vy this - vy v) (vz this - vz v).

Definition addVectors (a b : Vector3) : Vector3 :=
  mkVector3 (vx a + vx b) (vy a + vy b) (vz a + vz b).

Definition subVectors (a b : Vector3) : Vector3 :=
  mkVector3 (vx a - vx b) (vy a - vy b) (vz a - vz b).

Definition multiplyScalar (this : Vector3) (s : R) : Vector3 :=
  mkVector3 (vx this * s) (vy this * s) (vz this * s).

Definition Vector3_min (this v : Vector3) : Vector3 :=
  mkVector3 (Rmin (vx this) (vx v)) (Rmin (vy this) (vy v)) (Rmin (vz this) (vz v)).

Definition Vector3_max (this v : Vector3) : Vector3 :=
  mkVector3 (Rmax (vx this) (vx v)) (Rmax (vy this) (vy v)) (Rmax (vz this) (vz v)).

(** *** Matrices.  Fields are named as the arguments of [Matrix4.set]:
    [nij] is row [i], column [j]. *)
Record Matrix4 := mkMatrix4 {
  n11 : R; n12 : R; n13 : R; n14 : R;
  n21 : R; n22 : R; n23 : R; n24 : R;
  n31 : R; n32 : R; n33 : R; n34 : R;
  n41 : R; n42 : R; n43 : R; n44 : R
}.

Definition identity : Matrix4 :=
  mkMatrix4 1 0 0 0  0 1 0 0  0 0 1 0  0 0 0 1.

(** [Matrix4.compose(position, quaternion, scale)] *)
Definition compose (position : Vector3) (quaternion : Quaternion) (scale : Vector3)
  : Matrix4 :=
  let x := qx quaternion in
  let y := qy quaternion in
  let z := qz quaternion in
  let w := qw quaternion in
  let x2 := x + x in
  let y2 := y + y in
  let z2 := z + z in
  let xx := x * x2 in
  let xy := x * y2 in
  let xz := x * z2 in
  let yy := y * y2 in
  let yz := y * z2 in
  let zz := z * z2 in
  let wx := w * x2 in
  let wy := w * y2 in
  let wz := w * z2 in
  let sx := vx scale in
  let sy := vy scale in
  let sz := vz scale in
  mkMatrix4
    ((1 - (yy + zz)) * sx) ((xy - wz) * sy) ((xz + wy) * sz) (vx position)
    ((xy + wz) * sx) ((1 - (xx + zz)) * sy) ((yz - wx) * sz) (vy position)
    ((xz - wy) * sx) ((yz + wx) * sy) ((1 - (xx + yy)) * sz) (vz position)
    0 0 0 1.

(** [Matrix4.multiplyMatrices(a, b)] *)
Definition multiplyMatrices (a b : Matrix4) : Matrix4 :=
  mkMatrix4
    (n11 a * n11 b + n12 a * n21 b + n13 a * n31 b + n14 a * n41 b)
    (n11 a * n12 b + n12 a * n22 b + n13 a * n32 b + n14 a * n42 b)
    (n11 a * n13 b + n12 a * n23 b + n13 a * n33 b + n14 a * n43 b)
    (n11 a * n14 b + n12 a * n24 b + n13 a * n34 b + n14 a * n44 b)
    (n21 a * n11 b + n22 a * n21 b + n23 a * n31 b + n24 a * n41 b)
    (n21 a * n12 b + n22 a * n22 b + n23 a * n32 b + n24 a * n42 b)
    (n21 a * n13 b + n22 a * n23 b + n23 a * n33 b + n24 a * n43 b)
    (n21 a * n14 b + n22 a * n24 b + n23 a * n34 b + n24 a * n44 b)
    (n31 a * n11 b + n32 a * n21 b + n33 a * n31 b + n34 a * n41 b)
    (n31 a * n12 b + n32 a * n22 b + n33 a * n32 b + n34 a * n42 b)
    (n31 a * n13 b + n32 a * n23 b + n33 a * n33 b + n34 a * n43 b)
    (n31 a * n14 b + n32 a * n24 b + n33 a * n34 b + n34 a * n44 b)
    (n41 a * n11 b + n42 a * n21 b + n43 a * n31 b + n44 a * n41 b)
    (n41 a * n12 b + n42 a * n22 b + n43 a * n32 b + n44 a * n42 b)
    (n41 a * n13 b + n42 a * n23 b + n43 a * n33 b + n44 a * n43 b)
    (n41 a * n14 b + n42 a * n24 b + n43 a * n34 b + n44 a * n44 b).

(** [Vector3.applyMatrix4(m)], with its perspective divide *)
Definition Vector3_applyMatrix4 (this : Vector3) (m : Matrix4) : Vector3 :=
  let x := vx this in
  let y := vy this in
  let z := vz this in
  let w := 1 / (n41 m * x + n42 m * y + n43 m * z + n44 m) in
  mkVector3 ((n11 m * x + n12 m * y + n13 m * z + n14 m) * w)
            ((n21 m * x + n22 m * y + n23 m * z + n24 m) * w)
            ((n31 m * x + n32 m * y + n33 m * z + n34 m) * w).

(** *** Boxes.  three.js marks the empty box by [min = +Infinity],
    [max = -Infinity]; the reals have no such values, so the freshly made
    (or emptied) box is a constructor of its own.  Every operation below
    does on [emptyBox] what three.js does on the infinite sentinels. *)
Inductive Box3 :=
| emptyBox
| bounds (min max : Vector3).

Definition makeEmpty : Box3 := emptyBox.

Definition Rltb (a b : R) : bool := if Rlt_dec a b then true else false.

(** [Box3.isEmpty] *)
Definition isEmpty (this : Box3) : bool :=
  match this with
  | emptyBox => true
  | bounds min max =>
      Rltb (vx max) (vx min) || Rltb (vy max) (vy min) || Rltb (vz max) (vz min)
  end.

(** [Box3.expandByPoint] *)
Definition expandByPoint (this : Box3) (point : Vector3) : Box3 :=
  match this with
  | emptyBox => bounds point point
  | bounds min max => bounds (Vector3_min min point) (Vector3_max max point)
  end.

(** [Box3.setFromPoints] *)
Definition setFromPoints (points : list Vector3) : Box3 :=
  fold_left expandByPoint points makeEmpty.

(** [Box3.union] *)
Definition union (this b : Box3) : Box3 :=
  match this, b with
  | emptyBox, _ => b
  | _, emptyBox => this
  | bounds min max, bounds bmin bmax => bounds (Vector3_min min bmin) (Vector3_max max bmax)
  end.

(** [Box3.applyMatrix4]: the eight corners are transformed and boxed again *)
Definition Box3_applyMatrix4 (this : Box3) (matrix : Matrix4) : Box3 :=
  if isEmpty this then this else
  match this with
  | emptyBox => this
  | bounds min max =>
      setFromPoints
        [ Vector3_applyMatrix4 (mkVector3 (vx min) (vy min) (vz min)) matrix;
          Vector3_applyMatrix4 (mkVector3 (vx min) (vy min) (vz max)) matrix;
          Vector3_applyMatrix4 (mkVector3 (vx min) (vy max) (vz min)) matrix;
          Vector3_applyMatrix4 (mkVector3 (vx min) (vy max) (vz max)) matrix;
          Vector3_applyMatrix4 (mkVector3 (vx max) (vy min) (vz min)) matrix;
          Vector3_applyMatrix4 (mkVector3 (vx max) (vy min) (vz max)) matrix;
          Vector3_applyMatrix4 (mkVector3 (vx max) (vy max) (vz min)) matrix;
          Vector3_applyMatrix4 (mkVector3 (vx max) (vy max) (vz max)) matrix ]
  end.

(** [Box3.getCenter] and [Box3.getSize] *)
Definition getCenter (this : Box3) : Vector3 :=
  if isEmpty this then Vector3_set 0 0 0 else
  match this with
  | emptyBox => Vector3_set 0 0 0
  | bounds min max => multiplyScalar (addVectors min max) 0.5
  end.

Definition getSize (this : Box3) : Vector3 :=
  if isEmpty this then Vector3_set 0 0 0 else
  match this with
  | emptyBox => Vector3_set 0 0 0
  | bounds min max => subVectors max min
  end.


(** *** Materials *)
Inductive Blending :=
| NoBlending | NormalBlending | AdditiveBlending
| SubtractiveBlending | MultiplyBlending | CustomBlending.

Inductive Side := FrontSide | BackSide | DoubleSide.

Record Material := mkMaterial {
  transparent : bool;
  opacity : R;
  blending : Blending;
  side : Side;
  version : nat
}.

(** *** Scene-graph objects.  Objects, materials and geometries live in
    a store and are named by their address: a mesh holds the addresses of
    its materials and of its geometry, so two meshes may hold the same
    ones. *)
Definition loc := nat.

(** [mesh.material]: absent, one material, or an array of them *)
Inductive MaterialSlot :=
| noMaterial
| oneMaterial (m : loc)
| materialArray (ms : list loc).

(** A geometry, as far as its extent goes: the vertices of its position
    attribute, and [boundingBox], which is [null] until a loader fills it
    in or [computeBoundingBox] is called. *)
Record BufferGeometry := mkBufferGeometry {
  vertices : list Vector3;
  boundingBox : option Box3
}.

Record Object3D := mkObject3D {
  isMesh : bool;
  geometry : option loc;
  material : MaterialSlot;
  position : Vector3;
  rotation : Euler;
  quaternion : Quaternion;
  scale : Vector3;
  matrix : Matrix4;
  matrixWorld : Matrix4;
  castShadow : bool;
  receiveShadow : bool
}.

(** A handle on a scene graph: the address of an object and the handles
    of its children, in the order of [object.children]. *)
Inductive Node :=
| node (id : loc) (children : list Node).

Definition id_of (n : Node) : loc := match n with node id _ => id end.

Definition children_of (n : Node) : list Node :=
  match n with node _ children => children end.

(** The nodes of a graph, and their addresses, in traversal order *)
Fixpoint nodes (n : Node) : list Node :=
  match n with
  | node _ children => n :: flat_map nodes children
  end.

Definition ids (n : Node) : list loc := map id_of (nodes n).

Record Store := mkStore {
  objects : loc -> Object3D;
  nextObject : loc;
  materials : loc -> Material;
  nextMaterial : loc;
  geometries : loc -> BufferGeometry
}.

Definition upd {A} (f : loc -> A) (l : loc) (a : A) : loc -> A :=
  fun l' => if Nat.eqb l' l then a else f l'.

Definition newObject (o : Object3D) (s : Store) : loc * Store :=
  (nextObject s,
   mkStore (upd (objects s) (nextObject s) o) (S (nextObject s))
           (materials s) (nextMaterial s) (geometries s)).

Definition setObject (l : loc) (o : Object3D) (s : Store) : Store :=
  mkStore (upd (objects s) l o) (nextObject s) (materials s) (nextMaterial s)
          (geometries s).

Definition newMaterial (m : Material) (s : Store) : loc * Store :=
  (nextMaterial s,
   mkStore (objects s) (nextObject s)
           (upd (materials s) (nextMaterial s) m) (S (nextMaterial s)) (geometries s)).

Definition setMaterial (l : loc) (m : Material) (s : Store) : Store :=
  mkStore (objects s) (nextObject s) (upd (materials s) l m) (nextMaterial s)
          (geometries s).

Definition setGeometry (l : loc) (g : BufferGeometry) (s : Store) : Store :=
  mkStore (objects s) (nextObject s) (materials s) (nextMaterial s)
          (upd (geometries s) l g).

Definition modify (l : loc) (f : Object3D -> Object3D) (s : Store) : Store :=
  setObject l (f (objects s l)) s.

Definition modifyMaterial (l : loc) (f : Material -> Material) (s : Store) : Store :=
  setMaterial l (f (materials s l)) s.

(** Assignments to the fields of an object *)
Definition set_material (v : MaterialSlot) (o : Object3D) : Object3D :=
  mkObject3D (isMesh o) (geometry o) v (position o) (rotation o) (quaternion o)
             (scale o) (matrix o) (matrixWorld o) (castShadow o) (receiveShadow o).

Definition set_castShadow (v : bool) (o : Object3D) : Object3D :=
  mkObject3D (isMesh o) (geometry o) (material o) (position o) (rotation o)
             (quaternion o) (scale o) (matrix o) (matrixWorld o) v (receiveShadow o).

Definition set_receiveShadow (v : bool) (o : Object3D) : Object3D :=
  mkObject3D (isMesh o) (geometry o) (material o) (position o) (rotation o)
             (quaternion o) (scale o) (matrix o) (matrixWorld o) (castShadow o) v.

Definition set_position (v : Vector3) (o : Object3D) : Object3D :=
  mkObject3D (isMesh o) (geometry o) (material o) v (rotation o) (quaternion o)
             (scale o) (matrix o) (matrixWorld o) (castShadow o) (receiveShadow o).

Definition set_scale (v : Vector3) (o : Object3D) : Object3D :=
  mkObject3D (isMesh o) (geometry o) (material o) (position o) (rotation o)
             (quaternion o) v (matrix o) (matrixWorld o) (castShadow o) (receiveShadow o).

(** Writing an Euler angle of [object.rotation] runs the change callback
    that [Object3D] installs, which recomputes [object.quaternion]. *)
Definition set_rotation (e : Euler) (o : Object3D) : Object3D :=
  mkObject3D (isMesh o) (geometry o) (material o) (position o) e (setFromEuler e)
             (scale o) (matrix o) (matrixWorld o) (castShadow o) (receiveShadow o).

(** [Euler.set(x, y, z)] keeps the order *)
Definition Euler_set (x y z : R) (e : Euler) : Euler := mkEuler x y z (order e).

Definition Euler_set_x (x : R) (e : Euler) : Euler := mkEuler x (ey e) (ez e) (order e).

Definition Euler_set_y (y : R) (e : Euler) : Euler := mkEuler (ex e) y (ez e) (order e).

Definition Vector3_set_y (y : R) (v : Vector3) : Vector3 := mkVector3 (vx v) y (vz v).

Definition set_matrices (m mw : Matrix4) (o : Object3D) : Object3D :=
  mkObject3D (isMesh o) (geometry o) (material o) (position o) (rotation o)
             (quaternion o) (scale o) m mw (castShadow o) (receiveShadow o).

(** Assignments to the fields of a material.  [needsUpdate = true] is a
    setter that bumps [version]. *)
Definition set_transparent (v : bool) (m : Material) : Material :=
  mkMaterial v (opacity m) (blending m) (side m) (version m).

Definition set_opacity (v : R) (m : Material) : Material :=
  mkMaterial (transparent m) v (blending m) (side m) (version m).

Definition set_blending (v : Blending) (m : Material) : Material :=
  mkMaterial (transparent m) (opacity m) v (side m) (version m).

Definition set_side (v : Side) (m : Material) : Material :=
  mkMaterial (transparent m) (opacity m) (blending m) v (version m).

Definition set_needsUpdate (v : bool) (m : Material) : Material :=
  mkMaterial (transparent m) (opacity m) (blending m) (side m)
             (if v then S (version m) else version m).

(** [Material.clone()]: a new material with the properties of this one
    and a version counter of its own. *)
Definition Material_clone (mat : loc) (s : Store) : loc * Store :=
  let m := materials s mat in
  newMaterial (mkMaterial (transparent m) (opacity m) (blending m) (side m) 0) s.

(** A store-threading function applied to each entry of an array, in
    order: what a [for] loop over [children] does. *)
Definition forEach {A B} (f : A -> Store -> B * Store)
  : list A -> Store -> list B * Store :=
  fix go (xs : list A) (s : Store) : list B * Store :=
    match xs with
    | [] => ([], s)
    | x :: xs' =>
        let '(y, s) := f x s in
        let '(ys, s) := go xs' s in
        (y :: ys, s)
    end.

(** [Object3D.clone(true)]: a new object per node, parents before
    children; [Mesh.copy] carries the geometry and the material addresses
    over (a material array is sliced), it does not clone them. *)
Fixpoint Object3D_clone (this : Node) (s : Store) : Node * Store :=
  match this with
  | node id children =>
      let '(id', s) := newObject (objects s id) s in
      let '(children', s) := forEach Object3D_clone children s in
      (node id' children', s)
  end.

(** [Object3D.traverse(callback)]: the object first, then its children
    in order.  The callback's effects are threaded through [A]. *)
Fixpoint traverse {A} (callback : Node -> A -> A) (this : Node) (a : A) : A :=
  match this with
  | node _ children =>
      fold_left (fun a child => traverse callback child a) children (callback this a)
  end.

(** [Object3D.updateMatrixWorld(true)].  Objects keep the default
    [matrixAutoUpdate]; [parent] is the world matrix of the parent object,
    [None] at an object that has no parent. *)
Fixpoint updateMatrixWorld (parent : option Matrix4) (this : Node) (s : Store) : Store :=
  match this with
  | node id children =>
      let o := objects s id in
      let m := compose (position o) (quaternion o) (scale o) in
      let mw := match parent with
                | None => m
                | Some p => multiplyMatrices p m
                end in
      let s := modify id (set_matrices m mw) s in
      fold_left (fun s child => updateMatrixWorld (Some mw) child s) children s
  end.

(** [BufferGeometry.computeBoundingBox()]: the box of the vertices,
    kept in [boundingBox] *)
Definition computeBoundingBox (geometry : loc) (s : Store) : Store :=
  let g := geometries s geometry in
  setGeometry geometry (mkBufferGeometry (vertices g) (Some (setFromPoints (vertices g)))) s.

(** [Box3.expandByObject(object)]: the box of the object's geometry,
    which is computed and kept in the geometry when that has none yet,
    taken to world space; then the same for every child.  The read that
    follows the computation cannot find [null].  The world matrices are
    those stored by the last [updateMatrixWorld]. *)
Fixpoint expandByObject (s : Store) (object : Node) (this : Box3) : Box3 * Store :=
  match object with
  | node id children =>
      let o := objects s id in
      let '(this, s) :=
        match geometry o with
        | Some g =>
            let s := match boundingBox (geometries s g) with
                     | None => computeBoundingBox g s
                     | Some _ => s
                     end in
            match boundingBox (geometries s g) with
            | Some box => (union this (Box3_applyMatrix4 box (matrixWorld o)), s)
            | None => (this, s)
            end
        | None => (this, s)
        end in
      fold_left (fun '(b, s) child => expandByObject s child b) children (this, s)
  end.

(** [Box3.setFromObject] *)
Definition setFromObject (s : Store) (object : Node) : Box3 * Store :=
  expandByObject s object makeEmpty.

(** What [new THREE.Group()] is before anything is assigned to it *)
Definition newGroup : Object3D :=
  mkObject3D false None noMaterial (mkVector3 0 0 0) (mkEuler 0 0 0 XYZ)
             (mkQuaternion 0 0 0 1) (mkVector3 1 1 1) identity identity false false.

End THREE.

(** ** [src/App.tsx]: the detection loop *)

Module App.

(** [HandLandmark] and [HandResults] as declared next to the component. *)
Record HandLandmark := mkHandLandmark { x : R; y : R; z : R }.

Record HandResults := mkHandResults {
  landmarks : list (list HandLandmark);
  worldLandmarks : list (list HandLandmark)
}.

(** What one invocation of [predict] reads from its environment: the
    video element's [currentTime], what [detectForVideo] answers if it is
    asked, and the handle [requestAnimationFrame] hands back. *)
Record Frame := mkFrame {
  currentTime : R;
  results : HandResults;
  rafHandle : nat
}.

(** The component's cells.  [detections] counts the calls made to
    [handLandmarker.detectForVideo]; it observes the detector, the
    component itself does not read it. *)
Record AppState := mkAppState {
  rotation : R * R * R;
  isCameraReady : bool;
  lastVideoTime : R;
  requestRef : nat;
  detections : nat
}.

(** [useState([0,0,0])], [useState(false)], [useRef(-1)], [useRef(0)] *)
Definition init : AppState := mkAppState (0, 0, 0) false (-1) 0 0.

Definition setRotation (r : R * R * R) (st : AppState) : AppState :=
  mkAppState r (isCameraReady st) (lastVideoTime st) (requestRef st) (detections st).

Definition setLastVideoTime (t : R) (st : AppState) : AppState :=
  mkAppState (rotation st) (isCameraReady st) t (requestRef st) (detections st).

Definition setRequestRef (h : nat) (st : AppState) : AppState :=
  mkAppState (rotation st) (isCameraReady st) (lastVideoTime st) h (detections st).

Definition detectForVideo (f : Frame) (st : AppState) : HandResults * AppState :=
  (results f,
   mkAppState (rotation st) (isCameraReady st) (lastVideoTime st) (requestRef st)
              (S (detections st))).

(** A JavaScript call either completes or throws. *)
Inductive Completion := Normal | Throw.

(** [video.currentTime !== lastVideoTime.current] *)
Definition strict_neq (a b : R) : bool := if Req_dec_T a b then false else true.

(** [predict], lines 41-69.  [video] and [handLandmarker] are non-null
    constants of the enclosing closure, so the guard reduces to the
    timestamp test.  [landmarks[9].x] throws a TypeError when the hand
    has fewer than ten points, and then the loop is not rescheduled. *)
Definition predict (f : Frame) (st : AppState) : Completion * AppState :=
  if strict_neq (currentTime f) (lastVideoTime st) then
    let st := setLastVideoTime (currentTime f) st in
    let '(results, st) := detectForVideo f st in
    match landmarks results with
    | landmarks0 :: _ =>
        match nth_error landmarks0 9 with
        | Some lm =>
            let x := x lm in
            let y := y lm in
            let rotY := (x - 0.5) * PI * 4 in
            let rotX := (y - 0.5) * PI * 2 in
            let st := setRotation (rotX, rotY, 0) st in
            (Normal, setRequestRef (rafHandle f) st)
        | None => (Throw, st)
        end
    | [] => (Normal, setRequestRef (rafHandle f) st)
    end
  else (Normal, setRequestRef (rafHandle f) st).

(** The polling loop: one call per entry, until a call throws. *)
Fixpoint run (fs : list Frame) (st : AppState) : AppState :=
  match fs with
  | [] => st
  | f :: fs' =>
      match predict f st with
      | (Normal, st') => run fs' st'
      | (Throw, st') => st'
      end
  end.

Definition noHand (f : Frame) : Prop := landmarks (results f) = [].

End App.

(** ** [src/components/ArtifactModel.tsx] *)

Module ArtifactModel.
Import THREE.

(** The component's cells: two [useState]s and two [useRef]s.  The group
    under [groupRef] is owned by the component and held here by value. *)
Record Component := mkComponent {
  processedScene : option Node;
  modelScale : R;
  currentRotation : R * R * R;
  groupRef : option Object3D
}.

(** [useState(null)], [useState(1)], [useRef([0,0,0])], [useRef(null)] *)
Definition init : Component := mkComponent None 1 (0, 0, 0) None.

(** [applySettings], lines 35-43 *)
Definition applySettings (mat : loc) (s : Store) : loc * Store :=
  let '(newMat, s) := Material_clone mat s in
  let s := modifyMaterial newMat (set_transparent false) s in
  let s := modifyMaterial newMat (set_opacity 1.0) s in
  let s := modifyMaterial newMat (set_blending NormalBlending) s in
  let s := modifyMaterial newMat (set_side DoubleSide) s in
  let s := modifyMaterial newMat (set_needsUpdate true) s in
  (newMat, s).

(** [mesh.material.map(applySettings)] *)
Fixpoint Array_map (f : loc -> Store -> loc * Store) (ms : list loc) (s : Store)
  : list loc * Store :=
  match ms with
  | [] => ([], s)
  | m :: ms' =>
      let '(m', s) := f m s in
      let '(ms'', s) := Array_map f ms' s in
      (m' :: ms'', s)
  end.

(** The callback of the first traversal, lines 28-52 *)
Definition materialSetup (child : Node) (s : Store) : Store :=
  let mesh := id_of child in
  if isMesh (objects s mesh) then
    let s := modify mesh (set_castShadow true) s in
    let s := modify mesh (set_receiveShadow true) s in
    match material (objects s mesh) with
    | noMaterial => s
    | materialArray ms =>
        let '(ms', s) := Array_map applySettings ms s in
        modify mesh (set_material (materialArray ms')) s
    | oneMaterial m =>
        let '(m', s) := applySettings m s in
        modify mesh (set_material (oneMaterial m')) s
    end
  else s.

(** The callback of the second traversal, lines 65-71; its closure
    variables [box] and [hasMeshes] are threaded with the store. *)
Definition expandByMeshes (child : Node) (acc : Box3 * bool * Store) : Box3 * bool * Store :=
  let '(box, hasMeshes, s) := acc in
  if isMesh (objects s (id_of child)) then
    let '(box, s) := expandByObject s child box in
    (box, true, s)
  else (box, hasMeshes, s).

(** Lines 62-75: the box the centring and the scaling are computed
    from, and the store that measuring it leaves *)
Definition computeBox (s : Store) (clone : Node) : Box3 * Store :=
  let '(box, hasMeshes, s) := traverse expandByMeshes clone (makeEmpty, false, s) in
  if negb hasMeshes then setFromObject s clone else (box, s).

(** [Math.max(a, b, c)] and [a || b] on numbers *)
Definition Math_max (a b c : R) : R := Rmax (Rmax a b) c.

Definition or_else (a b : R) : R := if Req_dec_T a 0 then b else a.

Definition targetSize : R := 4.0.

(** Lines 86-90 *)
Definition scaleFactor (box : Box3) : R :=
  let size := getSize box in
  let maxDim := Math_max (vx size) (vy size) (vz size) in
  targetSize / (or_else maxDim 1).

(** Lines 25-59: the deep copy, its material set-up, the reset of the
    root transform and the recomputation of the world matrices. *)
Definition prepare (scene : Node) (s : Store) : Node * Store :=
  let '(clone, s) := Object3D_clone scene s in
  let s := traverse materialSetup clone s in
  let root := id_of clone in
  let s := modify root (set_position (Vector3_set 0 0 0)) s in
  let s := modify root (fun o => set_rotation (Euler_set 0 0 0 (rotation o)) o) s in
  let s := modify root (set_scale (Vector3_set 1 1 1)) s in
  let s := updateMatrixWorld None clone s in
  (clone, s).

(** The body of the effect, lines 25-93, on a loaded [scene]: the copy
    and the scale it publishes, and the store it leaves. *)
Definition normalize (scene : Node) (s : Store) : Node * R * Store :=
  let '(clone, s) := prepare scene s in
  let '(box, s) := computeBox s clone in
  let center := getCenter box in
  let s := modify (id_of clone) (fun o => set_position (Vector3_sub (position o) center) o) s in
  (clone, scaleFactor box, s).

(** The effect itself, with its guard [if (!scene) return] *)
Definition effect (scene : option Node) (c : Component) (s : Store) : Component * Store :=
  match scene with
  | None => (c, s)
  | Some scene =>
      let '(clone, scaleFactor, s) := normalize scene s in
      (mkComponent (Some clone) scaleFactor (currentRotation c) (groupRef c), s)
  end.

(** The [useFrame] callback, lines 98-111; [now] is [Date.now()].
    Numbers are reals here: this definition serves the statements about
    which fields the callback writes.  The values of the two smoothed
    angles are the subject of [Double.useFrame]. *)
Definition useFrame (externalRotation : R * R * R) (delta now : R) (c : Component)
  : Component :=
  match groupRef c with
  | Some group =>
      let smoothingSpeed := 5 * delta in
      let '(c0, c1, c2) := currentRotation c in
      let '(e0, e1, _) := externalRotation in
      let c0 := lerp c0 e0 smoothingSpeed in
      let c1 := lerp c1 e1 smoothingSpeed in
      let group := set_rotation (Euler_set_x c0 (rotation group)) group in
      let group := set_rotation (Euler_set_y c1 (rotation group)) group in
      let group :=
        set_position (Vector3_set_y (sin (now * 0.001) * 0.1) (position group)) group in
      mkComponent (processedScene c) (modelScale c) (c0, c1, c2) (Some group)
  | None => c
  end.

(** Vocabulary for the normalisation statements.  A renderable surface
    is an object with [isMesh]; the materials attached to an object are
    those of its [material] slot; a material is sanitised when it has the
    four settings that [applySettings] forces. *)
Definition attached (slot : MaterialSlot) : list loc :=
  match slot with
  | noMaterial => []
  | oneMaterial m => [m]
  | materialArray ms => ms
  end.

Definition sanitised (m : Material) : Prop :=
  transparent m = false /\ opacity m = 1.0
  /\ blending m = NormalBlending /\ side m = DoubleSide.

(** A surface as the set-up leaves it: both shadow flags on, and every
    attached material sanitised and created at or above address [m0]. *)
Definition surfaceReady (m0 : loc) (s : Store) (l : loc) : Prop :=
  isMesh (objects s l) = true ->
  castShadow (objects s l) = true
  /\ receiveShadow (objects s l) = true
  /\ forall m, In m (attached (material (objects s l))) ->
       (m0 <= m < nextMaterial s)%nat /\ sanitised (materials s m).

Definition hasSurface (s : Store) (scene : Node) : Prop :=
  Exists (fun l => isMesh (objects s l) = true) (ids scene).

Definition noSurface (s : Store) (scene : Node) : Prop :=
  Forall (fun l => isMesh (objects s l) = false) (ids scene).

(** Every object of the graph has been created: its address is below
    the store's allocation mark. *)
Definition allocated (s : Store) (scene : Node) : Prop :=
  Forall (fun l => (l < nextObject s)%nat) (ids scene).

(** The box that three.js reads for a geometry: the one kept in
    [boundingBox], or the box of the vertices when none is kept yet *)
Definition boxOf (g : BufferGeometry) : Box3 :=
  match boundingBox g with
  | Some box => box
  | None => setFromPoints (vertices g)
  end.

(** The box of one object in world space, as [expandByObject] adds it *)
Definition worldBox (s : Store) (l : loc) : Box3 :=
  match geometry (objects s l) with
  | Some g => Box3_applyMatrix4 (boxOf (geometries s g)) (matrixWorld (objects s l))
  | None => emptyBox
  end.

Definition unions (boxes : list Box3) : Box3 := fold_left union boxes emptyBox.

(** The bounding box over the renderable surfaces only, each taken with
    its world transform: the union of the world boxes of the objects of
    the graph that are meshes. *)
Definition surfacesOf (s : Store) (ls : list loc) : Box3 :=
  unions (map (worldBox s) (filter (fun l => isMesh (objects s l)) ls)).

Definition surfacesBox (s : Store) (scene : Node) : Box3 := surfacesOf s (ids scene).

(** A valid mesh, in the sense of the data model: each node is a group
    or a renderable surface, so whatever carries geometry is a surface;
    and the box of a geometry is the empty one or a proper one. *)
Definition validMesh (s : Store) (scene : Node) : Prop :=
  Forall (fun l =>
            match geometry (objects s l) with
            | Some g =>
                isMesh (objects s l) = true
                /\ (boxOf (geometries s g) = emptyBox
                    \/ isEmpty (boxOf (geometries s g)) = false)
            | None => True
            end)
         (ids scene).

(** The negation of a vector, and the midpoint of two *)
Definition negated (v : Vector3) : Vector3 := mkVector3 (- vx v) (- vy v) (- vz v).


(** Vocabulary for the smoothing statements: the distance of an angle to
    its target *)
Definition distance (a target : R) : R := Rabs (a - target).

End ArtifactModel.

(** ** The two components together: [App] hands its [rotation] state to
    [ArtifactModel] as [externalRotation]. *)

Module System.

Record World := mkWorld {
  app : App.AppState;
  artifact : ArtifactModel.Component
}.

Definition init : World := mkWorld App.init ArtifactModel.init.

(** What can happen on the page's single thread: the detection loop
    runs [predict], the renderer runs the [useFrame] callback, or React
    attaches the rendered [<group>] to [groupRef]. *)
Inductive Event :=
| Predict (f : App.Frame)
| Tick (delta now : R)
| Attach.

Definition attach (c : ArtifactModel.Component) : ArtifactModel.Component :=
  ArtifactModel.mkComponent (ArtifactModel.processedScene c) (ArtifactModel.modelScale c)
                            (ArtifactModel.currentRotation c) (Some THREE.newGroup).

Definition step (w : World) (e : Event) : World :=
  match e with
  | Predict f => mkWorld (snd (App.predict f (app w))) (artifact w)
  | Tick delta now =>
      mkWorld (app w) (ArtifactModel.useFrame (App.rotation (app w)) delta now (artifact w))
  | Attach => mkWorld (app w) (attach (artifact w))
  end.

Definition steps (es : list Event) (w : World) : World := fold_left step es w.

(** The Z angle shown by the group, when one is attached *)
Definition displayedZ (w : World) : option R :=
  option_map (fun g => THREE.ez (THREE.rotation g)) (ArtifactModel.groupRef (artifact w)).

(** What holds of the Z angle in every state the page can reach *)
Definition z_is_zero (w : World) : Prop :=
  THREE.idx2 (App.rotation (app w)) = 0
  /\ THREE.idx2 (ArtifactModel.currentRotation (artifact w)) = 0
  /\ (displayedZ w = None \/ displayedZ w = Some 0).

End System.

(** ** IEEE-754 binary64, the number type JavaScript computes with:
    lines 89-90 of [ArtifactModel.tsx] (the scale factor) and lines
    98-106 (the smoothing callback). *)

Module Double.

Definition number := spec_float.

Definition prec : Z := 53.

Definition emax : Z := 1024.

Definition div : number -> number -> number := SFdiv prec emax.

(** The literals [4.0], [1] and [0] *)
Definition four : number := S754_finite false 4503599627370496 (-50).

Definition one : number := S754_finite false 4503599627370496 (-52).

Definition zero : number := S754_zero false.

(** [ToBoolean] on a number: [0], [-0] and [NaN] are falsy *)
Definition truthy (a : number) : bool :=
  match a with
  | S754_zero _ | S754_nan => false
  | _ => true
  end.

(** [a || b] *)
Definition or_else (a b : number) : number := if truthy a then a else b.

Definition targetSize : number := four.

Definition scaleFactor (maxDim : number) : number :=
  div targetSize (or_else maxDim one).

(** [Number.isFinite] *)
Definition isFinite (a : number) : bool :=
  match a with
  | S754_zero _ | S754_finite _ _ _ => true
  | _ => false
  end.

(** A value a JavaScript number can hold *)
Definition representable (a : number) : Prop := valid_binary prec emax a = true.

(** [0 <= a] and [0 < a] *)
Definition nonnegative (a : number) : Prop := SFleb zero a = true.

Definition strictlyPositive (a : number) : Prop := SFltb zero a = true.

(** The smallest positive number, [Number.MIN_VALUE] = 2^-1074 *)
Definition MIN_VALUE : number := S754_finite false 1 (-1074).

(** 2^-1020, a number far below the size of anything a mesh holds *)
Definition tiny : number := S754_finite false 4503599627370496 (-1072).

(** The literal [6], the largest dimension of the sample mesh *)
Definition six : number := S754_finite false 6755399441055744 (-50).

(** *** The smoothing callback, lines 98-106 of [ArtifactModel.tsx],
    over binary64 *)

(** [x * y], [x + y] and [x - y] on numbers *)
Definition mul : number -> number -> number := SFmul prec emax.

Definition add : number -> number -> number := SFadd prec emax.

Definition sub : number -> number -> number := SFsub prec emax.

(** The literal [5] *)
Definition five : number := S754_finite false 5629499534213120 (-50).

(** [THREE.MathUtils.lerp(x, y, t)], which returns [(1 - t) * x + t * y] *)
Definition lerp (x y t : number) : number := add (mul (sub one t) x) (mul t y).

(** [5 * delta], line 100 *)
Definition smoothingSpeed (delta : number) : number := mul five delta.

(** The entries of a three-element array of numbers *)
Definition idx0 (a : number * number * number) : number := fst (fst a).

Definition idx1 (a : number * number * number) : number := snd (fst a).

Definition idx2 (a : number * number * number) : number := snd a.

(** The [useFrame] callback on the angles, lines 98-106.  [groupRef] is
    the Euler angles of the attached group, if a group is attached; the
    result is the new [currentRotation] and the angles of the group.
    Line 109 writes the position of the group only and is left out. *)
Definition useFrame (groupRef : option (number * number * number))
  (externalRotation : number * number * number) (delta : number)
  (currentRotation : number * number * number)
  : (number * number * number) * option (number * number * number) :=
  match groupRef with
  | Some rotation =>
      let smoothingSpeed := mul five delta in
      let '(c0, c1, c2) := currentRotation in
      let '(e0, e1, _) := externalRotation in
      let c0 := lerp c0 e0 smoothingSpeed in
      let c1 := lerp c1 e1 smoothingSpeed in
      let '(_, _, rz) := rotation in
      ((c0, c1, c2), Some (c0, c1, rz))
  | None => (currentRotation, None)
  end.

(** The power of two with exponent [e] *)
Definition bpow (e : Z) : R := powerRZ 2 e.

(** The real number that a finite number stands for *)
Definition toR (a : number) : R :=
  match a with
  | S754_finite s m e => (if s then - IZR (Zpos m) else IZR (Zpos m)) * bpow e
  | _ => 0
  end.

(** [Number.EPSILON] = 2^-52, and [Number.MIN_VALUE] = 2^-1074 as a real *)
Definition EPSILON : R := bpow (-52).

Definition eta : R := bpow (-1074).

(** [rounds z r]: the number [r] is finite and stands for the real [z]
    up to the relative error [EPSILON] and the absolute error [eta], and
    is not negative when [z] is not. *)
Definition rounds (z : R) (r : number) : Prop :=
  isFinite r = true
  /\ Rabs (toR r - z) <= EPSILON * Rabs z + eta
  /\ (0 <= z -> 0 <= toR r).

(** An angle as the viewer handles them: a finite number of magnitude at
    most 8.  The target angles lie within [-2 * PI, 2 * PI]. *)
Definition angle (a : number) : Prop := isFinite a = true /\ Rabs (toR a) <= 8.

(** The rounding error that one interpolation of angles can add: 2^-44 *)
Definition slack : R := bpow (-44).

(** The literals [0.1], [0.5], [0.9] and [60], and the quotient [1 / 60] *)
Definition tenth : number := S754_finite false 7205759403792794 (-56).

Definition half : number := S754_finite false 4503599627370496 (-53).

Definition nineTenths : number := S754_finite false 8106479329266893 (-53).

Definition sixty : number := S754_finite false 8444249301319680 (-47).

Definition sixtieth : number := S754_finite false 4803839602528529 (-58).

End Double.

(** ** Relations between two stores, used to say what an operation
    leaves alone *)

Module StoreRelations.
Import THREE.

(** [keeps n m s s'] : going from [s] to [s'] nothing was freed, and no
    object below address [n] and no material below address [m] was
    written. *)
Definition keeps (n m : loc) (s s' : Store) : Prop :=
  (nextObject s <= nextObject s')%nat
  /\ (nextMaterial s <= nextMaterial s')%nat
  /\ (forall l, (l < n)%nat -> objects s' l = objects s l)
  /\ (forall k, (k < m)%nat -> materials s' k = materials s k).

(** What an object looks like, apart from where it stands *)
Definition look (o : Object3D) : bool * option loc * MaterialSlot * bool * bool :=
  (isMesh o, geometry o, material o, castShadow o, receiveShadow o).

(** Whether an object is a surface, and the geometry it carries *)
Definition kind (o : Object3D) : bool * option loc := (isMesh o, geometry o).

(** Where an object stands relative to its parent *)
Definition pose (o : Object3D) : Vector3 * Euler * Quaternion * Vector3 :=
  (position o, rotation o, quaternion o, scale o).

(** [restyled s s'] : between [s] and [s'] only poses and matrices of
    objects were written. *)
Definition restyled (s s' : Store) : Prop :=
  materials s' = materials s
  /\ nextMaterial s' = nextMaterial s
  /\ nextObject s' = nextObject s
  /\ forall l, look (objects s' l) = look (objects s l).

(** [rematrixed ls s s'] : between [s] and [s'] only the matrices of the
    objects at the addresses [ls] were written. *)
Definition rematrixed (ls : list loc) (s s' : Store) : Prop :=
  restyled s s'
  /\ (forall l, pose (objects s' l) = pose (objects s l))
  /\ (forall l, ~ In l ls -> objects s' l = objects s l).

(** A matrix whose last row is (0, 0, 0, 1) *)
Definition affine (m : Matrix4) : Prop :=
  n41 m = 0 /\ n42 m = 0 /\ n43 m = 0 /\ n44 m = 1.



(** [samePoses root sA sB] : the two stores place every object but [root]
    alike relative to its parent. *)
Definition samePoses (root : loc) (sA sB : Store) : Prop :=
  forall l, l <> root -> pose (objects sB l) = pose (objects sA l).

(** [cloned src cpy s s'] : going from [s] to [s'], the objects at the
    addresses [src] were copied, in order, to the new addresses [cpy], and
    nothing else was written. *)
Definition cloned (src cpy : list loc) (s s' : Store) : Prop :=
  cpy = seq (nextObject s) (length src)
  /\ nextObject s' = (nextObject s + length src)%nat
  /\ materials s' = materials s
  /\ nextMaterial s' = nextMaterial s
  /\ (forall l, (l < nextObject s)%nat -> objects s' l = objects s l)
  /\ (forall vals, Forall (fun l => objects s l = vals l) src ->
        (forall l, In l src -> (l < nextObject s)%nat) ->
        map (objects s') cpy = map vals src).

(** [twins R a b] : the graphs [a] and [b] have the same shape, and [R]
    relates the addresses that stand at the same place in them. *)
Inductive twins (R : loc -> loc -> Prop) : Node -> Node -> Prop :=
| twins_node (ia ib : loc) (ca cb : list Node) :
    R ia ib -> Forall2 (twins R) ca cb -> twins R (node ia ca) (node ib cb).

(** [measured s s'] : between [s] and [s'] nothing was written but
    bounding boxes that were [null], each with the box of the vertices of
    its geometry. *)
Definition measured (s s' : Store) : Prop :=
  objects s' = objects s
  /\ nextObject s' = nextObject s
  /\ materials s' = materials s
  /\ nextMaterial s' = nextMaterial s
  /\ forall g,
       geometries s' g = geometries s g
       \/ (boundingBox (geometries s g) = None
           /\ geometries s' g
              = mkBufferGeometry (vertices (geometries s g))
                                 (Some (setFromPoints (vertices (geometries s g))))).

(** [sameBoxes s s'] : every geometry has in [s'] the box it has in [s],
    kept or yet to be computed. *)
Definition sameBoxes (s s' : Store) : Prop :=
  forall g, ArtifactModel.boxOf (geometries s' g) = ArtifactModel.boxOf (geometries s g).

End StoreRelations.

(** ** Sample inputs, used to exercise the statements below *)

Module Samples.
Import THREE.

(** A hand of ten points whose point 9 sits at [(x, y)] *)
Definition handAt (x y : R) : list App.HandLandmark :=
  repeat (App.mkHandLandmark 0 0 0) 9 ++ [App.mkHandLandmark x y 0].

Definition frameWithHand (t x y : R) : App.Frame :=
  App.mkFrame t (App.mkHandResults [handAt x y] [handAt x y]) 1.

Definition frameWithoutHand (t : R) : App.Frame :=
  App.mkFrame t (App.mkHandResults [] []) 1.

(** A mounted component whose displayed rotation is still zero *)
Definition mounted : ArtifactModel.Component :=
  ArtifactModel.mkComponent None 1 (0, 0, 0) (Some newGroup).

(** A store holding one asset: a group, moved and turned by its author,
    with one mesh under it.  The mesh spans the box from (0, 0, 0) to
    (2, 4, 6) in its own frame, stands at (1, 0, 0) under the group, and
    wears a translucent, additively blended, single-sided material.  Its
    geometry came with its box filled in. *)
Definition glass : Material := mkMaterial true 0.3 AdditiveBlending FrontSide 7.

Definition corners : list Vector3 :=
  [mkVector3 0 0 0; mkVector3 2 0 0; mkVector3 0 4 0; mkVector3 0 0 6].

Definition brick : BufferGeometry :=
  mkBufferGeometry corners (Some (bounds (mkVector3 0 0 0) (mkVector3 2 4 6))).

Definition groupObject : Object3D :=
  mkObject3D false None noMaterial (mkVector3 5 5 5) (mkEuler 0 0 PI XYZ)
             (mkQuaternion 0 0 1 0) (mkVector3 2 2 2) identity identity false false.

Definition meshObject : Object3D :=
  mkObject3D true (Some 0%nat)
             (oneMaterial 0%nat) (mkVector3 1 0 0) (mkEuler 0 0 0 XYZ)
             (mkQuaternion 0 0 0 1) (mkVector3 1 1 1) identity identity false false.

Definition store : Store :=
  mkStore (fun l => match l with 1%nat => meshObject | _ => groupObject end) 2%nat
          (fun _ => glass) 1%nat (fun _ => brick).

(** The same asset with a geometry whose box has not been computed yet *)
Definition unmeasured : Store :=
  mkStore (objects store) 2%nat (fun _ => glass) 1%nat
          (fun _ => mkBufferGeometry corners None).

Definition scene : Node := node 0%nat [node 1%nat []].

(** The same asset without its mesh *)
Definition emptyScene : Node := node 0%nat [].

End Samples.

(** ** Vocabulary for the detection loop *)

Module Tracking.
Import App.

(** What [predict] reads of the detector's answer, lines 48-57: no hand,
    a first hand that has no point 9, or the x and y of that point. *)
Inductive Reading :=
| NoHand
| ShortHand
| Point (x y : R).

Definition reading (f : Frame) : Reading :=
  match landmarks (results f) with
  | [] => NoHand
  | hand :: _ =>
      match nth_error hand 9 with
      | Some lm => Point (x lm) (y lm)
      | None => ShortHand
      end
  end.

(** A frame whose first hand, if there is one, has its point 9 *)
Definition complete (f : Frame) : Prop := reading f <> ShortHand.

(** A frame whose point 9 lies within the image, whose sides the
    detector maps to 0 and 1 *)
Definition inImage (f : Frame) : Prop :=
  match reading f with
  | Point x y => 0 <= x <= 1 /\ 0 <= y <= 1
  | _ => True
  end.

(** The ranges that the comments of lines 62 and 63 give for the angles *)
Definition inRange (r : R * R * R) : Prop :=
  - PI <= THREE.idx0 r <= PI /\ - (2 * PI) <= THREE.idx1 r <= 2 * PI.

(** How many frames of a run carry another timestamp than the frame
    before them; [last] is the timestamp before the first frame. *)
Fixpoint changes (last : R) (fs : list Frame) : nat :=
  match fs with
  | [] => 0%nat
  | f :: fs' =>
      ((if strict_neq (currentTime f) last then 1 else 0) + changes (currentTime f) fs')%nat
  end.

(** Two hands seen at the same place: a bare one of ten points, and one
    of twenty-one points that differs in every other point and in depth,
    with a second hand beside it. *)
Definition bareFrame (t : R) : Frame :=
  mkFrame t (mkHandResults [repeat (mkHandLandmark 0 0 0) 9 ++ [mkHandLandmark 0.25 0.75 0]] [])
          1.

Definition busyFrame (t : R) : Frame :=
  mkFrame t
    (mkHandResults
       [repeat (mkHandLandmark 0.9 0.9 0.9) 9 ++ [mkHandLandmark 0.25 0.75 (-0.2)]
          ++ repeat (mkHandLandmark 0.1 0.1 0.1) 11;
        repeat (mkHandLandmark 0.5 0.5 0.5) 21]
       [repeat (mkHandLandmark 1 2 3) 21])
    1.

(** A frame whose hand stops at point 8 *)
Definition shortFrame (t : R) : Frame :=
  mkFrame t (mkHandResults [repeat (mkHandLandmark 0.5 0.5 0) 9] []) 1.

End Tracking.

(** ** Vocabulary for the material slots of the copy *)

Module Copies.
Import THREE ArtifactModel.

(** The material slots of the surfaces among the objects [ls], in
    order: one entry per material a surface holds. *)
Definition slots (s : Store) (ls : list loc) : list loc :=
  flat_map (fun l => attached (material (objects s l)))
           (filter (fun l => isMesh (objects s l)) ls).

End Copies.

(** ** An asset without a mesh *)

Module Wireframes.
Import THREE ArtifactModel.


(** An asset without a mesh: a group holding one line, which has a
    geometry and is no mesh.  The line has the geometry of the sample
    mesh and stands at (1, 0, 0) under the group. *)
Definition lineObject : Object3D :=
  mkObject3D false (Some 0%nat) (oneMaterial 0%nat) (mkVector3 1 0 0) (mkEuler 0 0 0 XYZ)
             (mkQuaternion 0 0 0 1) (mkVector3 1 1 1) identity identity false false.

Definition store : Store :=
  mkStore (fun l => match l with 1%nat => lineObject | _ => Samples.groupObject end) 2%nat
          (fun _ => Samples.glass) 1%nat (fun _ => Samples.brick).

End Wireframes.

(** ** What the component renders, lines 113-124 *)

Module Render.
Import THREE ArtifactModel.

(** What the component returns, lines 113-124: nothing, or the pivot
    group around the primitive, which is given the copy as [object] and
    the published factor, three times, as [scale]. *)
Inductive Element :=
| null
| pivot (object : Node) (scale : R * R * R).

Definition render (c : Component) : Element :=
  match processedScene c with
  | None => null
  | Some scene => pivot scene (modelScale c, modelScale c, modelScale c)
  end.

(** react-three-fiber commits [<primitive object scale />] by assigning
    the prop on the object itself, [object.scale.set(x, y, z)]; the
    renderer then brings the world matrices up to date.  The matrices
    are taken in the frame of the pivot group. *)
Definition commit (e : Element) (s : Store) : Store :=
  match e with
  | null => s
  | pivot object (x, y, z) =>
      let s := modify (id_of object) (set_scale (Vector3_set x y z)) s in
      updateMatrixWorld None object s
  end.

(** The image of a box under the map that takes [p] to [k * p + v] *)
Definition Box3_place (k : R) (v : Vector3) (b : Box3) : Box3 :=
  match b with
  | emptyBox => emptyBox
  | bounds min max =>
      bounds (addVectors (multiplyScalar min k) v) (addVectors (multiplyScalar max k) v)
  end.

(** The matrix [m] followed by the scaling by [k] and then by the
    translation by [v] *)
Definition placeM (k : R) (v : Vector3) (m : Matrix4) : Matrix4 :=
  mkMatrix4 (n11 m * k) (n12 m * k) (n13 m * k) (n14 m * k + vx v)
            (n21 m * k) (n22 m * k) (n23 m * k) (n24 m * k + vy v)
            (n31 m * k) (n32 m * k) (n33 m * k) (n34 m * k + vz v)
            (n41 m) (n42 m) (n43 m) (n44 m).

(** [placed k v ls sA sB] : the world matrices that [sB] stores for the
    objects [ls] are those of [sA], followed by the scaling by [k] and
    the translation by [v]. *)
Definition placed (k : R) (v : Vector3) (ls : list loc) (sA sB : Store) : Prop :=
  forall l, In l ls ->
    StoreRelations.affine (matrixWorld (objects sA l))
    /\ matrixWorld (objects sB l) = placeM k v (matrixWorld (objects sA l)).

End Render.

(** ** Runs of the smoothing callback over binary64 *)

Module Runs.
Import Double.

(** Repeated ticks of the callback against a target that stays fixed,
    with a group attached whose angles are [rotation] at the start *)
Fixpoint ticks (externalRotation : number * number * number) (deltas : list number)
  (currentRotation rotation : number * number * number) : number * number * number :=
  match deltas with
  | [] => currentRotation
  | delta :: deltas' =>
      match useFrame (Some rotation) externalRotation delta currentRotation with
      | (currentRotation', Some rotation') =>
          ticks externalRotation deltas' currentRotation' rotation'
      | (currentRotation', None) => currentRotation'
      end
  end.

(** A tick whose factor [5 * delta] is at most 1: an elapsed time of up
    to a fifth of a second *)
Definition short (delta : number) : Prop :=
  isFinite delta = true /\ 0 < toR delta <= 1 /\ toR (smoothingSpeed delta) <= 1.

(** The factor by which a run of ticks multiplies the distance to a
    fixed target in exact arithmetic: the product of [|1 - t|] over the
    ticks, [t] being [5 * delta] as computed *)
Fixpoint decay (deltas : list number) : R :=
  match deltas with
  | [] => 1
  | delta :: deltas' => Rabs (1 - toR (smoothingSpeed delta)) * decay deltas'
  end.

(** An angle of magnitude at most 7 *)
Definition moderate (a : number) : Prop := isFinite a = true /\ Rabs (toR a) <= 7.

End Runs.

(** * Properties *)

(** Splits the conjunctions of the goal, and nothing else. *)
Ltac splits := repeat match goal with |- _ /\ _ => split end.

(** ** The detection routine *)

Section Detection.
Import App.

Lemma strict_neq_refl (a : R) : strict_neq a a = false.
Proof. unfold strict_neq. destruct (Req_dec_T a a); congruence. Qed.

Lemma strict_neq_true (a b : R) : a <> b -> strict_neq a b = true.
Proof. unfold strict_neq. destruct (Req_dec_T a b); congruence. Qed.

Lemma strict_neq_false (a b : R) : strict_neq a b = false -> a = b.
Proof. unfold strict_neq. destruct (Req_dec_T a b); congruence. Qed.

(** A call that finds the timestamp it processed last changes nothing
    but the animation-frame handle. *)
Lemma predict_same_time (f : Frame) (st : AppState) :
  currentTime f = lastVideoTime st ->
  predict f st = (Normal, setRequestRef (rafHandle f) st).
Proof.
  intros E. unfold predict. rewrite E, strict_neq_refl. reflexivity.
Qed.

(** Whatever the call does, the timestamp it saw is the processed one
    afterwards. *)
Lemma predict_lastVideoTime (f : Frame) (st : AppState) :
  lastVideoTime (snd (predict f st)) = currentTime f.
Proof.
  unfold predict.
  destruct (strict_neq (currentTime f) (lastVideoTime st)) eqn:G.
  - unfold detectForVideo.
    destruct (landmarks (results f)) as [|hand rest]; [reflexivity|].
    destruct (nth_error hand 9); reflexivity.
  - cbn. symmetry. now apply strict_neq_false.
Qed.

(** A call that detects no hand leaves the target alone. *)
Lemma predict_noHand (f : Frame) (st : AppState) :
  noHand f -> fst (predict f st) = Normal /\ rotation (snd (predict f st)) = rotation st.
Proof.
  unfold noHand, predict. intros E.
  destruct (strict_neq (currentTime f) (lastVideoTime st)); [|now split].
  unfold detectForVideo. rewrite E. now split.
Qed.

(** The target after a call is the old one, or one with a zero Z angle. *)
Lemma predict_rotation_cases (f : Frame) (st : AppState) :
  rotation (snd (predict f st)) = rotation st
  \/ THREE.idx2 (rotation (snd (predict f st))) = 0.
Proof.
  unfold predict.
  destruct (strict_neq (currentTime f) (lastVideoTime st)); [|now left].
  unfold detectForVideo.
  destruct (landmarks (results f)) as [|hand rest]; [now left|].
  destruct (nth_error hand 9); [now right | now left].
Qed.

(** What a call leaves when the timestamp is new and a hand is there:
    lines 43-68 run to the end. *)
Lemma predict_with_hand
  (f : Frame) (st : AppState) (hand : list HandLandmark)
  (others : list (list HandLandmark)) (lm : HandLandmark) :
  currentTime f <> lastVideoTime st ->
  landmarks (results f) = hand :: others ->
  nth_error hand 9 = Some lm ->
  predict f st
  = (Normal,
     setRequestRef (rafHandle f)
       (setRotation ((y lm - 0.5) * PI * 2, (x lm - 0.5) * PI * 4, 0)
          (snd (detectForVideo f (setLastVideoTime (currentTime f) st))))).
Proof.
  intros Hnew Hhand Hlm.
  unfold predict, detectForVideo. rewrite (strict_neq_true _ _ Hnew).
  rewrite Hhand, Hlm. reflexivity.
Qed.

(** C5.  When a frame with a new timestamp shows at least one hand, the
    target rotation becomes ((y - 0.5) * PI * 2, (x - 0.5) * PI * 4, 0) for
    the (x, y) of landmark 9 of the first hand.  In particular (0.5, 0.5)
    gives (0, 0, 0); x = 1 and x = 0 give a Y angle of 2 PI and -2 PI;
    y = 1 and y = 0 give an X angle of PI and -PI. *)
Theorem predict_target_rotation
  (f : Frame) (st : AppState) (hand : list HandLandmark)
  (others : list (list HandLandmark)) (lm : HandLandmark) :
  currentTime f <> lastVideoTime st ->
  landmarks (results f) = hand :: others ->
  nth_error hand 9 = Some lm ->
  let target := rotation (snd (predict f st)) in
  fst (predict f st) = Normal
  /\ target = ((y lm - 0.5) * PI * 2, (x lm - 0.5) * PI * 4, 0)
  /\ (x lm = 0.5 -> y lm = 0.5 -> target = (0, 0, 0))
  /\ (x lm = 1.0 -> THREE.idx1 target = 2 * PI)
  /\ (x lm = 0.0 -> THREE.idx1 target = - (2 * PI))
  /\ (y lm = 1.0 -> THREE.idx0 target = PI)
  /\ (y lm = 0.0 -> THREE.idx0 target = - PI).
Proof.
  intros Hnew Hhand Hlm target.
  subst target. rewrite (predict_with_hand f st hand others lm Hnew Hhand Hlm).
  cbn [snd fst rotation setRequestRef setRotation].
  unfold THREE.idx0, THREE.idx1. cbn [fst snd].
  split; [reflexivity|]. split; [reflexivity|].
  repeat split.
  - intros Hx Hy. rewrite Hx, Hy. f_equal; try lra; f_equal; lra.
  - intros Hx. rewrite Hx. lra.
  - intros Hx. rewrite Hx. lra.
  - intros Hy. rewrite Hy. lra.
  - intros Hy. rewrite Hy. lra.
Qed.

End Detection.

Section DetectionSequences.
Import App.

Lemma run_noHand (fs : list Frame) :
  Forall noHand fs -> forall st, rotation (run fs st) = rotation st.
Proof.
  induction 1 as [|f fs Hf _ IH]; intros st; [reflexivity|].
  cbn [run]. destruct (predict_noHand f st Hf) as [Hc Hr].
  destruct (predict f st) as [[|] st'] eqn:E; cbn [fst snd] in *; [|discriminate].
  rewrite IH. exact Hr.
Qed.

(** C6.  Frames in which no hand is detected never change the target:
    after any number of them it is still what it was, and so, after a
    detection, still the value derived from that detection. *)
Theorem no_hand_frames_keep_target
  (fs : list Frame) (f0 : Frame) (st0 : AppState) (hand : list HandLandmark)
  (others : list (list HandLandmark)) (lm : HandLandmark) :
  Forall noHand fs ->
  (forall st, rotation (run fs st) = rotation st)
  /\ (currentTime f0 <> lastVideoTime st0 ->
      landmarks (results f0) = hand :: others ->
      nth_error hand 9 = Some lm ->
      rotation (run (f0 :: fs) st0)
      = ((y lm - 0.5) * PI * 2, (x lm - 0.5) * PI * 4, 0)).
Proof.
  intros Hfs. split; [now apply run_noHand|].
  intros Hnew Hhand Hlm.
  cbn [run]. rewrite (predict_with_hand f0 st0 hand others lm Hnew Hhand Hlm).
  rewrite run_noHand by assumption. reflexivity.
Qed.

Lemma no_hand_frames_keep_target_witness :
  rotation (run [Samples.frameWithoutHand 1; Samples.frameWithoutHand 2;
                 Samples.frameWithoutHand 2]
                (snd (predict (Samples.frameWithHand 0 1 0) init)))
  = rotation (snd (predict (Samples.frameWithHand 0 1 0) init)).
Proof.
  apply (no_hand_frames_keep_target
           [Samples.frameWithoutHand 1; Samples.frameWithoutHand 2;
            Samples.frameWithoutHand 2]
           (Samples.frameWithHand 0 1 0) init (Samples.handAt 1 0) []
           (mkHandLandmark 1 0 0)).
  repeat constructor.
Defined.

(** C7.  A second call at the timestamp of the first one finds it
    processed: it asks the detector nothing and leaves the target as the
    first call left it, whatever hand is in front of the camera. *)
Theorem repeated_timestamp_is_skipped (f1 f2 : Frame) (st : AppState) :
  currentTime f2 = currentTime f1 ->
  let st1 := snd (predict f1 st) in
  let st2 := snd (predict f2 st1) in
  fst (predict f2 st1) = Normal
  /\ rotation st2 = rotation st1
  /\ detections st2 = detections st1.
Proof.
  intros E st1 st2. subst st2.
  rewrite (predict_same_time f2 st1).
  - now repeat split.
  - subst st1. rewrite predict_lastVideoTime. exact E.
Qed.

Lemma repeated_timestamp_is_skipped_witness :
  rotation (snd (predict (Samples.frameWithHand 0 0 0)
                   (snd (predict (Samples.frameWithHand 0 1 1) init))))
  = rotation (snd (predict (Samples.frameWithHand 0 1 1) init)).
Proof.
  apply (repeated_timestamp_is_skipped
           (Samples.frameWithHand 0 1 1) (Samples.frameWithHand 0 0 0) init).
  reflexivity.
Defined.

End DetectionSequences.

Lemma predict_target_rotation_witness :
  App.rotation (snd (App.predict (Samples.frameWithHand 0 1 0.5) App.init))
  = ((0.5 - 0.5) * PI * 2, (1 - 0.5) * PI * 4, 0).
Proof.
  apply (predict_target_rotation (Samples.frameWithHand 0 1 0.5) App.init
           (Samples.handAt 1 0.5) [] (App.mkHandLandmark 1 0.5 0)).
  - cbn. lra.
  - reflexivity.
  - reflexivity.
Defined.

(** ** The smoothing callback *)

Section Smoothing.
Import THREE ArtifactModel.

(** What the callback leaves when a group is attached *)
Lemma useFrame_attached (e : R * R * R) (delta now : R) (c : Component) (g : Object3D) :
  groupRef c = Some g ->
  exists g',
    useFrame e delta now c
    = mkComponent (processedScene c) (modelScale c)
        (lerp (idx0 (currentRotation c)) (idx0 e) (5 * delta),
         lerp (idx1 (currentRotation c)) (idx1 e) (5 * delta),
         idx2 (currentRotation c))
        (Some g')
    /\ ex (rotation g') = lerp (idx0 (currentRotation c)) (idx0 e) (5 * delta)
    /\ ey (rotation g') = lerp (idx1 (currentRotation c)) (idx1 e) (5 * delta)
    /\ ez (rotation g') = ez (rotation g).
Proof.
  intros Hg. unfold useFrame. rewrite Hg.
  destruct (currentRotation c) as [[c0 c1] c2], e as [[e0 e1] e2].
  eexists. split; [reflexivity|]. now repeat split.
Qed.

(** The callback never writes the third entry of [currentRotation], nor
    the Z angle of the group. *)
Lemma useFrame_keeps_z (e : R * R * R) (delta now : R) (c : Component) :
  idx2 (currentRotation (useFrame e delta now c)) = idx2 (currentRotation c)
  /\ option_map (fun g => ez (rotation g)) (groupRef (useFrame e delta now c))
     = option_map (fun g => ez (rotation g)) (groupRef c).
Proof.
  destruct (groupRef c) as [g|] eqn:Hg.
  - destruct (useFrame_attached e delta now c g Hg) as (g' & Hc' & _ & _ & Hz).
    rewrite Hc'. cbn. now rewrite Hz.
  - unfold useFrame. rewrite Hg. now rewrite Hg.
Qed.

End Smoothing.

(** ** The Z angle *)

Section ZAngle.
Import THREE System.

Lemma step_z_is_zero (w : World) (e : Event) : z_is_zero w -> z_is_zero (step w e).
Proof.
  intros (Ht & Hc & Hd). destruct e as [f | delta now | ]; unfold z_is_zero.
  - cbn [step app artifact]. split; [|now split].
    destruct (predict_rotation_cases f (app w)) as [E | E]; [now rewrite E | exact E].
  - cbn [step app artifact].
    destruct (useFrame_keeps_z (App.rotation (app w)) delta now (artifact w)) as [E1 E2].
    split; [exact Ht|]. split; [now rewrite E1|].
    unfold displayedZ in *. cbn [artifact]. now rewrite E2.
  - cbn [step app artifact]. split; [exact Ht|]. split; [exact Hc|].
    right. reflexivity.
Qed.

Lemma steps_z_is_zero (es : list Event) : forall w, z_is_zero w -> z_is_zero (steps es w).
Proof.
  unfold steps. induction es as [|e es IH]; intros w Hw; [exact Hw|].
  cbn [fold_left]. apply IH. now apply step_z_is_zero.
Qed.

(** C8.  The Z angle is always 0: a call of [predict] leaves the target
    as it was or writes one whose Z angle is 0; the smoothing callback
    writes neither the third entry of the displayed rotation nor the
    group's Z angle; hence, however detections, render ticks and the
    mounting of the group interleave from the initial state, the target,
    the smoothed rotation and the group all have a Z angle of 0. *)
Theorem z_rotation_is_zero :
  (forall f st,
      App.rotation (snd (App.predict f st)) = App.rotation st
      \/ idx2 (App.rotation (snd (App.predict f st))) = 0)
  /\ (forall e delta now c,
         idx2 (ArtifactModel.currentRotation (ArtifactModel.useFrame e delta now c))
         = idx2 (ArtifactModel.currentRotation c)
         /\ option_map (fun g => ez (rotation g))
              (ArtifactModel.groupRef (ArtifactModel.useFrame e delta now c))
            = option_map (fun g => ez (rotation g)) (ArtifactModel.groupRef c))
  /\ (forall es, z_is_zero (steps es init)).
Proof.
  split; [exact predict_rotation_cases|]. split; [exact useFrame_keeps_z|].
  intros es. apply steps_z_is_zero. unfold z_is_zero. cbn. auto.
Qed.

End ZAngle.

(** ** Scene graphs and the store *)

Section SceneGraph.
Import THREE StoreRelations.

(** Induction over a graph and, with it, over the children of each node *)
Lemma Node_induction (P : Node -> Prop) :
  (forall id children, Forall P children -> P (node id children)) ->
  forall n, P n.
Proof.
  intros H. fix IH 1. intros [id children]. apply H.
  induction children as [|c cs IHcs]; constructor; [apply IH | exact IHcs].
Qed.

Lemma ids_node (id : loc) (children : list Node) :
  ids (node id children) = id :: flat_map ids children.
Proof.
  unfold ids. cbn [nodes map id_of]. f_equal.
  induction children as [|c cs IH]; [reflexivity|].
  cbn [flat_map]. rewrite map_app, IH. reflexivity.
Qed.

Lemma ids_head (n : Node) : exists rest, ids n = id_of n :: rest.
Proof. destruct n as [id cs]. rewrite ids_node. now eexists. Qed.

(** A traversal is a fold over the nodes in order. *)
Lemma traverse_fold {A} (callback : Node -> A -> A) (n : Node) :
  forall a, traverse callback n a = fold_left (fun a n => callback n a) (nodes n) a.
Proof.
  induction n as [id children IH] using Node_induction. intros a.
  cbn [traverse nodes fold_left].
  generalize (callback (node id children) a). clear a.
  induction IH as [|c cs Hc _ IHcs]; intros a; [reflexivity|].
  cbn [fold_left flat_map]. rewrite fold_left_app, <- Hc. apply IHcs.
Qed.

(** *** Reads after writes *)

Lemma upd_same {A} (f : loc -> A) (l : loc) (a : A) : upd f l a l = a.
Proof. unfold upd. now rewrite Nat.eqb_refl. Qed.

Lemma upd_other {A} (f : loc -> A) (l l' : loc) (a : A) : l' <> l -> upd f l a l' = f l'.
Proof. unfold upd. intros H. apply Nat.eqb_neq in H. now rewrite H. Qed.

Lemma objects_modify (l l' : loc) (f : Object3D -> Object3D) (s : Store) :
  objects (modify l f s) l' = if Nat.eqb l' l then f (objects s l) else objects s l'.
Proof. reflexivity. Qed.

(** *** Writes that stay above a mark *)

Lemma keeps_refl (n m : loc) (s : Store) : keeps n m s s.
Proof. unfold keeps. auto. Qed.

Lemma keeps_trans (n m : loc) (s1 s2 s3 : Store) :
  keeps n m s1 s2 -> keeps n m s2 s3 -> keeps n m s1 s3.
Proof.
  intros (A1 & B1 & C1 & D1) (A2 & B2 & C2 & D2). unfold keeps.
  repeat split; try lia.
  - intros l Hl. now rewrite C2, C1.
  - intros k Hk. now rewrite D2, D1.
Qed.

Lemma keeps_modify (n m l : loc) (f : Object3D -> Object3D) (s : Store) :
  (n <= l)%nat -> keeps n m s (modify l f s).
Proof.
  intros H. unfold keeps. cbn. repeat split; auto.
  intros l' Hl'. apply upd_other. lia.
Qed.

Lemma keeps_modifyMaterial (n m k : loc) (f : Material -> Material) (s : Store) :
  (m <= k)%nat -> keeps n m s (modifyMaterial k f s).
Proof.
  intros H. unfold keeps. cbn. repeat split; auto.
  intros k' Hk'. apply upd_other. lia.
Qed.

Lemma keeps_newObject (n m : loc) (o : Object3D) (s : Store) :
  (n <= nextObject s)%nat -> keeps n m s (snd (newObject o s)).
Proof.
  intros H. unfold keeps. cbn. repeat split; auto.
  intros l' Hl'. apply upd_other. lia.
Qed.

Lemma keeps_newMaterial (n m : loc) (mat : Material) (s : Store) :
  (m <= nextMaterial s)%nat -> keeps n m s (snd (newMaterial mat s)).
Proof.
  intros H. unfold keeps. cbn. repeat split; auto.
  intros l' Hl'. apply upd_other. lia.
Qed.

(** *** The deep copy *)

Lemma cloned_nil (s : Store) : cloned [] [] s s.
Proof. unfold cloned. cbn. splits; auto. Qed.

Lemma cloned_app (src1 src2 cpy1 cpy2 : list loc) (s0 s1 s2 : Store) :
  cloned src1 cpy1 s0 s1 -> cloned src2 cpy2 s1 s2 ->
  cloned (src1 ++ src2) (cpy1 ++ cpy2) s0 s2.
Proof.
  intros (C1 & C2 & C3 & C4 & C5 & C6) (D1 & D2 & D3 & D4 & D5 & D6).
  unfold cloned. splits.
  - rewrite C1, D1, C2, length_app, seq_app. reflexivity.
  - rewrite D2, C2, length_app. lia.
  - congruence.
  - congruence.
  - intros l Hl. rewrite D5 by lia. now apply C5.
  - intros vals Hv Hlt.
    apply Forall_app in Hv. destruct Hv as [Hv1 Hv2].
    rewrite !map_app. f_equal.
    + rewrite <- (C6 vals Hv1) by (intros; apply Hlt, in_or_app; auto).
      apply map_ext_in. intros l Hl. apply D5.
      rewrite C1 in Hl. apply in_seq in Hl. lia.
    + apply D6.
      * apply Forall_forall. intros l Hl.
        rewrite C5 by (apply Hlt, in_or_app; auto).
        now apply (proj1 (Forall_forall _ _) Hv2).
      * intros l Hl. rewrite C2.
        assert ((l < nextObject s0)%nat) by (apply Hlt, in_or_app; auto). lia.
Qed.

Lemma cloned_newObject (id : loc) (s : Store) :
  cloned [id] [fst (newObject (objects s id) s)] s (snd (newObject (objects s id) s)).
Proof.
  unfold cloned, newObject. cbn [fst snd nextObject materials nextMaterial objects length seq].
  splits; auto.
  - lia.
  - intros l Hl. apply upd_other. lia.
  - intros vals Hv _. cbn [map]. rewrite upd_same. f_equal. now inversion Hv.
Qed.

Lemma cloned_children (children : list Node) :
  Forall (fun t => forall s,
            cloned (ids t) (ids (fst (Object3D_clone t s))) s (snd (Object3D_clone t s)))
         children ->
  forall s,
    cloned (flat_map ids children)
           (flat_map ids (fst (forEach Object3D_clone children s)))
           s (snd (forEach Object3D_clone children s)).
Proof.
  induction 1 as [|c cs Hc _ IH]; intros s; [apply cloned_nil|].
  cbn [forEach flat_map]. specialize (Hc s).
  destruct (Object3D_clone c s) as [c' sa]. cbn [fst snd] in Hc.
  specialize (IH sa).
  destruct (forEach Object3D_clone cs sa) as [cs' sb]. cbn [fst snd flat_map] in *.
  eapply cloned_app; eassumption.
Qed.

Lemma clone_cloned (t : Node) : forall s,
  cloned (ids t) (ids (fst (Object3D_clone t s))) s (snd (Object3D_clone t s)).
Proof.
  induction t as [id children IH] using Node_induction. intros s.
  cbn [Object3D_clone].
  pose proof (cloned_newObject id s) as Hroot.
  destruct (newObject (objects s id) s) as [id' s1]. cbn [fst snd] in Hroot.
  pose proof (cloned_children children IH s1) as Hkids.
  destruct (forEach Object3D_clone children s1) as [cs' s2]. cbn [fst snd] in *.
  rewrite !ids_node.
  exact (cloned_app [id] _ [id'] _ s s1 s2 Hroot Hkids).
Qed.

Lemma clone_spec (t : Node) : forall s,
  ids (fst (Object3D_clone t s)) = seq (nextObject s) (length (ids t))
  /\ nextObject (snd (Object3D_clone t s)) = (nextObject s + length (ids t))%nat
  /\ materials (snd (Object3D_clone t s)) = materials s
  /\ nextMaterial (snd (Object3D_clone t s)) = nextMaterial s
  /\ (forall l, (l < nextObject s)%nat ->
                objects (snd (Object3D_clone t s)) l = objects s l)
  /\ (forall vals, Forall (fun l => objects s l = vals l) (ids t) ->
        (forall l, In l (ids t) -> (l < nextObject s)%nat) ->
        map (objects (snd (Object3D_clone t s))) (ids (fst (Object3D_clone t s)))
        = map vals (ids t)).
Proof. exact (clone_cloned t). Qed.

Lemma fold_left_invariant {A B} (f : A -> B -> A) (I : A -> Prop) (l : list B) :
  (forall a b, In b l -> I a -> I (f a b)) ->
  forall a, I a -> I (fold_left f l a).
Proof.
  induction l as [|b l IH]; intros Hf a Ha; [exact Ha|].
  cbn [fold_left]. apply IH.
  - intros a' b' Hb'. apply Hf. now right.
  - apply Hf; [now left | exact Ha].
Qed.

Lemma in_nodes_ids (n t : Node) : In n (nodes t) -> In (id_of n) (ids t).
Proof. intros H. unfold ids. now apply in_map. Qed.

End SceneGraph.

(** ** Material set-up *)

Section MaterialSetup.
Import THREE StoreRelations ArtifactModel.

Lemma applySettings_spec (mat : loc) (s : Store) :
  fst (applySettings mat s) = nextMaterial s
  /\ nextMaterial (snd (applySettings mat s)) = S (nextMaterial s)
  /\ objects (snd (applySettings mat s)) = objects s
  /\ nextObject (snd (applySettings mat s)) = nextObject s
  /\ (forall k, k <> nextMaterial s ->
                materials (snd (applySettings mat s)) k = materials s k)
  /\ sanitised (materials (snd (applySettings mat s)) (nextMaterial s)).
Proof.
  unfold applySettings, Material_clone, newMaterial, modifyMaterial, setMaterial.
  cbn [fst snd objects nextObject materials nextMaterial].
  split; [reflexivity|]. split; [reflexivity|]. split; [reflexivity|].
  split; [reflexivity|]. split.
  - intros k Hk. now rewrite !upd_other by exact Hk.
  - rewrite !upd_same. unfold sanitised. cbn. repeat apply conj; reflexivity.
Qed.

Lemma Array_map_applySettings (ms : list loc) : forall s,
  fst (Array_map applySettings ms s) = seq (nextMaterial s) (length ms)
  /\ nextMaterial (snd (Array_map applySettings ms s)) = (nextMaterial s + length ms)%nat
  /\ objects (snd (Array_map applySettings ms s)) = objects s
  /\ nextObject (snd (Array_map applySettings ms s)) = nextObject s
  /\ (forall k, (k < nextMaterial s)%nat ->
                materials (snd (Array_map applySettings ms s)) k = materials s k)
  /\ (forall k, In k (seq (nextMaterial s) (length ms)) ->
                sanitised (materials (snd (Array_map applySettings ms s)) k)).
Proof.
  induction ms as [|m ms IH]; intros s.
  - cbn. repeat apply conj; auto. intros k [].
  - cbn [Array_map].
    destruct (applySettings_spec m s) as (A1 & A2 & A3 & A4 & A5 & A6).
    destruct (applySettings m s) as [m' s1]. cbn [fst snd] in *.
    destruct (IH s1) as (B1 & B2 & B3 & B4 & B5 & B6).
    destruct (Array_map applySettings ms s1) as [ms' s2]. cbn [fst snd] in *.
    cbn [length seq]. rewrite A2 in *.
    repeat apply conj.
    + now rewrite A1, B1.
    + lia.
    + congruence.
    + congruence.
    + intros k Hk. rewrite B5 by lia. apply A5. lia.
    + intros k [Hk | Hk].
      * subst k. rewrite B5 by lia. exact A6.
      * now apply B6.
Qed.

(** What one call of the set-up callback does to the store *)
Lemma materialSetup_spec (m0 : loc) (n : Node) (s : Store) :
  (m0 <= nextMaterial s)%nat ->
  (nextMaterial s <= nextMaterial (materialSetup n s))%nat
  /\ nextObject (materialSetup n s) = nextObject s
  /\ (forall l, l <> id_of n -> objects (materialSetup n s) l = objects s l)
  /\ (forall k, (k < nextMaterial s)%nat -> materials (materialSetup n s) k = materials s k)
  /\ isMesh (objects (materialSetup n s) (id_of n)) = isMesh (objects s (id_of n))
  /\ geometry (objects (materialSetup n s) (id_of n)) = geometry (objects s (id_of n))
  /\ surfaceReady m0 (materialSetup n s) (id_of n).
Proof.
  intros Hm. unfold materialSetup.
  destruct (isMesh (objects s (id_of n))) eqn:Emesh.
  2:{ splits; auto. unfold surfaceReady. congruence. }
  set (j := id_of n) in *.
  set (s2 := modify j (set_receiveShadow true) (modify j (set_castShadow true) s)).
  assert (Ho : objects s2 j = set_receiveShadow true (set_castShadow true (objects s j))).
  { subst s2. cbn. now rewrite !upd_same. }
  assert (Hother : forall l, l <> j -> objects s2 l = objects s l).
  { intros l Hl. subst s2. cbn. now rewrite !upd_other. }
  assert (Hmat : materials s2 = materials s) by reflexivity.
  assert (Hnm : nextMaterial s2 = nextMaterial s) by reflexivity.
  assert (Hno : nextObject s2 = nextObject s) by reflexivity.
  rewrite Ho. cbn [material set_receiveShadow set_castShadow].
  destruct (material (objects s j)) as [|m|ms] eqn:Eslot.
  - splits.
    + lia.
    + exact Hno.
    + exact Hother.
    + intros k _. now rewrite Hmat.
    + rewrite Ho. exact Emesh.
    + rewrite Ho. reflexivity.
    + unfold surfaceReady. rewrite Ho. cbn. rewrite Eslot. intros _.
      splits; auto. intros m [].
  - destruct (applySettings_spec m s2) as (A1 & A2 & A3 & A4 & A5 & A6).
    destruct (applySettings m s2) as [m' s3]. cbn [fst snd] in *.
    splits.
    + cbn. lia.
    + cbn. congruence.
    + intros l Hl. cbn. rewrite upd_other by exact Hl. rewrite A3. now apply Hother.
    + intros k Hk. cbn. rewrite A5 by lia. now rewrite Hmat.
    + cbn. rewrite upd_same, A3, Ho. cbn. exact Emesh.
    + cbn. rewrite upd_same, A3, Ho. reflexivity.
    + unfold surfaceReady. cbn. rewrite upd_same, A3, Ho. cbn. intros _.
      splits; auto. intros k [Hk | []]. subst k m'.
      split; [lia | exact A6].
  - destruct (Array_map_applySettings ms s2) as (A1 & A2 & A3 & A4 & A5 & A6).
    destruct (Array_map applySettings ms s2) as [ms' s3]. cbn [fst snd] in *.
    splits.
    + cbn. lia.
    + cbn. congruence.
    + intros l Hl. cbn. rewrite upd_other by exact Hl. rewrite A3. now apply Hother.
    + intros k Hk. cbn. rewrite A5 by lia. now rewrite Hmat.
    + cbn. rewrite upd_same, A3, Ho. cbn. exact Emesh.
    + cbn. rewrite upd_same, A3, Ho. reflexivity.
    + unfold surfaceReady. cbn. rewrite upd_same, A3, Ho. cbn. intros _.
      splits; auto. intros k Hk. subst ms'.
      split; [apply in_seq in Hk; lia | now apply A6].
Qed.

End MaterialSetup.

(** ** What the steps of the effect leave alone *)

Section Frames.
Import THREE StoreRelations ArtifactModel.

Lemma restyled_refl (s : Store) : restyled s s.
Proof. unfold restyled. auto. Qed.

Lemma restyled_trans (s1 s2 s3 : Store) :
  restyled s1 s2 -> restyled s2 s3 -> restyled s1 s3.
Proof.
  intros (A1 & B1 & C1 & D1) (A2 & B2 & C2 & D2). unfold restyled.
  splits; try congruence.
Qed.

Lemma restyled_modify (l : loc) (f : Object3D -> Object3D) (s : Store) :
  (forall o, look (f o) = look o) -> restyled s (modify l f s).
Proof.
  intros Hf. unfold restyled. splits; try reflexivity.
  intros l'. rewrite objects_modify. destruct (Nat.eqb_spec l' l); [subst; apply Hf | reflexivity].
Qed.

Lemma restyled_keeps (n m : loc) (s s' : Store) :
  restyled s s' -> (forall l, (l < n)%nat -> objects s' l = objects s l) -> keeps n m s s'.
Proof.
  intros (A & B & C & D) H. unfold keeps. splits; try lia; auto.
  intros k _. now rewrite A.
Qed.

Lemma surfaceReady_restyled (m0 : loc) (s s' : Store) (l : loc) :
  restyled s s' -> surfaceReady m0 s l -> surfaceReady m0 s' l.
Proof.
  intros (A & B & C & D) H. unfold surfaceReady in *.
  specialize (D l). unfold look in D. injection D as D1 D2 D3 D4 D5.
  rewrite D1, D3, D4, D5, A, B. exact H.
Qed.

Lemma rematrixed_refl (s : Store) : rematrixed [] s s.
Proof. unfold rematrixed. splits; auto using restyled_refl. Qed.

Lemma rematrixed_trans (l1 l2 : list loc) (s1 s2 s3 : Store) :
  rematrixed l1 s1 s2 -> rematrixed l2 s2 s3 -> rematrixed (l1 ++ l2) s1 s3.
Proof.
  intros (A1 & B1 & C1) (A2 & B2 & C2). unfold rematrixed. splits.
  - eapply restyled_trans; eassumption.
  - intros l. now rewrite B2, B1.
  - intros l Hl. rewrite C2, C1; auto; intros H; apply Hl, in_or_app; auto.
Qed.

Lemma rematrixed_set_matrices (l : loc) (m mw : Matrix4) (s : Store) :
  rematrixed [l] s (modify l (set_matrices m mw) s).
Proof.
  unfold rematrixed. splits.
  - now apply restyled_modify.
  - intros l'. rewrite objects_modify. now destruct (Nat.eqb_spec l' l); [subst|].
  - intros l' Hl'. rewrite objects_modify.
    destruct (Nat.eqb_spec l' l); [subst; exfalso; apply Hl'; now left | reflexivity].
Qed.

Lemma updateMatrixWorld_rematrixed (t : Node) :
  forall parent s, rematrixed (ids t) s (updateMatrixWorld parent t s).
Proof.
  induction t as [id children IH] using Node_induction. intros parent s.
  cbn [updateMatrixWorld]. rewrite ids_node.
  set (o := objects s id).
  set (m := compose (position o) (quaternion o) (scale o)).
  set (mw := match parent with None => m | Some p => multiplyMatrices p m end).
  change (id :: flat_map ids children) with ([id] ++ flat_map ids children).
  apply (rematrixed_trans [id] _ s (modify id (set_matrices m mw) s));
    [apply rematrixed_set_matrices|].
  generalize (modify id (set_matrices m mw) s). generalize (Some mw).
  clear mw m o s parent. intros p.
  induction IH as [|c cs Hc _ IHcs]; intros s'; [apply rematrixed_refl|].
  cbn [fold_left flat_map]. eapply rematrixed_trans; [apply Hc | apply IHcs].
Qed.

(** The material set-up over a whole graph *)
Lemma materialSetup_traversal (n0 m0 : loc) (clone : Node) (s : Store) :
  Forall (fun l => (n0 <= l)%nat) (ids clone) ->
  (m0 <= nextMaterial s)%nat ->
  keeps n0 m0 s (traverse materialSetup clone s)
  /\ nextObject (traverse materialSetup clone s) = nextObject s
  /\ (forall l, isMesh (objects (traverse materialSetup clone s) l) = isMesh (objects s l)
                /\ geometry (objects (traverse materialSetup clone s) l)
                   = geometry (objects s l))
  /\ (forall l, In l (ids clone) -> surfaceReady m0 (traverse materialSetup clone s) l).
Proof.
  intros Hids Hm. rewrite traverse_fold. unfold ids in *.
  rewrite Forall_map in Hids.
  assert (H : forall ns s,
    Forall (fun n => (n0 <= id_of n)%nat) ns -> (m0 <= nextMaterial s)%nat ->
    let s' := fold_left (fun s n => materialSetup n s) ns s in
    keeps n0 m0 s s'
    /\ nextObject s' = nextObject s
    /\ (forall l, isMesh (objects s' l) = isMesh (objects s l)
                  /\ geometry (objects s' l) = geometry (objects s l))
    /\ (forall l, surfaceReady m0 s l -> surfaceReady m0 s' l)
    /\ (forall n, In n ns -> surfaceReady m0 s' (id_of n))).
  { clear. induction ns as [|n ns IH]; intros s Hns Hm s'; subst s'.
    - cbn. splits; auto using keeps_refl. intros n [].
    - cbn [fold_left]. inversion Hns as [|? ? Hn Hns']; subst.
      destruct (materialSetup_spec m0 n s Hm) as (S1 & S2 & S3 & S4 & S5 & S6 & S7).
      assert (Hm' : (m0 <= nextMaterial (materialSetup n s))%nat) by lia.
      destruct (IH (materialSetup n s) Hns' Hm') as (I1 & I2 & I3 & I4 & I5).
      assert (Hstep : forall l, surfaceReady m0 s l -> surfaceReady m0 (materialSetup n s) l).
      { intros l Hl. destruct (Nat.eq_dec l (id_of n)) as [->|Hne]; [exact S7|].
        unfold surfaceReady in *. rewrite (S3 l Hne). intros Hmesh.
        destruct (Hl Hmesh) as (L1 & L2 & L3). splits; auto.
        intros k Hk. destruct (L3 k Hk) as [[Hk1 Hk2] Hk3].
        rewrite S4 by exact Hk2. split; [lia | exact Hk3]. }
      splits.
      + eapply keeps_trans; [|exact I1]. unfold keeps. splits; try lia.
        * intros l Hl. apply S3. lia.
        * intros k Hk. apply S4. lia.
      + congruence.
      + intros l. destruct (I3 l) as [I3a I3b]. rewrite I3a, I3b.
        destruct (Nat.eq_dec l (id_of n)) as [->|Hne]; [now split | now rewrite (S3 l Hne)].
      + intros l Hl. apply I4, Hstep, Hl.
      + intros n' [<- | Hn']; [apply I4, S7 | now apply I5]. }
  destruct (H (nodes clone) s Hids Hm) as (H1 & H2 & H3 & _ & H5).
  splits; auto.
  intros l Hl. apply in_map_iff in Hl. destruct Hl as (n & <- & Hn). now apply H5.
Qed.

End Frames.

(** ** What measuring a box writes *)

Section Caching.
Import THREE StoreRelations ArtifactModel.

(** The stores the effect goes through, named *)
Lemma prepare_stages (scene : Node) (s : Store) :
  let clone := fst (Object3D_clone scene s) in
  let sa := snd (Object3D_clone scene s) in
  let sb := traverse materialSetup clone sa in
  let root := id_of clone in
  let sc := modify root (set_scale (Vector3_set 1 1 1))
              (modify root (fun o => set_rotation (Euler_set 0 0 0 (rotation o)) o)
                 (modify root (set_position (Vector3_set 0 0 0)) sb)) in
  prepare scene s = (clone, updateMatrixWorld None clone sc).
Proof.
  unfold prepare. destruct (Object3D_clone scene s) as [clone sa]. reflexivity.
Qed.

Lemma measured_refl (s : Store) : measured s s.
Proof. unfold measured. splits; auto. Qed.

Lemma measured_trans (s1 s2 s3 : Store) :
  measured s1 s2 -> measured s2 s3 -> measured s1 s3.
Proof.
  intros (A1 & A2 & A3 & A4 & A5) (B1 & B2 & B3 & B4 & B5). unfold measured.
  splits; try congruence.
  intros g. destruct (A5 g) as [E | [N E]].
  - rewrite <- E. destruct (B5 g) as [E' | [N' E']]; [left; exact E' | right; now split].
  - right. split; [exact N|].
    destruct (B5 g) as [E' | [N' E']]; [congruence|].
    rewrite E in N'. discriminate.
Qed.

Lemma measured_computeBoundingBox (g : loc) (s : Store) :
  boundingBox (geometries s g) = None -> measured s (computeBoundingBox g s).
Proof.
  intros N. unfold measured, computeBoundingBox, setGeometry.
  cbn [objects nextObject materials nextMaterial geometries]. splits; auto.
  intros g'. unfold upd. destruct (Nat.eqb_spec g' g) as [-> | _]; [right | left]; auto.
Qed.

Lemma measured_sameBoxes (s s' : Store) : measured s s' -> sameBoxes s s'.
Proof.
  intros (_ & _ & _ & _ & H) g. destruct (H g) as [-> | [N ->]]; [reflexivity|].
  unfold boxOf. now rewrite N.
Qed.

Lemma measured_restyled (s s' : Store) : measured s s' -> restyled s s'.
Proof.
  intros (A1 & A2 & A3 & A4 & _). unfold restyled. splits; auto.
  intros l. now rewrite A1.
Qed.

Lemma expandByObject_measured (t : Node) :
  forall s b, measured s (snd (expandByObject s t b)).
Proof.
  induction t as [id children IH] using Node_induction. intros s b.
  cbn [expandByObject].
  set (head := match geometry (objects s id) with
               | Some g => _
               | None => (b, s)
               end).
  assert (Hhead : measured s (snd head)).
  { subst head. destruct (geometry (objects s id)) as [g|]; [|apply measured_refl].
    destruct (boundingBox (geometries s g)) eqn:N.
    - rewrite N. apply measured_refl.
    - pose proof (measured_computeBoundingBox g s N) as Hm.
      destruct (boundingBox (geometries (computeBoundingBox g s) g)); exact Hm. }
  destruct head as [b1 s1]. cbn [snd] in Hhead.
  revert b1 s1 Hhead.
  induction IH as [|c cs Hc _ IHcs]; intros b1 s1 Hhead; [exact Hhead|].
  cbn [fold_left]. specialize (Hc s1 b1).
  destruct (expandByObject s1 c b1) as [b2 s2]. cbn [snd] in Hc.
  apply IHcs. now apply (measured_trans s s1 s2).
Qed.

Lemma expandByMeshes_measured (s : Store) (ns : list Node) :
  forall acc, measured s (snd acc) ->
    measured s (snd (fold_left (fun a n => expandByMeshes n a) ns acc)).
Proof.
  induction ns as [|n ns IH]; intros [[b h] s1] H1; [exact H1|].
  cbn [fold_left]. apply IH. unfold expandByMeshes. cbn [snd] in H1.
  destruct (isMesh (objects s1 (id_of n))); [|exact H1].
  pose proof (expandByObject_measured n s1 b) as H2.
  destruct (expandByObject s1 n b) as [b2 s2]. cbn [snd] in *.
  now apply (measured_trans s s1 s2).
Qed.

(** Measuring the box writes nothing but boxes that were missing. *)
Lemma computeBox_measured (s : Store) (t : Node) : measured s (snd (computeBox s t)).
Proof.
  unfold computeBox. rewrite traverse_fold.
  pose proof (expandByMeshes_measured s (nodes t) (makeEmpty, false, s) (measured_refl s)) as H.
  destruct (fold_left (fun a n => expandByMeshes n a) (nodes t) (makeEmpty, false, s))
    as [[b h] s1].
  cbn [snd] in H. destruct (negb h); [|exact H].
  unfold setFromObject. apply (measured_trans s s1); [exact H|].
  apply expandByObject_measured.
Qed.

(** Nothing before the measuring touches a geometry. *)
Lemma clone_geometries (t : Node) :
  forall s, geometries (snd (Object3D_clone t s)) = geometries s.
Proof.
  induction t as [id children IH] using Node_induction. intros s.
  cbn [Object3D_clone].
  change (geometries s) with (geometries (snd (newObject (objects s id) s))).
  destruct (newObject (objects s id) s) as [id' s1]. cbn [snd].
  assert (H : forall s, geometries (snd (forEach Object3D_clone children s)) = geometries s).
  { clear s s1 id'. induction IH as [|c cs Hc _ IHcs]; intros s; [reflexivity|].
    cbn [forEach]. specialize (Hc s).
    destruct (Object3D_clone c s) as [c' sa]. cbn [snd] in Hc.
    specialize (IHcs sa).
    destruct (forEach Object3D_clone cs sa) as [cs' sb]. cbn [snd] in *. congruence. }
  specialize (H s1). destruct (forEach Object3D_clone children s1) as [cs' s2].
  exact H.
Qed.

Lemma applySettings_geometries (m : loc) (s : Store) :
  geometries (snd (applySettings m s)) = geometries s.
Proof. reflexivity. Qed.

Lemma Array_map_geometries (ms : list loc) :
  forall s, geometries (snd (Array_map applySettings ms s)) = geometries s.
Proof.
  induction ms as [|m ms IH]; intros s; [reflexivity|].
  cbn [Array_map]. pose proof (applySettings_geometries m s) as H1.
  destruct (applySettings m s) as [m' s1]. cbn [snd] in H1.
  specialize (IH s1). destruct (Array_map applySettings ms s1) as [ms' s2].
  cbn [snd] in *. congruence.
Qed.

Lemma materialSetup_geometries (n : Node) (s : Store) :
  geometries (materialSetup n s) = geometries s.
Proof.
  unfold materialSetup. destruct (isMesh (objects s (id_of n))); [|reflexivity].
  set (s2 := modify (id_of n) (set_receiveShadow true) _).
  change (geometries s) with (geometries s2).
  destruct (material (objects s2 (id_of n))) as [|m|ms]; [reflexivity| |].
  - pose proof (applySettings_geometries m s2) as H.
    destruct (applySettings m s2) as [m' s3]. exact H.
  - pose proof (Array_map_geometries ms s2) as H.
    destruct (Array_map applySettings ms s2) as [ms' s3]. exact H.
Qed.

Lemma updateMatrixWorld_geometries (t : Node) :
  forall parent s, geometries (updateMatrixWorld parent t s) = geometries s.
Proof.
  intros parent s.
  destruct (updateMatrixWorld_rematrixed t parent s) as (_ & _ & _).
  revert parent s. induction t as [id children IH] using Node_induction. intros parent s.
  cbn [updateMatrixWorld].
  set (mw := match parent with None => _ | Some p => _ end).
  set (s1 := modify id _ s). change (geometries s) with (geometries s1).
  generalize s1. generalize (Some mw). clear s1 mw parent s. intros p.
  induction IH as [|c cs Hc _ IHcs]; intros s; [reflexivity|].
  cbn [fold_left]. now rewrite IHcs, Hc.
Qed.

Lemma prepare_geometries (scene : Node) (s : Store) :
  geometries (snd (prepare scene s)) = geometries s.
Proof.
  rewrite (prepare_stages scene s). cbn [snd].
  rewrite updateMatrixWorld_geometries. cbn [geometries modify setObject].
  rewrite traverse_fold.
  rewrite <- (clone_geometries scene s).
  generalize (snd (Object3D_clone scene s)).
  induction (nodes (fst (Object3D_clone scene s))) as [|n ns IH]; intros s0; [reflexivity|].
  cbn [fold_left]. now rewrite IH, materialSetup_geometries.
Qed.

(** A box that is kept stays as it is. *)
Lemma measured_kept (s s' : Store) (g : loc) (box : Box3) :
  measured s s' -> boundingBox (geometries s g) = Some box ->
  geometries s' g = geometries s g.
Proof.
  intros (_ & _ & _ & _ & H) Hb. destruct (H g) as [E | [N _]]; [exact E|].
  rewrite N in Hb. discriminate.
Qed.

(** [expandByObject] leaves no geometry of the graph without its box. *)
Lemma expandByObject_fills (t : Node) :
  forall s b l g,
    In l (ids t) -> geometry (objects s l) = Some g ->
    boundingBox (geometries (snd (expandByObject s t b)) g) = Some (boxOf (geometries s g)).
Proof.
  induction t as [id children IH] using Node_induction. intros s b l g Hl Hg.
  rewrite ids_node in Hl. cbn [expandByObject].
  set (head := match geometry (objects s id) with
               | Some g => _
               | None => (b, s)
               end).
  assert (Hhead : measured s (snd head)
                  /\ (l = id ->
                      boundingBox (geometries (snd head) g) = Some (boxOf (geometries s g)))).
  { subst head. destruct (geometry (objects s id)) as [g0|] eqn:G.
    2:{ split; [apply measured_refl|]. intros ->. congruence. }
    destruct (boundingBox (geometries s g0)) as [box|] eqn:N.
    - rewrite N. cbn [snd]. split; [apply measured_refl|].
      intros ->. assert (g0 = g) by congruence. subst g0. unfold boxOf. now rewrite N.
    - pose proof (measured_computeBoundingBox g0 s N) as Hm.
      assert (E : boundingBox (geometries (computeBoundingBox g0 s) g0)
                  = Some (setFromPoints (vertices (geometries s g0)))).
      { unfold computeBoundingBox, setGeometry. cbn [geometries]. now rewrite upd_same. }
      rewrite E. cbn [snd]. split; [exact Hm|].
      intros ->. assert (g0 = g) by congruence. subst g0. rewrite E. unfold boxOf.
      now rewrite N. }
  destruct head as [b1 s1]. cbn [snd] in Hhead. destruct Hhead as [Hm Hid].
  assert (Hcase : boundingBox (geometries s1 g) = Some (boxOf (geometries s g))
                  \/ In l (flat_map ids children)).
  { destruct Hl as [<- | Hl]; [left; now apply Hid | now right]. }
  clear Hl Hid. revert b1 s1 Hm Hcase.
  induction IH as [|c cs Hc _ IHcs]; intros b1 s1 Hm Hcase.
  - cbn [fold_left snd]. destruct Hcase as [H | []]. exact H.
  - cbn [fold_left flat_map] in *.
    pose proof (expandByObject_measured c s1 b1) as Hm'.
    specialize (Hc s1 b1 l g).
    destruct (expandByObject s1 c b1) as [b2 s2]. cbn [snd] in *.
    apply IHcs; [now apply (measured_trans s s1 s2)|].
    destruct Hcase as [H | H].
    + left. now rewrite (measured_kept s1 s2 g _ Hm' H).
    + apply in_app_or in H. destruct H as [H | H]; [left | now right].
      pose proof Hm as (Eo & _).
      rewrite Hc by (rewrite ?Eo; assumption).
      now rewrite (measured_sameBoxes s s1 Hm g).
Qed.

(** Measuring leaves no geometry of a surface without its box. *)
Lemma computeBox_fills (s : Store) (t : Node) (l g : loc) :
  In l (ids t) -> isMesh (objects s l) = true -> geometry (objects s l) = Some g ->
  boundingBox (geometries (snd (computeBox s t)) g) = Some (boxOf (geometries s g)).
Proof.
  intros Hl Hmesh Hg. unfold computeBox. rewrite traverse_fold.
  assert (H : forall ns acc,
    measured s (snd acc) ->
    boundingBox (geometries (snd acc) g) = Some (boxOf (geometries s g))
    \/ In l (map id_of ns) ->
    boundingBox (geometries (snd (fold_left (fun a n => expandByMeshes n a) ns acc)) g)
    = Some (boxOf (geometries s g))).
  { induction ns as [|n ns IH]; intros [[b h] s1] Hm Hcase; cbn [snd] in *.
    - destruct Hcase as [H | []]. exact H.
    - cbn [fold_left map] in *. pose proof Hm as (Eo & _).
      unfold expandByMeshes at 2.
      destruct (isMesh (objects s1 (id_of n))) eqn:En.
      + pose proof (expandByObject_measured n s1 b) as Hm'.
        pose proof (expandByObject_fills n s1 b l g) as Hf.
        destruct (expandByObject s1 n b) as [b2 s2]. cbn [snd] in *.
        apply IH; cbn [snd]; [now apply (measured_trans s s1 s2)|].
        destruct Hcase as [H | [H | H]]; [left | left | now right].
        * now rewrite (measured_kept s1 s2 g _ Hm' H).
        * destruct (ids_head n) as [rest Er].
          rewrite Hf; [now rewrite (measured_sameBoxes s s1 Hm g) | |].
          -- rewrite Er, H. now left.
          -- now rewrite Eo.
      + apply IH; cbn [snd]; [exact Hm|].
        destruct Hcase as [H | [H | H]]; [now left | | now right].
        rewrite Eo, H, Hmesh in En. discriminate. }
  pose proof (H (nodes t) (makeEmpty, false, s) (measured_refl s) (or_intror Hl)) as Hfilled.
  pose proof (expandByMeshes_measured s (nodes t) (makeEmpty, false, s) (measured_refl s))
    as Hm.
  destruct (fold_left (fun a n => expandByMeshes n a) (nodes t) (makeEmpty, false, s))
    as [[b h] s1].
  cbn [snd] in *. destruct (negb h); [|exact Hfilled].
  unfold setFromObject.
  now rewrite (measured_kept s1 _ g _ (expandByObject_measured t s1 makeEmpty) Hfilled).
Qed.

End Caching.

(** ** The effect as a whole *)

Section Normalisation.
Import THREE StoreRelations ArtifactModel.

Lemma normalize_stages (scene : Node) (s : Store) :
  let clone := fst (prepare scene s) in
  let s1 := snd (prepare scene s) in
  let box := fst (computeBox s1 clone) in
  let s2 := snd (computeBox s1 clone) in
  normalize scene s
  = (clone, scaleFactor box,
     modify (id_of clone)
       (fun o => set_position (Vector3_sub (position o) (getCenter box)) o) s2).
Proof.
  unfold normalize. destruct (prepare scene s) as [clone s1]. cbn [fst snd].
  now destruct (computeBox s1 clone) as [box s2].
Qed.

Lemma ids_clone_above (scene : Node) (s : Store) :
  Forall (fun l => (nextObject s <= l)%nat) (ids (fst (Object3D_clone scene s))).
Proof.
  destruct (clone_spec scene s) as (H & _). rewrite H.
  apply Forall_forall. intros l Hl. apply in_seq in Hl. lia.
Qed.

Lemma root_clone_above (scene : Node) (s : Store) :
  (nextObject s <= id_of (fst (Object3D_clone scene s)))%nat.
Proof.
  pose proof (ids_clone_above scene s) as H.
  destruct (ids_head (fst (Object3D_clone scene s))) as [rest E]. rewrite E in H.
  now inversion H.
Qed.

(** What holds when the copy has been prepared for measuring *)
Lemma prepare_spec (scene : Node) (s : Store) :
  let clone := fst (prepare scene s) in
  let s1 := snd (prepare scene s) in
  ids clone = seq (nextObject s) (length (ids scene))
  /\ nextObject s1 = (nextObject s + length (ids scene))%nat
  /\ keeps (nextObject s) (nextMaterial s) s s1
  /\ (forall l, In l (ids clone) -> surfaceReady (nextMaterial s) s1 l)
  /\ position (objects s1 (id_of clone)) = Vector3_set 0 0 0
  /\ ex (rotation (objects s1 (id_of clone))) = 0
  /\ ey (rotation (objects s1 (id_of clone))) = 0
  /\ ez (rotation (objects s1 (id_of clone))) = 0
  /\ scale (objects s1 (id_of clone)) = Vector3_set 1 1 1
  /\ clone = fst (Object3D_clone scene s)
  /\ (forall l, kind (objects s1 l) = kind (objects (snd (Object3D_clone scene s)) l))
  /\ (exists sc, s1 = updateMatrixWorld None clone sc).
Proof.
  rewrite (prepare_stages scene s). cbn [fst snd].
  set (clone := fst (Object3D_clone scene s)).
  set (sa := snd (Object3D_clone scene s)).
  set (sb := traverse materialSetup clone sa).
  set (root := id_of clone).
  set (sc := modify root _ (modify root _ (modify root _ sb))).
  destruct (clone_spec scene s) as (C1 & C2 & C3 & C4 & C5 & _).
  fold clone sa in C1, C2, C3, C4, C5.
  pose proof (ids_clone_above scene s) as Habove. fold clone in Habove.
  pose proof (root_clone_above scene s) as Hroot. fold clone root in Hroot.
  assert (Hm : (nextMaterial s <= nextMaterial sa)%nat) by lia.
  destruct (materialSetup_traversal (nextObject s) (nextMaterial s) clone sa Habove Hm)
    as (T1 & T2 & T3 & T4). fold sb in T1, T2, T3, T4.
  assert (Hbc : restyled sb sc).
  { subst sc. eapply restyled_trans; [eapply restyled_trans|];
      apply restyled_modify; reflexivity. }
  destruct (updateMatrixWorld_rematrixed clone None sc) as (U1 & U2 & U3).
  set (s1 := updateMatrixWorld None clone sc) in *.
  assert (Hb1 : restyled sb s1) by (eapply restyled_trans; eassumption).
  assert (Hpose : pose (objects s1 root)
                  = pose (set_scale (Vector3_set 1 1 1)
                           (set_rotation (Euler_set 0 0 0 (rotation (objects sb root)))
                              (set_position (Vector3_set 0 0 0) (objects sb root))))).
  { rewrite U2. subst sc. cbn. now rewrite !upd_same. }
  unfold pose in Hpose. cbn in Hpose. injection Hpose as P1 P2 P3 P4.
  splits.
  - exact C1.
  - destruct Hb1 as (_ & _ & E & _). rewrite E, T2. exact C2.
  - apply (keeps_trans _ _ s sa).
    { unfold keeps. splits; try lia; auto. intros k _. now rewrite C3. }
    apply (keeps_trans _ _ sa sb); [exact T1|].
    apply restyled_keeps; [exact Hb1|].
    intros l Hl. rewrite U3.
    + subst sc. cbn. rewrite !upd_other by lia. reflexivity.
    + intros Hin. apply (proj1 (Forall_forall _ _) Habove) in Hin. lia.
  - intros l Hl. eapply surfaceReady_restyled; [exact Hb1 | now apply T4].
  - exact P1.
  - now rewrite P2.
  - now rewrite P2.
  - now rewrite P2.
  - exact P4.
  - reflexivity.
  - intros l. destruct Hb1 as (_ & _ & _ & L). specialize (L l).
    unfold look in L. injection L as L1 L2 _ _ _.
    destruct (T3 l) as [T3a T3b]. unfold kind. congruence.
  - now exists sc.
Qed.

(** Every surface of the published copy is as the set-up left it. *)
Lemma normalize_surfaceReady (scene : Node) (s : Store) (l : loc) :
  In l (ids (fst (fst (normalize scene s)))) ->
  surfaceReady (nextMaterial s) (snd (normalize scene s)) l.
Proof.
  rewrite (normalize_stages scene s). cbn [fst snd].
  destruct (prepare_spec scene s) as (_ & _ & _ & Hready & _).
  set (clone := fst (prepare scene s)) in *.
  set (s1 := snd (prepare scene s)) in *.
  intros Hl.
  assert (Hr : restyled s1 (modify (id_of clone)
            (fun o => set_position
               (Vector3_sub (position o) (getCenter (fst (computeBox s1 clone)))) o)
            (snd (computeBox s1 clone)))).
  { eapply restyled_trans; [apply measured_restyled, computeBox_measured|].
    apply restyled_modify; reflexivity. }
  exact (surfaceReady_restyled _ _ _ l Hr (Hready l Hl)).
Qed.



(** Normalisation writes no object and no material that existed before
    it ran; the objects of the copy are all new, and so are the materials
    of its surfaces. *)
Lemma normalize_keeps (scene : Node) (s : Store) :
  let clone := fst (fst (normalize scene s)) in
  let s' := snd (normalize scene s) in
  (forall l, (l < nextObject s)%nat -> objects s' l = objects s l)
  /\ (forall m, (m < nextMaterial s)%nat -> materials s' m = materials s m)
  /\ (nextObject s <= nextObject s')%nat
  /\ (nextMaterial s <= nextMaterial s')%nat
  /\ Forall (fun l => (nextObject s <= l < nextObject s')%nat) (ids clone)
  /\ Forall (fun l => isMesh (objects s' l) = true ->
                      Forall (fun m => (nextMaterial s <= m < nextMaterial s')%nat)
                             (attached (material (objects s' l))))
            (ids clone).
Proof.
  pose proof (normalize_surfaceReady scene s) as Hmat.
  rewrite (normalize_stages scene s) in *. cbn [fst snd] in *.
  destruct (prepare_spec scene s) as (Hids & Hnext & Hkeeps & _).
  set (clone := fst (prepare scene s)) in *.
  set (s1 := snd (prepare scene s)) in *.
  pose proof (computeBox_measured s1 clone) as Hmeasured.
  set (s2 := snd (computeBox s1 clone)) in *.
  set (s' := modify (id_of clone) _ s2) in *.
  assert (Hroot : (nextObject s <= id_of clone)%nat).
  { destruct (ids_head clone) as [rest E]. rewrite Hids in E.
    destruct (length (ids scene)); cbn in E; [discriminate|]. injection E as E _. lia. }
  assert (K : keeps (nextObject s) (nextMaterial s) s s').
  { eapply keeps_trans; [exact Hkeeps|].
    apply (keeps_trans _ _ s1 s2); [|now apply keeps_modify].
    apply restyled_keeps; [now apply measured_restyled|].
    intros l _. destruct Hmeasured as (E & _). now rewrite E. }
  destruct K as (K1 & K2 & K3 & K4).
  splits; auto.
  - rewrite Hids. apply Forall_forall. intros l Hl. apply in_seq in Hl.
    change (nextObject s') with (nextObject s2).
    destruct Hmeasured as (_ & E & _). rewrite E. lia.
  - apply Forall_forall. intros l Hl Hmesh. apply Forall_forall. intros m Hm.
    destruct (Hmat l Hl Hmesh) as (_ & _ & H). now destruct (H m Hm).
Qed.

End Normalisation.

(** ** Boxes *)

Section Boxes.
Import THREE StoreRelations ArtifactModel.

Lemma Rmin_idem (a : R) : Rmin a a = a.
Proof. unfold Rmin. destruct (Rle_dec a a); reflexivity. Qed.

Lemma Rmax_idem (a : R) : Rmax a a = a.
Proof. unfold Rmax. destruct (Rle_dec a a); reflexivity. Qed.

Lemma Rmin_associative (a b c : R) : Rmin (Rmin a b) c = Rmin a (Rmin b c).
Proof. unfold Rmin. repeat destruct Rle_dec; lra. Qed.

Lemma Rmax_associative (a b c : R) : Rmax (Rmax a b) c = Rmax a (Rmax b c).
Proof. unfold Rmax. repeat destruct Rle_dec; lra. Qed.

Lemma union_empty_r (b : Box3) : union b emptyBox = b.
Proof. now destruct b. Qed.

Lemma union_assoc (a b c : Box3) : union (union a b) c = union a (union b c).
Proof.
  destruct a as [|amin amax], b as [|bmin bmax], c as [|cmin cmax]; try reflexivity.
  cbn. unfold Vector3_min, Vector3_max. cbn.
  now rewrite !Rmin_associative, !Rmax_associative.
Qed.

Lemma union_idem (a : Box3) : union a a = a.
Proof.
  destruct a as [|[x0 y0 z0] [x1 y1 z1]]; [reflexivity|].
  cbn. unfold Vector3_min, Vector3_max. cbn. now rewrite !Rmin_idem, !Rmax_idem.
Qed.

Lemma fold_union (boxes : list Box3) :
  forall b, fold_left union boxes b = union b (unions boxes).
Proof.
  unfold unions. induction boxes as [|x xs IH]; intros b; cbn [fold_left].
  - now rewrite union_empty_r.
  - rewrite IH, (IH (union emptyBox x)). cbn [union]. now rewrite union_assoc.
Qed.

Lemma unions_cons (b : Box3) (boxes : list Box3) :
  unions (b :: boxes) = union b (unions boxes).
Proof. unfold unions at 1. cbn [fold_left]. now rewrite fold_union. Qed.

Lemma unions_app (xs ys : list Box3) :
  unions (xs ++ ys) = union (unions xs) (unions ys).
Proof.
  unfold unions at 1. rewrite fold_left_app, fold_union. reflexivity.
Qed.

Lemma fold_union_map {A} (f : A -> Box3) (xs : list A) :
  forall b, fold_left (fun b x => union b (f x)) xs b = union b (unions (map f xs)).
Proof.
  induction xs as [|x xs IH]; intros b; cbn [fold_left map].
  - unfold unions. cbn. now rewrite union_empty_r.
  - now rewrite IH, unions_cons, union_assoc.
Qed.

(** Measuring leaves every world box as it was. *)
Lemma worldBox_measured (s s' : Store) (l : loc) :
  measured s s' -> worldBox s' l = worldBox s l.
Proof.
  intros H. pose proof (measured_sameBoxes s s' H) as Hb.
  destruct H as (E & _). unfold worldBox. rewrite E.
  destruct (geometry (objects s l)) as [g|]; [|reflexivity]. now rewrite Hb.
Qed.

Lemma worldBoxes_measured (s s' : Store) (ls : list loc) :
  measured s s' -> map (worldBox s') ls = map (worldBox s) ls.
Proof. intros H. apply map_ext. intros l. now apply worldBox_measured. Qed.

(** [expandByObject] adds the world box of every object of the graph. *)
Lemma expandByObject_fold (t : Node) :
  forall s b, fst (expandByObject s t b) = union b (unions (map (worldBox s) (ids t))).
Proof.
  induction t as [id children IH] using Node_induction. intros s b.
  cbn [expandByObject]. rewrite ids_node. cbn [map]. rewrite unions_cons, <- union_assoc.
  set (head := match geometry (objects s id) with
               | Some g => _
               | None => (b, s)
               end).
  assert (Hhead : fst head = union b (worldBox s id) /\ measured s (snd head)).
  { subst head. unfold worldBox, boxOf.
    destruct (geometry (objects s id)) as [g|].
    2:{ cbn [fst snd]. rewrite union_empty_r. split; [reflexivity | apply measured_refl]. }
    destruct (boundingBox (geometries s g)) as [box|] eqn:N.
    - rewrite N. cbn [fst snd]. split; [reflexivity | apply measured_refl].
    - pose proof (measured_computeBoundingBox g s N) as Hm.
      assert (E : boundingBox (geometries (computeBoundingBox g s) g)
                  = Some (setFromPoints (vertices (geometries s g)))).
      { unfold computeBoundingBox, setGeometry. cbn [geometries]. now rewrite upd_same. }
      rewrite E. cbn [fst snd]. split; [reflexivity | exact Hm]. }
  destruct head as [b1 s1]. cbn [fst snd] in Hhead. destruct Hhead as [-> Hm].
  generalize (union b (worldBox s id)). clear b. revert s1 Hm.
  induction IH as [|c cs Hc _ IHcs]; intros s1 Hm b; cbn [fold_left flat_map map].
  - unfold unions. cbn. now rewrite union_empty_r.
  - specialize (Hc s1 b). pose proof (expandByObject_measured c s1 b) as Hm'.
    destruct (expandByObject s1 c b) as [b2 s2]. cbn [fst snd] in *.
    rewrite (IHcs s2 (measured_trans _ _ _ Hm Hm')), Hc, map_app, unions_app, union_assoc.
    now rewrite (worldBoxes_measured s s1 _ Hm).
Qed.

Lemma surfacesOf_app (s : Store) (xs ys : list loc) :
  surfacesOf s (xs ++ ys) = union (surfacesOf s xs) (surfacesOf s ys).
Proof. unfold surfacesOf. now rewrite filter_app, map_app, unions_app. Qed.

(** With nothing but groups and surfaces, the box of a whole graph is
    the box of its surfaces. *)
Lemma all_boxes_are_surfaces (s : Store) (ls : list loc) :
  Forall (fun l => geometry (objects s l) <> None -> isMesh (objects s l) = true) ls ->
  unions (map (worldBox s) ls) = surfacesOf s ls.
Proof.
  unfold surfacesOf. induction 1 as [|l ls Hl _ IH]; [reflexivity|].
  cbn [map filter]. destruct (isMesh (objects s l)) eqn:E.
  - cbn [map]. now rewrite !unions_cons, IH.
  - rewrite unions_cons, IH.
    assert (Hw : worldBox s l = emptyBox).
    { unfold worldBox. destruct (geometry (objects s l)); [|reflexivity].
      assert (false = true) by (apply Hl; discriminate). discriminate. }
    now rewrite Hw.
Qed.

Lemma validMesh_kinds (s : Store) (ls : list loc) :
  Forall (fun l =>
            match geometry (objects s l) with
            | Some g =>
                isMesh (objects s l) = true
                /\ (boxOf (geometries s g) = emptyBox
                    \/ isEmpty (boxOf (geometries s g)) = false)
            | None => True
            end) ls ->
  Forall (fun l => geometry (objects s l) <> None -> isMesh (objects s l) = true) ls.
Proof.
  apply Forall_impl. intros l H Hg. destruct (geometry (objects s l)); [tauto | congruence].
Qed.

Lemma surfacesOf_measured (s s' : Store) (ls : list loc) :
  measured s s' -> surfacesOf s' ls = surfacesOf s ls.
Proof.
  intros H. unfold surfacesOf. rewrite (worldBoxes_measured s s' _ H).
  destruct H as (E & _). now rewrite E.
Qed.

(** The box that the second traversal accumulates *)
Lemma traverse_expandByMeshes_box (s : Store) (t : Node) :
  Forall (fun l => geometry (objects s l) <> None -> isMesh (objects s l) = true) (ids t) ->
  forall acc h s1, measured s s1 ->
    fst (fst (traverse expandByMeshes t (acc, h, s1))) = union acc (surfacesOf s (ids t)).
Proof.
  induction t as [id children IH] using Node_induction. intros Hv acc h s1 Hm.
  cbn [traverse]. rewrite ids_node in *.
  assert (Hkids : forall a,
    measured s (snd a) ->
    fst (fst (fold_left (fun a child => traverse expandByMeshes child a) children a))
    = union (fst (fst a)) (surfacesOf s (flat_map ids children))).
  { inversion Hv as [|? ? _ Hv']; subst. clear Hv acc h s1 Hm.
    induction IH as [|c cs Hc _ IHcs]; intros [[b h'] s'] Hm.
    - cbn. unfold surfacesOf, unions. cbn. now rewrite union_empty_r.
    - cbn [fold_left flat_map fst snd] in *.
      apply Forall_app in Hv'. destruct Hv' as [Hv1 Hv2].
      rewrite (IHcs Hv2), surfacesOf_app, <- union_assoc.
      + f_equal. exact (Hc Hv1 b h' s' Hm).
      + rewrite traverse_fold. now apply expandByMeshes_measured. }
  unfold expandByMeshes at 2. cbn [id_of].
  change (id :: flat_map ids children) with ([id] ++ flat_map ids children).
  rewrite surfacesOf_app.
  pose proof Hm as (Eo & _). rewrite Eo.
  destruct (isMesh (objects s id)) eqn:E.
  - pose proof (expandByObject_fold (node id children) s1 acc) as Hb.
    pose proof (expandByObject_measured (node id children) s1 acc) as Hm'.
    destruct (expandByObject s1 (node id children) acc) as [b2 s2]. cbn [fst snd] in *.
    rewrite Hkids by (cbn [snd]; now apply (measured_trans s s1 s2)).
    cbn [fst]. rewrite Hb, (worldBoxes_measured s s1 _ Hm).
    rewrite <- ids_node in Hv. rewrite (all_boxes_are_surfaces s _ Hv), ids_node.
    change (id :: flat_map ids children) with ([id] ++ flat_map ids children).
    rewrite surfacesOf_app, !union_assoc. f_equal. f_equal. apply union_idem.
  - rewrite Hkids by exact Hm.
    cbn [fst]. unfold surfacesOf at 2. cbn [filter]. rewrite E. cbn. reflexivity.
Qed.

(** The flag that the second traversal raises *)
Lemma traverse_expandByMeshes_flag (s : Store) (t : Node) :
  forall acc h s1, measured s s1 ->
    snd (fst (traverse expandByMeshes t (acc, h, s1)))
    = h || existsb (fun l => isMesh (objects s l)) (ids t).
Proof.
  intros acc h s1. rewrite traverse_fold. unfold ids. generalize (nodes t) as ns. intros ns.
  revert acc h s1. induction ns as [|n ns IH]; intros acc h s1 Hm; cbn [fold_left map existsb].
  - cbn. now rewrite orb_false_r.
  - unfold expandByMeshes at 2. pose proof Hm as (Eo & _). rewrite Eo.
    destruct (isMesh (objects s (id_of n))).
    + pose proof (expandByObject_measured n s1 acc) as Hm'.
      destruct (expandByObject s1 n acc) as [b2 s2]. cbn [snd] in Hm'.
      rewrite IH by now apply (measured_trans s s1 s2). cbn. now rewrite orb_true_r.
    + rewrite IH by exact Hm. reflexivity.
Qed.

(** With a surface in the graph the box is the box of the surfaces;
    with none it is the box of the whole graph. *)
Lemma computeBox_surfaces (s : Store) (t : Node) :
  Forall (fun l => geometry (objects s l) <> None -> isMesh (objects s l) = true) (ids t) ->
  hasSurface s t ->
  fst (computeBox s t) = surfacesBox s t.
Proof.
  intros Hv Hs. unfold computeBox.
  pose proof (traverse_expandByMeshes_box s t Hv makeEmpty false s (measured_refl s)) as Hb.
  pose proof (traverse_expandByMeshes_flag s t makeEmpty false s (measured_refl s)) as Hf.
  destruct (traverse expandByMeshes t (makeEmpty, false, s)) as [[b h] s1].
  cbn [fst snd] in *. subst b h.
  assert (E : existsb (fun l => isMesh (objects s l)) (ids t) = true).
  { apply existsb_exists. apply Exists_exists in Hs. exact Hs. }
  rewrite E. cbn. reflexivity.
Qed.

(** Without a surface the traversal writes nothing. *)
Lemma traverse_expandByMeshes_idle (s : Store) (t : Node) :
  noSurface s t ->
  traverse expandByMeshes t (makeEmpty, false, s) = (makeEmpty, false, s).
Proof.
  intros Hs. rewrite traverse_fold. unfold noSurface, ids in Hs.
  rewrite Forall_map in Hs. induction Hs as [|n ns Hn _ IH]; [reflexivity|].
  cbn [fold_left]. unfold expandByMeshes at 2. now rewrite Hn.
Qed.

Lemma computeBox_fallback (s : Store) (t : Node) :
  noSurface s t -> computeBox s t = setFromObject s t.
Proof.
  intros Hs. unfold computeBox. now rewrite (traverse_expandByMeshes_idle s t Hs).
Qed.

Lemma setFromObject_unions (s : Store) (t : Node) :
  fst (setFromObject s t) = unions (map (worldBox s) (ids t)).
Proof. unfold setFromObject, makeEmpty. now rewrite expandByObject_fold. Qed.

End Boxes.

(** ** Centring and scaling *)

Section Measuring.
Import THREE StoreRelations ArtifactModel.

(** The copy has the surfaces and the geometry of the source, object by
    object. *)
Lemma prepare_kinds (scene : Node) (s : Store) :
  allocated s scene ->
  map (fun l => kind (objects (snd (prepare scene s)) l)) (ids (fst (prepare scene s)))
  = map (fun l => kind (objects s l)) (ids scene).
Proof.
  intros Ha.
  destruct (prepare_spec scene s) as (_ & _ & _ & _ & _ & _ & _ & _ & _ & Hc & Hk & _).
  rewrite Hc.
  destruct (clone_spec scene s) as (_ & _ & _ & _ & _ & C6).
  specialize (C6 (objects s)).
  rewrite (map_ext _ _ Hk), <- (map_map (objects _) kind), C6, map_map; [reflexivity| |].
  - apply Forall_forall. reflexivity.
  - intros l Hl. exact (proj1 (Forall_forall _ _) Ha l Hl).
Qed.

Lemma Forall_kinds (P : bool * option loc -> Prop) (sA sB : Store)
  (xs ys : list loc) :
  map (fun l => kind (objects sA l)) xs = map (fun l => kind (objects sB l)) ys ->
  Forall (fun l => P (kind (objects sB l))) ys ->
  Forall (fun l => P (kind (objects sA l))) xs.
Proof.
  intros E H. apply (Forall_map (fun l => kind (objects sA l)) P).
  rewrite E. now apply Forall_map.
Qed.

Lemma Exists_kinds (P : bool * option loc -> Prop) (sA sB : Store)
  (xs ys : list loc) :
  map (fun l => kind (objects sA l)) xs = map (fun l => kind (objects sB l)) ys ->
  Exists (fun l => P (kind (objects sB l))) ys ->
  Exists (fun l => P (kind (objects sA l))) xs.
Proof.
  intros E H. apply (Exists_map (fun l => kind (objects sA l)) P).
  rewrite E. now apply Exists_map.
Qed.

Lemma prepare_noSurface (scene : Node) (s : Store) :
  allocated s scene -> noSurface s scene ->
  noSurface (snd (prepare scene s)) (fst (prepare scene s)).
Proof.
  intros Ha Hn. unfold noSurface in *.
  exact (Forall_kinds (fun k => fst k = false) _ _ _ _ (prepare_kinds scene s Ha) Hn).
Qed.

Lemma prepare_hasSurface (scene : Node) (s : Store) :
  allocated s scene -> hasSurface s scene ->
  hasSurface (snd (prepare scene s)) (fst (prepare scene s)).
Proof.
  intros Ha Hn. unfold hasSurface in *.
  exact (Exists_kinds (fun k => fst k = true) _ _ _ _ (prepare_kinds scene s Ha) Hn).
Qed.

Lemma prepare_validMesh (scene : Node) (s : Store) :
  allocated s scene -> validMesh s scene ->
  validMesh (snd (prepare scene s)) (fst (prepare scene s)).
Proof.
  intros Ha Hn. unfold validMesh in *. rewrite prepare_geometries.
  exact (Forall_kinds
           (fun k => match snd k with
                     | Some g => fst k = true
                                 /\ (boxOf (geometries s g) = emptyBox
                                     \/ isEmpty (boxOf (geometries s g)) = false)
                     | None => True
                     end) _ _ _ _ (prepare_kinds scene s Ha) Hn).
Qed.

Lemma Math_max_zero : Math_max 0 0 0 = 0.
Proof. unfold Math_max. now rewrite !Rmax_idem. Qed.

Lemma or_else_zero (b : R) : or_else 0 b = b.
Proof. unfold or_else. destruct (Req_dec_T 0 0); [reflexivity | contradiction]. Qed.

Lemma or_else_nonzero (a b : R) : a <> 0 -> or_else a b = a.
Proof. unfold or_else. intros H. destruct (Req_dec_T a 0); [contradiction | reflexivity]. Qed.

Lemma scaleFactor_no_extent (box : Box3) :
  getSize box = Vector3_set 0 0 0 ->
  or_else (Math_max (vx (getSize box)) (vy (getSize box)) (vz (getSize box))) 1 = 1
  /\ scaleFactor box = 4.
Proof.
  intros E. unfold scaleFactor. rewrite E. cbn [vx vy vz Vector3_set].
  rewrite Math_max_zero, or_else_zero. split; [reflexivity|].
  unfold targetSize. lra.
Qed.

(** C2, as the code has it.  For a scene without renderable surface whose
    fallback box, the box of the whole graph, has no extent in any
    dimension, the divisor is the literal 1 and the published scale factor
    is exactly 4, the target size. *)
Theorem degenerate_scale_is_target_size (scene : Node) (s : Store) :
  allocated s scene ->
  noSurface s scene ->
  getSize (fst (setFromObject (snd (prepare scene s)) (fst (prepare scene s))))
  = Vector3_set 0 0 0 ->
  let size := getSize (fst (computeBox (snd (prepare scene s)) (fst (prepare scene s)))) in
  or_else (Math_max (vx size) (vy size) (vz size)) 1 = 1
  /\ snd (fst (normalize scene s)) = 4.
Proof.
  intros Ha Hn Hsize size.
  assert (E : computeBox (snd (prepare scene s)) (fst (prepare scene s))
              = setFromObject (snd (prepare scene s)) (fst (prepare scene s)))
    by (apply computeBox_fallback, prepare_noSurface; assumption).
  subst size. rewrite (normalize_stages scene s). cbn [fst snd].
  rewrite E. now apply scaleFactor_no_extent.
Qed.

Lemma degenerate_scale_is_target_size_witness :
  snd (fst (normalize Samples.emptyScene Samples.store)) = 4.
Proof.
  apply (degenerate_scale_is_target_size Samples.emptyScene Samples.store).
  - repeat constructor.
  - repeat constructor.
  - reflexivity.
Defined.

(** C2, as the claim has it, fails: a scene that is a single empty group
    has no renderable surface, its fallback box is empty and has no extent,
    and the scale factor published for it is 4, not 1. *)
Lemma degenerate_scale_counterexample :
  noSurface Samples.store Samples.emptyScene
  /\ getSize (fst (setFromObject (snd (prepare Samples.emptyScene Samples.store))
                                 (fst (prepare Samples.emptyScene Samples.store))))
     = Vector3_set 0 0 0
  /\ snd (fst (normalize Samples.emptyScene Samples.store)) = 4
  /\ snd (fst (normalize Samples.emptyScene Samples.store)) <> 1.
Proof.
  assert (H : snd (fst (normalize Samples.emptyScene Samples.store)) = 4).
  { change (scaleFactor emptyBox = 4). now apply scaleFactor_no_extent. }
  splits.
  - repeat constructor.
  - reflexivity.
  - exact H.
  - rewrite H. lra.
Qed.

End Measuring.

(** ** Moving the root moves the box *)

Section Translation.
Import THREE StoreRelations ArtifactModel.

Lemma compose_affine (p : Vector3) (q : Quaternion) (sc : Vector3) : affine (compose p q sc).
Proof. unfold affine, compose. cbn. auto. Qed.

Lemma multiplyMatrices_affine (a b : Matrix4) :
  affine a -> affine b -> affine (multiplyMatrices a b).
Proof.
  intros (A1 & A2 & A3 & A4) (B1 & B2 & B3 & B4). unfold affine, multiplyMatrices. cbn.
  rewrite A1, A2, A3, A4, B1, B2, B3, B4. splits; ring.
Qed.

(** Two matrices with the same entries are the same matrix. *)
Lemma Matrix4_ext (a11 a12 a13 a14 a21 a22 a23 a24 a31 a32 a33 a34 a41 a42 a43 a44
                   b11 b12 b13 b14 b21 b22 b23 b24 b31 b32 b33 b34 b41 b42 b43 b44 : R) :
  a11 = b11 -> a12 = b12 -> a13 = b13 -> a14 = b14 ->
  a21 = b21 -> a22 = b22 -> a23 = b23 -> a24 = b24 ->
  a31 = b31 -> a32 = b32 -> a33 = b33 -> a34 = b34 ->
  a41 = b41 -> a42 = b42 -> a43 = b43 -> a44 = b44 ->
  mkMatrix4 a11 a12 a13 a14 a21 a22 a23 a24 a31 a32 a33 a34 a41 a42 a43 a44
  = mkMatrix4 b11 b12 b13 b14 b21 b22 b23 b24 b31 b32 b33 b34 b41 b42 b43 b44.
Proof. intros. subst. reflexivity. Qed.















End Translation.

Section Recentring.
Import THREE StoreRelations ArtifactModel.

Lemma kind_of_look (sA sB : Store) (l : loc) :
  look (objects sB l) = look (objects sA l) -> kind (objects sB l) = kind (objects sA l).
Proof. unfold look, kind. intros H. injection H as H1 H2 _ _ _. congruence. Qed.

Lemma pose_set_matrices (l l' : loc) (m mw : Matrix4) (s : Store) :
  pose (objects (modify l (set_matrices m mw) s) l') = pose (objects s l').
Proof.
  rewrite objects_modify. now destruct (Nat.eqb_spec l' l); [subst|].
Qed.




(** The children of the root of a copy stand at other addresses than
    the root. *)
Lemma children_differ_from_root (clone : Node) (n k : nat) :
  ids clone = seq n k ->
  Forall (fun l => l <> id_of clone) (flat_map ids (children_of clone)).
Proof.
  destruct clone as [root children]. cbn [id_of children_of].
  rewrite ids_node. destruct k; [discriminate|].
  cbn [seq]. intros H. injection H as -> Hk. rewrite Hk.
  apply Forall_forall. intros l Hl. apply in_seq in Hl. lia.
Qed.


End Recentring.

Section Centring.
Import THREE StoreRelations ArtifactModel.


(** Moving an object leaves the stored world boxes where they were. *)
Lemma surfacesOf_set_position (s : Store) (l : loc) (f : Object3D -> Vector3) (ls : list loc) :
  surfacesOf (modify l (fun o => set_position (f o) o) s) ls = surfacesOf s ls.
Proof.
  unfold surfacesOf.
  assert (Hm : forall l', isMesh (objects (modify l (fun o => set_position (f o) o) s) l')
                          = isMesh (objects s l')).
  { intros l'. rewrite objects_modify. now destruct (Nat.eqb_spec l' l); [subst|]. }
  assert (Hw : forall l', worldBox (modify l (fun o => set_position (f o) o) s) l'
                          = worldBox s l').
  { intros l'. unfold worldBox. rewrite objects_modify.
    now destruct (Nat.eqb_spec l' l); [subst|]. }
  rewrite (filter_ext _ _ Hm). f_equal. apply map_ext, Hw.
Qed.



End Centring.

(** ** The scale factor over binary64 *)

Section Binary64.
Import Double.
Local Open Scope Z_scope.

Lemma digits2_pos_bounds (p : positive) :
  2 ^ (Zpos (digits2_pos p) - 1) <= Zpos p < 2 ^ Zpos (digits2_pos p).
Proof.
  induction p as [p IH | p IH |]; cbn [digits2_pos].
  - rewrite Pos2Z.inj_succ.
    replace (Z.succ (Zpos (digits2_pos p)) - 1) with (Zpos (digits2_pos p) - 1 + 1) by lia.
    rewrite Z.pow_succ_r by lia. rewrite Z.pow_add_r by lia. lia.
  - rewrite Pos2Z.inj_succ.
    replace (Z.succ (Zpos (digits2_pos p)) - 1) with (Zpos (digits2_pos p) - 1 + 1) by lia.
    rewrite Z.pow_succ_r by lia. rewrite Z.pow_add_r by lia. lia.
  - cbn. lia.
Qed.

Lemma Zdigits2_bounds (m : Z) :
  0 < m -> 2 ^ (Zdigits2 m - 1) <= m < 2 ^ Zdigits2 m.
Proof. destruct m as [|p|p]; try lia. intros _. apply digits2_pos_bounds. Qed.

Lemma Zdigits2_pos (m : Z) : 0 < m -> 0 < Zdigits2 m.
Proof. destruct m; cbn; lia. Qed.

(** A number that is at least [2 ^ k] has more than [k] binary digits. *)
Lemma Zdigits2_lower (m k : Z) : 0 <= k -> 2 ^ k <= m -> k < Zdigits2 m.
Proof.
  intros Hk Hm. assert (0 < m) by (pose proof (Z.pow_pos_nonneg 2 k); lia).
  destruct (Zdigits2_bounds m) as [_ Hu]; [lia|].
  pose proof (Zdigits2_pos m).
  apply (Z.pow_lt_mono_r_iff 2); lia.
Qed.

Lemma shr_1_div2 (r : shr_record) : 0 <= shr_m r -> shr_m (shr_1 r) = shr_m r / 2.
Proof.
  destruct r as [m r s]. cbn [shr_m]. intros Hm.
  destruct m as [|[p|p|]|p]; cbn [shr_1 shr_m]; try lia; try reflexivity.
  - apply (Z.div_unique _ _ _ 1); lia.
  - apply (Z.div_unique _ _ _ 0); lia.
Qed.

Lemma iter_shr_1 (p : positive) :
  forall r, 0 <= shr_m r -> shr_m (iter_pos shr_1 p r) = shr_m r / 2 ^ Zpos p.
Proof.
  induction p as [p IH | p IH |]; intros r Hr; cbn [iter_pos].
  - assert (Hp : 0 < 2 ^ Zpos p) by (apply Z.pow_pos_nonneg; lia).
    assert (E : 2 ^ Zpos p~1 = 2 * (2 ^ Zpos p * 2 ^ Zpos p)).
    { rewrite (Pos2Z.inj_xI p).
      replace (2 * Zpos p + 1) with (1 + (Zpos p + Zpos p)) by lia.
      rewrite !Z.pow_add_r by lia. reflexivity. }
    assert (H1 : 0 <= shr_m (shr_1 r)) by (rewrite shr_1_div2 by lia; apply Z.div_pos; lia).
    assert (H2 : 0 <= shr_m (iter_pos shr_1 p (shr_1 r)))
      by (rewrite IH by lia; apply Z.div_pos; lia).
    rewrite E, IH, IH, shr_1_div2 by lia.
    rewrite !Z.div_div by lia. reflexivity.
  - assert (Hp : 0 < 2 ^ Zpos p) by (apply Z.pow_pos_nonneg; lia).
    assert (E : 2 ^ Zpos p~0 = 2 ^ Zpos p * 2 ^ Zpos p).
    { rewrite (Pos2Z.inj_xO p).
      replace (2 * Zpos p) with (Zpos p + Zpos p) by lia.
      rewrite !Z.pow_add_r by lia. reflexivity. }
    assert (H2 : 0 <= shr_m (iter_pos shr_1 p r))
      by (rewrite IH by lia; apply Z.div_pos; lia).
    rewrite E, IH, IH by lia.
    rewrite !Z.div_div by lia. reflexivity.
  - now apply shr_1_div2.
Qed.

Lemma shr_m_of_loc (m : Z) (l : location) : shr_m (shr_record_of_loc m l) = m.
Proof. destruct l as [|[| |]]; reflexivity. Qed.

(** Rounding to the format keeps a positive mantissa positive, as long
    as the number is not below the smallest one of the format. *)
Lemma shr_fexp_positive (m e : Z) (l : location) :
  0 < m ->
  emin prec emax < Zdigits2 m + e ->
  0 < shr_m (fst (shr_fexp prec emax m e l))
  /\ Zdigits2 m + e
     <= Zdigits2 (shr_m (fst (shr_fexp prec emax m e l))) + snd (shr_fexp prec emax m e l).
Proof.
  intros Hm He. unfold shr_fexp, shr.
  set (d := Zdigits2 m) in *.
  destruct (Zdigits2_bounds m Hm) as [Hl Hu]. fold d in Hl, Hu.
  pose proof (Zdigits2_pos m Hm) as Hd. fold d in Hd.
  destruct (fexp prec emax (d + e) - e) as [|n|n] eqn:En; cbn [fst snd].
  - rewrite shr_m_of_loc. fold d. lia.
  - rewrite iter_shr_1 by (rewrite shr_m_of_loc; lia). rewrite shr_m_of_loc.
    assert (Hn : Zpos n <= d - 1).
    { unfold fexp, emin, prec, emax in *. lia. }
    assert (Hp : 0 < 2 ^ Zpos n) by (apply Z.pow_pos_nonneg; lia).
    assert (Hq : 2 ^ (d - 1 - Zpos n) <= m / 2 ^ Zpos n).
    { apply Z.div_le_lower_bound; [lia|].
      rewrite <- Z.pow_add_r by lia. replace (Zpos n + (d - 1 - Zpos n)) with (d - 1) by lia.
      exact Hl. }
    assert (0 < 2 ^ (d - 1 - Zpos n)) by (apply Z.pow_pos_nonneg; lia).
    split; [lia|].
    pose proof (Zdigits2_lower (m / 2 ^ Zpos n) (d - 1 - Zpos n)). lia.
  - rewrite shr_m_of_loc. fold d. lia.
Qed.

Lemma round_nearest_even_ge (m : Z) (l : location) : m <= round_nearest_even m l.
Proof.
  destruct l as [|[| |]]; cbn [round_nearest_even]; try lia.
  destruct (Z.even m); lia.
Qed.

Lemma Zdigits2_mono (a b : Z) : 0 < a -> a <= b -> Zdigits2 a <= Zdigits2 b.
Proof.
  intros Ha Hab. destruct (Zdigits2_bounds a Ha) as [Hl _].
  pose proof (Zdigits2_pos a Ha).
  pose proof (Zdigits2_lower b (Zdigits2 a - 1)). lia.
Qed.

(** The result of a rounding of a positive quantity is a positive
    number or plus infinity. *)
Lemma binary_round_aux_positive (m e : Z) (l : location) :
  0 < m ->
  emin prec emax < Zdigits2 m + e ->
  SFltb zero (binary_round_aux prec emax false m e l) = true.
Proof.
  intros Hm He. unfold binary_round_aux.
  destruct (shr_fexp_positive m e l Hm He) as [H1 H2].
  destruct (shr_fexp prec emax m e l) as [r1 e1]. cbn [fst snd] in *.
  pose proof (round_nearest_even_ge (shr_m r1) (loc_of_shr_record r1)) as Hr.
  set (m1 := round_nearest_even (shr_m r1) (loc_of_shr_record r1)) in *.
  assert (Hm1 : 0 < m1) by lia.
  assert (He1 : emin prec emax < Zdigits2 m1 + e1).
  { pose proof (Zdigits2_mono (shr_m r1) m1 H1 Hr). lia. }
  destruct (shr_fexp_positive m1 e1 loc_Exact Hm1 He1) as [H3 _].
  destruct (shr_fexp prec emax m1 e1 loc_Exact) as [r2 e2]. cbn [fst snd] in *.
  destruct (shr_m r2) as [|p|p]; try lia.
  destruct (e2 <=? emax - prec); reflexivity.
Qed.

Lemma Zdigits2_upper (m k : Z) : 0 <= k -> 0 <= m < 2 ^ k -> Zdigits2 m <= k.
Proof.
  intros Hk [H0 Hm]. destruct (Z.eq_dec m 0) as [->|Hne]; [cbn; lia|].
  destruct (Zdigits2_bounds m) as [Hl _]; [lia|].
  pose proof (Zdigits2_pos m).
  assert (Zdigits2 m - 1 < k) by (apply (Z.pow_lt_mono_r_iff 2); lia). lia.
Qed.

(** The exponent that a rounding step leaves *)
Lemma shr_fexp_exponent (m e : Z) (l : location) :
  snd (shr_fexp prec emax m e l) = Z.max e (fexp prec emax (Zdigits2 m + e)).
Proof.
  unfold shr_fexp, shr.
  destruct (fexp prec emax (Zdigits2 m + e) - e) as [|n|n] eqn:En; cbn [snd]; lia.
Qed.

(** The mantissa that a rounding step leaves fits the precision. *)
Lemma shr_fexp_digits (m e : Z) (l : location) :
  0 < m -> shr_m (fst (shr_fexp prec emax m e l)) < 2 ^ prec.
Proof.
  intros Hm. unfold shr_fexp, shr.
  set (d := Zdigits2 m) in *.
  destruct (Zdigits2_bounds m Hm) as [Hl Hu]. fold d in Hl, Hu.
  pose proof (Zdigits2_pos m Hm) as Hd. fold d in Hd.
  assert (Hmono : forall a b, 0 <= a <= b -> 2 ^ a <= 2 ^ b)
    by (intros a b Hab; apply Z.pow_le_mono_r; lia).
  destruct (fexp prec emax (d + e) - e) as [|n|n] eqn:En; cbn [fst].
  - rewrite shr_m_of_loc.
    assert (d <= prec) by (unfold fexp, emin, prec, emax in *; lia).
    pose proof (Hmono d prec). unfold prec in *. lia.
  - rewrite iter_shr_1 by (rewrite shr_m_of_loc; lia). rewrite shr_m_of_loc.
    assert (Hp : 0 < 2 ^ Zpos n) by (apply Z.pow_pos_nonneg; lia).
    assert (Hn : d - prec <= Zpos n) by (unfold fexp, emin, prec, emax in *; lia).
    apply Z.div_lt_upper_bound; [lia|].
    rewrite <- Z.pow_add_r by (unfold prec; lia).
    pose proof (Hmono d (Zpos n + prec)). unfold prec in *. lia.
  - rewrite shr_m_of_loc.
    assert (d <= prec) by (unfold fexp, emin, prec, emax in *; lia).
    pose proof (Hmono d prec). unfold prec in *. lia.
Qed.

Lemma round_nearest_even_le (m : Z) (l : location) : round_nearest_even m l <= m + 1.
Proof.
  destruct l as [|[| |]]; cbn [round_nearest_even]; try lia.
  destruct (Z.even m); lia.
Qed.

(** A positive quantity of at most 54 digits whose exponent is at most
    [emax - prec - 2] rounds to a finite number. *)
Lemma binary_round_aux_finite (m e : Z) (l : location) :
  0 < m ->
  emin prec emax < Zdigits2 m + e ->
  Zdigits2 m <= prec + 1 ->
  e + 2 <= emax - prec ->
  isFinite (binary_round_aux prec emax false m e l) = true.
Proof.
  intros Hm He Hd Hexp. unfold binary_round_aux.
  destruct (shr_fexp_positive m e l Hm He) as [H1 H2].
  pose proof (shr_fexp_exponent m e l) as X1.
  pose proof (shr_fexp_digits m e l Hm) as D1.
  destruct (shr_fexp prec emax m e l) as [r1 e1]. cbn [fst snd] in *.
  pose proof (round_nearest_even_ge (shr_m r1) (loc_of_shr_record r1)) as Hr.
  pose proof (round_nearest_even_le (shr_m r1) (loc_of_shr_record r1)) as Hr'.
  set (m1 := round_nearest_even (shr_m r1) (loc_of_shr_record r1)) in *.
  assert (Hm1 : 0 < m1) by lia.
  assert (He1 : emin prec emax < Zdigits2 m1 + e1).
  { pose proof (Zdigits2_mono (shr_m r1) m1 H1 Hr). lia. }
  assert (Hd1 : Zdigits2 m1 <= prec + 1).
  { apply Zdigits2_upper; [unfold prec; lia|]. split; [lia|].
    change (2 ^ (prec + 1)) with (2 * 2 ^ prec). lia. }
  destruct (shr_fexp_positive m1 e1 loc_Exact Hm1 He1) as [H3 _].
  pose proof (shr_fexp_exponent m1 e1 loc_Exact) as X2.
  destruct (shr_fexp prec emax m1 e1 loc_Exact) as [r2 e2]. cbn [fst snd] in *.
  destruct (shr_m r2) as [|p|p]; try lia.
  assert (Hle : e2 <= emax - prec) by (unfold fexp, emin, prec, emax in *; lia).
  apply Z.leb_le in Hle. rewrite Hle. reflexivity.
Qed.

(** The quotient that the division of [4.0] by a positive number
    starts from *)
Lemma div_core_positive (my : positive) (ey : Z) :
  bounded prec emax my ey = true ->
  let core := SFdiv_core_binary prec emax 4503599627370496 (-50) (Zpos my) ey in
  0 < fst (fst core)
  /\ emin prec emax < Zdigits2 (fst (fst core)) + snd (fst core)
  /\ Zdigits2 (fst (fst core)) <= prec + 1
  /\ snd (fst core) = -50 - Zpos (digits2_pos my) - ey.
Proof.
  unfold bounded, canonical_mantissa. intros Hb.
  apply andb_prop in Hb. destruct Hb as [Hc He].
  apply Z.eqb_eq in Hc. apply Z.leb_le in He.
  cbv zeta. unfold SFdiv_core_binary.
  change (Zdigits2 4503599627370496) with 53.
  change (Zdigits2 (Zpos my)) with (Zpos (digits2_pos my)).
  destruct (digits2_pos_bounds my) as [Hl Hu].
  set (d2 := digits2_pos my) in *.
  assert (Hd : Zpos d2 <= 53) by (unfold fexp, emin, prec, emax in *; lia).
  assert (He' : Z.min (fexp prec emax (53 + -50 - (Zpos d2 + ey))) (-50 - ey)
                = -50 - Zpos d2 - ey)
    by (unfold fexp, emin, prec, emax in *; lia).
  rewrite He'.
  replace (-50 - ey - (-50 - Zpos d2 - ey)) with (Zpos d2) by lia.
  rewrite Z.shiftl_mul_pow2 by lia.
  pose proof (Z_div_mod (4503599627370496 * 2 ^ Zpos d2) (Zpos my) eq_refl) as Hdiv.
  destruct (Z.div_eucl (4503599627370496 * 2 ^ Zpos d2) (Zpos my)) as [q r].
  cbn [fst snd]. destruct Hdiv as [Hq Hr].
  assert (Hpow : 2 ^ Zpos d2 = 2 * 2 ^ (Zpos d2 - 1)).
  { rewrite <- Z.pow_succ_r by lia. f_equal. lia. }
  assert (Hpos : 0 < 2 ^ (Zpos d2 - 1)) by (apply Z.pow_pos_nonneg; lia).
  assert (Hq52 : 2 ^ 52 <= q) by (change (2 ^ 52) with 4503599627370496; nia).
  assert (Hq53 : q <= 2 ^ 53) by (change (2 ^ 53) with 9007199254740992; nia).
  assert (0 < 2 ^ 52) by (apply Z.pow_pos_nonneg; lia).
  splits; try lia.
  - pose proof (Zdigits2_lower q 52). unfold emin, prec, emax in *. lia.
  - apply Zdigits2_upper; [unfold prec; lia|].
    change (2 ^ (prec + 1)) with (2 * 2 ^ 53). lia.
Qed.

(** A representable number that is at least [tiny] is normal: its
    mantissa has all its digits. *)
Lemma at_least_tiny (m : positive) (e : Z) :
  bounded prec emax m e = true ->
  SFleb tiny (S754_finite false m e) = true ->
  -1019 <= Zpos (digits2_pos m) + e.
Proof.
  unfold bounded, canonical_mantissa. intros Hb Hle.
  apply andb_prop in Hb. destruct Hb as [Hc He]. apply Z.eqb_eq in Hc.
  assert (Hexp : -1072 <= e).
  { unfold SFleb, tiny, SFcompare in Hle.
    destruct (Z.compare_spec (-1072) e); try lia; discriminate. }
  unfold fexp, emin, prec, emax in *. lia.
Qed.

(** C10, as the code has it.  For every finite, non-negative number
    [maxDim] the divisor [maxDim || 1] is neither zero nor NaN, so that no
    division by zero takes place, and the scale factor is strictly
    positive.  It is the target size itself when [maxDim] is zero, and it
    is finite when [maxDim] is at least 2^-1020. *)
Theorem scale_factor_is_positive (maxDim : number) :
  representable maxDim ->
  isFinite maxDim = true ->
  nonnegative maxDim ->
  truthy (or_else maxDim one) = true
  /\ strictlyPositive (scaleFactor maxDim)
  /\ (truthy maxDim = false -> scaleFactor maxDim = four)
  /\ (SFleb tiny maxDim = true -> isFinite (scaleFactor maxDim) = true).
Proof.
  unfold representable, nonnegative, strictlyPositive, scaleFactor, or_else.
  intros Hv Hf Hn.
  destruct maxDim as [s | s | | s m e]; try discriminate.
  - cbn [truthy]. splits; intros; reflexivity.
  - destruct s; [discriminate|]. cbn [truthy].
    cbn [valid_binary] in Hv.
    destruct (div_core_positive m e Hv) as (Hq & He & Hd & Hexp).
    unfold div, targetSize, four, SFdiv.
    destruct (SFdiv_core_binary prec emax 4503599627370496 (-50) (Zpos m) e)
      as [[mz ez] lz].
    cbn [fst snd xorb] in *.
    splits; [reflexivity | | discriminate |].
    + now apply binary_round_aux_positive.
    + intros Hle. pose proof (at_least_tiny m e Hv Hle).
      apply binary_round_aux_finite; auto. unfold prec, emax. lia.
Qed.

Lemma scale_factor_is_positive_witness : strictlyPositive (scaleFactor six).
Proof.
  refine (proj1 (proj2 (scale_factor_is_positive six _ _ _))); reflexivity.
Defined.

(** C10, as the claim has it, fails: the smallest positive number is
    finite and non-negative, and dividing 4 by it overflows to infinity. *)
Lemma scale_factor_overflow_counterexample :
  representable MIN_VALUE
  /\ isFinite MIN_VALUE = true
  /\ nonnegative MIN_VALUE
  /\ scaleFactor MIN_VALUE = S754_infinity false
  /\ isFinite (scaleFactor MIN_VALUE) = false.
Proof. splits; reflexivity. Qed.

End Binary64.

(** ** Rounding in binary64 *)

(** *** Powers of two *)

Section Powers.
Import Double.

Lemma bpow_pos (e : Z) : 0 < bpow e.
Proof. apply powerRZ_lt. lra. Qed.

Lemma bpow_add (a b : Z) : bpow (a + b) = bpow a * bpow b.
Proof. apply powerRZ_add. lra. Qed.

Lemma bpow_IZR (k : Z) : (0 <= k)%Z -> IZR (2 ^ k) = bpow k.
Proof.
  intros Hk. destruct k as [|p|p]; [reflexivity| |lia].
  exact (Zpower_pos_powerRZ 2 p).
Qed.

Lemma bpow_ge_1 (k : Z) : (0 <= k)%Z -> 1 <= bpow k.
Proof.
  intros Hk. rewrite <- (bpow_IZR k Hk). apply IZR_le.
  assert (0 < 2 ^ k)%Z by (apply Z.pow_pos_nonneg; lia). lia.
Qed.

Lemma bpow_le (a b : Z) : (a <= b)%Z -> bpow a <= bpow b.
Proof.
  intros H. replace b with (a + (b - a))%Z by lia. rewrite bpow_add.
  pose proof (bpow_pos a).
  assert (1 <= bpow (b - a)) by (apply bpow_ge_1; lia). nra.
Qed.

Lemma bpow_lt_inv (a b : Z) : bpow a < bpow b -> (a < b)%Z.
Proof.
  intros H. destruct (Z_lt_le_dec a b) as [Hlt | Hle]; [exact Hlt|].
  pose proof (bpow_le b a Hle). lra.
Qed.

Lemma bpow_0 : bpow 0 = 1.
Proof. reflexivity. Qed.

Lemma bpow_1 : bpow 1 = 2.
Proof. unfold bpow. cbn. change (Pos.to_nat 1) with 1%nat. cbn. lra. Qed.

Lemma bpow_m1 : bpow (-1) = / 2.
Proof. unfold bpow. cbn. change (Pos.to_nat 1) with 1%nat. cbn. now rewrite Rmult_1_r. Qed.

Lemma bpow_lt (a b : Z) : (a < b)%Z -> bpow a < bpow b.
Proof.
  intros H. replace b with (a + (b - a))%Z by lia. rewrite bpow_add.
  pose proof (bpow_pos a).
  assert (bpow 1 <= bpow (b - a)) by (apply bpow_le; lia).
  rewrite bpow_1 in *. nra.
Qed.

End Powers.

(** *** What a rounding returns *)

Section RoundingCore.
Import Double.
Local Open Scope Z_scope.

Lemma shr_fexp_floor (m e : Z) (l : location) :
  0 <= m ->
  snd (shr_fexp prec emax m e l) = Z.max e (fexp prec emax (Zdigits2 m + e))
  /\ shr_m (fst (shr_fexp prec emax m e l))
     = m / 2 ^ (snd (shr_fexp prec emax m e l) - e).
Proof.
  intros Hm. unfold shr_fexp, shr.
  destruct (fexp prec emax (Zdigits2 m + e) - e) as [|n|n] eqn:En; cbn [fst snd].
  - rewrite shr_m_of_loc. replace (e - e) with 0 by lia.
    change (2 ^ 0) with 1. rewrite Z.div_1_r. split; lia.
  - rewrite iter_shr_1 by (rewrite shr_m_of_loc; lia). rewrite shr_m_of_loc.
    replace (e + Zpos n - e) with (Zpos n) by lia. split; [lia | reflexivity].
  - rewrite shr_m_of_loc. replace (e - e) with 0 by lia.
    change (2 ^ 0) with 1. rewrite Z.div_1_r. split; lia.
Qed.

Lemma shr_fexp_noshift (m e : Z) :
  fexp prec emax (Zdigits2 m + e) <= e ->
  shr_fexp prec emax m e loc_Exact = (Build_shr_record m false false, e).
Proof.
  intros H. unfold shr_fexp, shr.
  destruct (fexp prec emax (Zdigits2 m + e) - e) as [|n|n] eqn:En; try reflexivity. lia.
Qed.

(** A mantissa of at most [prec] digits, or the power [2 ^ prec], is
    brought to the format without loss. *)
Lemma renormalise (m1 e1 : Z) :
  0 <= m1 <= 2 ^ prec -> emin prec emax <= e1 ->
  0 <= shr_m (fst (shr_fexp prec emax m1 e1 loc_Exact))
  /\ e1 <= snd (shr_fexp prec emax m1 e1 loc_Exact)
  /\ shr_m (fst (shr_fexp prec emax m1 e1 loc_Exact))
     * 2 ^ (snd (shr_fexp prec emax m1 e1 loc_Exact) - e1) = m1.
Proof.
  intros [H0 Hm] He.
  destruct (Z.eq_dec m1 (2 ^ prec)) as [-> | Hne].
  - assert (E : shr_fexp prec emax (2 ^ prec) e1 loc_Exact
                = (Build_shr_record (2 ^ (prec - 1)) false false, e1 + 1)).
    { unfold shr_fexp, shr. change (Zdigits2 (2 ^ prec)) with 54.
      replace (fexp prec emax (54 + e1) - e1) with 1
        by (unfold fexp, emin, prec, emax in *; lia).
      reflexivity. }
    rewrite E. cbn [fst snd shr_m]. replace (e1 + 1 - e1) with 1 by lia.
    split; [unfold prec; cbn; lia|]. split; [lia|]. reflexivity.
  - assert (Hd : Zdigits2 m1 <= prec).
    { apply Zdigits2_upper; [unfold prec; lia | lia]. }
    rewrite shr_fexp_noshift by (unfold fexp, emin, prec, emax in *; lia).
    cbn [fst snd shr_m]. replace (e1 - e1) with 0 by lia. change (2 ^ 0) with 1. lia.
Qed.

(** What the rounding of a positive quantity returns: the mantissa
    [m1] it rounds to at the exponent [e1] of the format, brought to the
    form [m2], [e2] of a number. *)
Lemma binary_round_aux_shape (s : bool) (m e : Z) :
  0 < m ->
  exists m1 e1 m2 e2,
    e1 = Z.max e (fexp prec emax (Zdigits2 m + e))
    /\ m / 2 ^ (e1 - e) <= m1 <= m / 2 ^ (e1 - e) + 1
    /\ (e1 = e -> m1 = m)
    /\ 0 <= m2 /\ e1 <= e2 /\ m2 * 2 ^ (e2 - e1) = m1
    /\ binary_round_aux prec emax s m e loc_Exact
       = match m2 with
         | Z0 => S754_zero s
         | Zpos p => if e2 <=? emax - prec then S754_finite s p e2 else S754_infinity s
         | Zneg _ => S754_nan
         end.
Proof.
  intros Hm. unfold binary_round_aux.
  destruct (shr_fexp_floor m e loc_Exact) as [X1 F1]; [lia|].
  pose proof (shr_fexp_digits m e loc_Exact Hm) as D1.
  assert (Hexact : snd (shr_fexp prec emax m e loc_Exact) = e ->
                   round_nearest_even (shr_m (fst (shr_fexp prec emax m e loc_Exact)))
                     (loc_of_shr_record (fst (shr_fexp prec emax m e loc_Exact))) = m).
  { intros E. rewrite shr_fexp_noshift by lia. reflexivity. }
  destruct (shr_fexp prec emax m e loc_Exact) as [r1 e1]. cbn [fst snd] in *.
  pose proof (round_nearest_even_ge (shr_m r1) (loc_of_shr_record r1)) as Hge.
  pose proof (round_nearest_even_le (shr_m r1) (loc_of_shr_record r1)) as Hle.
  set (m1 := round_nearest_even (shr_m r1) (loc_of_shr_record r1)) in *.
  assert (Hq : 0 <= m / 2 ^ (e1 - e)).
  { apply Z.div_pos; [lia|]. apply Z.pow_pos_nonneg; lia. }
  assert (He1 : emin prec emax <= e1) by (unfold fexp in X1; lia).
  destruct (renormalise m1 e1) as (R0 & R1 & R2); [lia | exact He1 |].
  destruct (shr_fexp prec emax m1 e1 loc_Exact) as [r2 e2]. cbn [fst snd] in *.
  exists m1, e1, (shr_m r2), e2. splits; try lia; auto.
Qed.

End RoundingCore.

(** *** The error of a rounding *)

Section RoundingError.
Import Double.

Lemma toR_finite (s : bool) (p : positive) (e : Z) :
  toR (S754_finite s p e) = (if s then -1 else 1) * (IZR (Zpos p) * bpow e).
Proof. cbn [toR]. destruct s; ring. Qed.

Lemma round_aux_spec (s : bool) (m e : Z) :
  (0 < m)%Z ->
  IZR m * bpow e <= bpow 970 ->
  rounds ((if s then -1 else 1) * (IZR m * bpow e))
         (binary_round_aux prec emax s m e loc_Exact).
Proof.
  intros Hm Hx.
  destruct (binary_round_aux_shape s m e Hm)
    as (m1 & e1 & m2 & e2 & He1 & Hq & Hex & Hm2 & He2 & Hn & ->).
  set (x := IZR m * bpow e) in *.
  set (n := (e1 - e)%Z) in *.
  assert (Hn0 : (0 <= n)%Z) by (subst n; lia).
  assert (HP : (0 < 2 ^ n)%Z) by (apply Z.pow_pos_nonneg; lia).
  assert (Hdiv : (m - 2 ^ n < 2 ^ n * (m / 2 ^ n) <= m)%Z).
  { pose proof (Z.div_mod m (2 ^ n) ltac:(lia)).
    pose proof (Z.mod_pos_bound m (2 ^ n) HP). lia. }
  assert (Hx0 : 0 < x).
  { subst x. apply Rmult_lt_0_compat; [now apply IZR_lt | apply bpow_pos]. }
  set (V := IZR m1 * bpow e1).
  assert (EV : V = IZR (m1 * 2 ^ n) * bpow e).
  { subst V. replace e1 with (n + e)%Z by (subst n; lia).
    rewrite bpow_add, mult_IZR, (bpow_IZR n Hn0). ring. }
  assert (Hm1 : (0 <= m1)%Z).
  { assert (0 <= m / 2 ^ n)%Z by (apply Z.div_pos; lia). lia. }
  assert (HV0 : 0 <= V).
  { subst V. apply Rmult_le_pos; [now apply IZR_le | left; apply bpow_pos]. }
  assert (Herr : Rabs (V - x) <= EPSILON * x + eta).
  { destruct (Z.eq_dec n 0) as [E0 | Hne].
    - assert (Em : m1 = m) by (apply Hex; subst n; lia).
      assert (Vx : V = x)
        by (rewrite EV, E0, Em; change (2 ^ 0)%Z with 1%Z; now rewrite Z.mul_1_r).
      rewrite Vx. replace (x - x) with 0 by ring. rewrite Rabs_R0.
      pose proof (bpow_pos (-52)). pose proof (bpow_pos (-1074)).
      unfold EPSILON, eta. nra.
    - assert (Hb : Rabs (V - x) <= bpow e1).
      { rewrite EV. subst x. rewrite <- Rmult_minus_distr_r, <- minus_IZR.
        rewrite Rabs_mult, (Rabs_pos_eq (bpow e)) by (left; apply bpow_pos).
        replace (bpow e1) with (IZR (2 ^ n) * bpow e).
        2:{ rewrite (bpow_IZR n Hn0), <- bpow_add. f_equal. subst n. lia. }
        apply Rmult_le_compat_r; [left; apply bpow_pos|].
        rewrite <- abs_IZR. apply IZR_le. nia. }
      assert (Hf : e1 = fexp prec emax (Zdigits2 m + e)) by (subst n; lia).
      unfold fexp, emin, prec, emax in Hf.
      destruct (Z.eq_dec e1 (-1074)) as [Em | Em].
      + rewrite Em in Hb. unfold eta. pose proof (bpow_pos (-52)).
        unfold EPSILON. nra.
      + assert (Ed : e1 = (Zdigits2 m + e - 53)%Z) by lia.
        destruct (Zdigits2_bounds m Hm) as [Hl _].
        pose proof (Zdigits2_pos m Hm) as Hd.
        assert (Hxl : bpow (e1 + 52) <= x).
        { subst x. replace (e1 + 52)%Z with ((Zdigits2 m - 1) + e)%Z by lia.
          rewrite bpow_add. apply Rmult_le_compat_r; [left; apply bpow_pos|].
          rewrite <- bpow_IZR by lia. now apply IZR_le. }
        assert (Hs : bpow e1 = EPSILON * bpow (e1 + 52)).
        { unfold EPSILON. rewrite <- bpow_add. f_equal. lia. }
        pose proof (bpow_pos (-52)). pose proof (bpow_pos (-1074)).
        unfold EPSILON, eta in *. nra. }
  assert (HVup : V < bpow 971).
  { assert (V <= x + (EPSILON * x + eta)).
    { pose proof (Rle_abs (V - x)). lra. }
    assert (E1 : bpow 971 = 2 * bpow 970).
    { replace 971%Z with (1 + 970)%Z by lia. rewrite bpow_add, bpow_1. reflexivity. }
    assert (EPSILON <= /2).
    { unfold EPSILON. rewrite <- bpow_m1.
      apply bpow_le. lia. }
    assert (eta < /2 * bpow 970).
    { unfold eta. rewrite <- bpow_m1.
      rewrite <- bpow_add.
      assert (bpow (-1074) <= bpow (-2)) by (apply bpow_le; lia).
      assert (bpow (-2) < bpow (-1)) by (apply bpow_lt; lia).
      assert (bpow (-1) <= bpow (-1 + 970)) by (apply bpow_le; lia). lra. }
    nra. }
  assert (ER : IZR m2 * bpow e2 = V).
  { subst V. rewrite <- Hn, mult_IZR, (bpow_IZR (e2 - e1)) by lia.
    rewrite Rmult_assoc, <- bpow_add. f_equal. f_equal. lia. }
  unfold rounds.
  destruct m2 as [|p|p]; [| |lia].
  - assert (V = 0) by (rewrite <- ER; cbn; ring).
    cbn [isFinite toR]. split; [reflexivity|]. split; [|intros; lra].
    replace (0 - (if s then -1 else 1) * x) with (- ((if s then -1 else 1) * (x - V)))
      by (destruct s; lra).
    rewrite Rabs_Ropp, !Rabs_mult.
    replace (Rabs (if s then -1 else 1)) with 1
      by (destruct s; [rewrite Rabs_left | rewrite Rabs_right]; lra).
    rewrite (Rabs_pos_eq x) by lra. rewrite Rabs_minus_sym. lra.
  - assert (Hle : (e2 <= emax - prec)%Z).
    { assert (bpow e2 < bpow 971).
      { assert (1 <= IZR (Zpos p)) by (apply IZR_le; lia).
        pose proof (bpow_pos e2). nra. }
      apply bpow_lt_inv in H. unfold emax, prec. lia. }
    apply Z.leb_le in Hle. rewrite Hle.
    rewrite toR_finite, ER. cbn [isFinite]. split; [reflexivity|]. split.
    + rewrite <- Rmult_minus_distr_l, !Rabs_mult.
      replace (Rabs (if s then -1 else 1)) with 1
        by (destruct s; [rewrite Rabs_left | rewrite Rabs_right]; lra).
      rewrite (Rabs_pos_eq x) by lra. lra.
    + destruct s; intros; lra.
Qed.

End RoundingError.

(** *** The operations the smoothing callback uses *)

Section Operations.
Import Double.

Lemma eta_pos : 0 < eta.
Proof. apply bpow_pos. Qed.

Lemma EPSILON_pos : 0 < EPSILON.
Proof. apply bpow_pos. Qed.

Lemma rounds_exact (r : number) : isFinite r = true -> rounds (toR r) r.
Proof.
  intros H. unfold rounds. split; [exact H|]. split; [|tauto].
  replace (toR r - toR r) with 0 by ring. rewrite Rabs_R0.
  pose proof eta_pos. pose proof EPSILON_pos. pose proof (Rabs_pos (toR r)). nra.
Qed.

Lemma rounds_zero (s : bool) : rounds 0 (S754_zero s).
Proof. exact (rounds_exact (S754_zero s) eq_refl). Qed.

Lemma rounds_eq (z z' : R) (r : number) : z = z' -> rounds z r -> rounds z' r.
Proof. now intros ->. Qed.

Lemma shl_align_value (mx : positive) (ex ex' : Z) :
  IZR (Zpos (fst (shl_align mx ex ex'))) * bpow (snd (shl_align mx ex ex'))
  = IZR (Zpos mx) * bpow ex.
Proof.
  unfold shl_align. destruct (ex' - ex)%Z as [|d|d] eqn:E; cbn [fst snd]; try reflexivity.
  change (Pos.iter xO mx d) with (shift_pos d mx). rewrite shift_pos_correct.
  change (Z.pow_pos 2 d) with (2 ^ Zpos d)%Z.
  rewrite mult_IZR, bpow_IZR by lia.
  assert (Eb : bpow ex = bpow (Zpos d) * bpow ex') by (rewrite <- bpow_add; f_equal; lia).
  rewrite Eb. ring.
Qed.

Lemma shl_align_exponent (mx : positive) (ex ex' : Z) :
  (ex' <= ex)%Z -> snd (shl_align mx ex ex') = ex'.
Proof.
  intros H. unfold shl_align. destruct (ex' - ex)%Z as [|d|d] eqn:E; cbn [snd]; lia.
Qed.

Lemma binary_round_spec (s : bool) (p : positive) (e : Z) :
  IZR (Zpos p) * bpow e <= bpow 970 ->
  rounds ((if s then -1 else 1) * (IZR (Zpos p) * bpow e)) (binary_round prec emax s p e).
Proof.
  intros H. unfold binary_round.
  pose proof (shl_align_value p e (fexp prec emax (Zpos (digits2_pos p) + e))) as V.
  destruct (shl_align p e (fexp prec emax (Zpos (digits2_pos p) + e))) as [mz ez].
  cbn [fst snd] in V. rewrite <- V in *. apply round_aux_spec; [lia | exact H].
Qed.

Lemma binary_normalize_spec (m e : Z) :
  Rabs (IZR m * bpow e) <= bpow 970 ->
  rounds (IZR m * bpow e) (binary_normalize prec emax m e false).
Proof.
  intros H. pose proof (bpow_pos e) as He.
  destruct m as [|p|p]; cbn [binary_normalize].
  - rewrite Rmult_0_l. apply rounds_zero.
  - apply (rounds_eq (1 * (IZR (Zpos p) * bpow e))); [ring|].
    apply binary_round_spec. rewrite Rabs_pos_eq in H; [exact H|].
    apply Rmult_le_pos; [apply IZR_le; lia | lra].
  - apply (rounds_eq (-1 * (IZR (Zpos p) * bpow e))).
    { change (Zneg p) with (- Zpos p)%Z. rewrite opp_IZR. ring. }
    apply binary_round_spec.
    change (Zneg p) with (- Zpos p)%Z in H. rewrite opp_IZR in H.
    replace (- IZR (Zpos p) * bpow e) with (- (IZR (Zpos p) * bpow e)) in H by ring.
    rewrite Rabs_Ropp, Rabs_pos_eq in H; [exact H|].
    apply Rmult_le_pos; [apply IZR_le; lia | lra].
Qed.

Lemma toR_cond_Zopp (s : bool) (m : positive) (e : Z) :
  toR (S754_finite s m e) = IZR (cond_Zopp s (Zpos m)) * bpow e.
Proof. destruct s; cbn [toR cond_Zopp]; [|reflexivity]. now rewrite <- opp_IZR. Qed.

Lemma aligned_value (s : bool) (m : positive) (e ez : Z) :
  (ez <= e)%Z ->
  IZR (cond_Zopp s (Zpos (fst (shl_align m e ez)))) * bpow ez = toR (S754_finite s m e).
Proof.
  intros H. pose proof (shl_align_value m e ez) as V.
  rewrite (shl_align_exponent m e ez H) in V.
  destruct s; cbn [cond_Zopp toR].
  - change (Zneg ?p) with (- Zpos p)%Z. rewrite opp_IZR. lra.
  - exact V.
Qed.

(** [x * y]: the product, rounded *)
Lemma mul_spec (x y : number) :
  isFinite x = true -> isFinite y = true ->
  Rabs (toR x * toR y) <= bpow 970 ->
  rounds (toR x * toR y) (mul x y).
Proof.
  intros Hx Hy H.
  destruct x as [sx|sx| |sx mx ex]; try discriminate;
    destruct y as [sy|sy| |sy my ey]; try discriminate; cbn [mul SFmul].
  - apply (rounds_eq 0); [cbn; ring | apply rounds_zero].
  - apply (rounds_eq 0); [cbn; ring | apply rounds_zero].
  - apply (rounds_eq 0); [cbn; ring | apply rounds_zero].
  - unfold mul, SFmul.
    assert (E : toR (S754_finite sx mx ex) * toR (S754_finite sy my ey)
                = (if xorb sx sy then -1 else 1)
                  * (IZR (Zpos (mx * my)) * bpow (ex + ey))).
    { rewrite !toR_finite, bpow_add, Pos2Z.inj_mul, mult_IZR.
      destruct sx, sy; cbn [xorb]; ring. }
    rewrite E in *. apply round_aux_spec; [lia|].
    rewrite Rabs_mult in H.
    replace (Rabs (if xorb sx sy then -1 else 1)) with 1 in H
      by (destruct (xorb sx sy); [rewrite Rabs_left | rewrite Rabs_right]; lra).
    rewrite Rabs_pos_eq in H; [lra|].
    apply Rmult_le_pos; [apply IZR_le; lia | left; apply bpow_pos].
Qed.

(** [x + y]: the sum, rounded *)
Lemma add_spec (x y : number) :
  isFinite x = true -> isFinite y = true ->
  Rabs (toR x + toR y) <= bpow 970 ->
  rounds (toR x + toR y) (add x y).
Proof.
  intros Hx Hy H.
  destruct x as [sx|sx| |sx mx ex]; try discriminate;
    destruct y as [sy|sy| |sy my ey]; try discriminate; unfold add, SFadd.
  - apply (rounds_eq 0); [cbn; ring|]. destruct sx, sy; apply rounds_zero.
  - apply (rounds_eq (toR (S754_finite sy my ey))); [cbn [toR]; ring|].
    now apply rounds_exact.
  - apply (rounds_eq (toR (S754_finite sx mx ex))); [cbn [toR]; ring|].
    now apply rounds_exact.
  - cbv zeta.
    set (ez := Z.min ex ey).
    assert (E : toR (S754_finite sx mx ex) + toR (S754_finite sy my ey)
                = IZR (cond_Zopp sx (Zpos (fst (shl_align mx ex ez)))
                       + cond_Zopp sy (Zpos (fst (shl_align my ey ez)))) * bpow ez).
    { rewrite plus_IZR, Rmult_plus_distr_r, !aligned_value by (subst ez; lia).
      reflexivity. }
    rewrite E in *. now apply binary_normalize_spec.
Qed.

(** [x - y]: the difference, rounded *)
Lemma sub_spec (x y : number) :
  isFinite x = true -> isFinite y = true ->
  Rabs (toR x - toR y) <= bpow 970 ->
  rounds (toR x - toR y) (sub x y).
Proof.
  intros Hx Hy H.
  destruct x as [sx|sx| |sx mx ex]; try discriminate;
    destruct y as [sy|sy| |sy my ey]; try discriminate; unfold sub, SFsub.
  - apply (rounds_eq 0); [cbn; ring|]. destruct sx, sy; apply rounds_zero.
  - apply (rounds_eq (toR (S754_finite (negb sy) my ey))).
    { rewrite !toR_finite. destruct sy; cbn [negb toR]; ring. }
    now apply rounds_exact.
  - apply (rounds_eq (toR (S754_finite sx mx ex))); [cbn [toR]; ring|].
    now apply rounds_exact.
  - cbv zeta.
    set (ez := Z.min ex ey).
    assert (E : toR (S754_finite sx mx ex) - toR (S754_finite sy my ey)
                = IZR (cond_Zopp sx (Zpos (fst (shl_align mx ex ez)))
                       - cond_Zopp sy (Zpos (fst (shl_align my ey ez)))) * bpow ez).
    { rewrite minus_IZR, Rmult_minus_distr_r, !aligned_value by (subst ez; lia).
      reflexivity. }
    rewrite E in *. now apply binary_normalize_spec.
Qed.

End Operations.

(** *** The interpolation *)

Section Lerp.
Import Double.

Lemma Rabs_bounds (x b : R) : Rabs x <= b -> - b <= x <= b.
Proof. intros H. unfold Rabs in H. destruct (Rcase_abs x); lra. Qed.

Lemma Rabs_within (x b : R) : - b <= x <= b -> Rabs x <= b.
Proof. intros H. unfold Rabs. destruct (Rcase_abs x); lra. Qed.

Lemma product_bounds (x y a b : R) :
  - a <= x <= a -> - b <= y <= b -> - (a * b) <= x * y <= a * b.
Proof.
  intros Hx Hy. apply Rabs_bounds. rewrite Rabs_mult.
  apply Rabs_within in Hx. apply Rabs_within in Hy.
  apply Rmult_le_compat; auto using Rabs_pos.
Qed.

Lemma rounds_within (z b : R) (r : number) :
  rounds z r -> - b <= z <= b ->
  - (EPSILON * b + eta) <= toR r - z <= EPSILON * b + eta.
Proof.
  intros (_ & H & _) Hz. apply Rabs_within in Hz. apply Rabs_bounds.
  pose proof EPSILON_pos. pose proof (Rabs_pos z). nra.
Qed.

Lemma EPSILON_small : 1024 * EPSILON <= 1.
Proof.
  unfold EPSILON. replace 1024 with (bpow 10) by (rewrite <- bpow_IZR by lia; reflexivity).
  rewrite <- bpow_add. change 1 with (bpow 0). apply bpow_le. lia.
Qed.

Lemma eta_small : eta <= EPSILON.
Proof. apply bpow_le. lia. Qed.

Lemma slack_eq : slack = 256 * EPSILON.
Proof.
  unfold slack, EPSILON. replace 256 with (bpow 8) by (rewrite <- bpow_IZR by lia; reflexivity).
  rewrite <- bpow_add. reflexivity.
Qed.

Lemma modest (x : R) : - 128 <= x <= 128 -> Rabs x <= bpow 970.
Proof.
  intros H. apply Rabs_within in H.
  assert (128 <= bpow 970).
  { replace 128 with (bpow 7) by (rewrite <- bpow_IZR by lia; reflexivity).
    apply bpow_le. lia. }
  lra.
Qed.

Lemma toR_pow2 (s : bool) (m : positive) (c k e : Z) :
  (0 <= k)%Z -> Zpos m = (c * 2 ^ k)%Z ->
  toR (S754_finite s m e) = (if s then -1 else 1) * (IZR c * bpow (k + e)).
Proof.
  intros Hk E. rewrite toR_finite, E, mult_IZR, bpow_IZR, bpow_add by exact Hk. ring.
Qed.

Lemma toR_one : toR one = 1.
Proof.
  unfold one. rewrite (toR_pow2 false _ 1 52 (-52)) by (lia || reflexivity).
  change (52 + -52)%Z with 0%Z. rewrite bpow_0. ring.
Qed.

Lemma toR_five : toR five = 5.
Proof.
  unfold five. rewrite (toR_pow2 false _ 5 50 (-50)) by (lia || reflexivity).
  change (50 + -50)%Z with 0%Z. rewrite bpow_0. ring.
Qed.

Lemma toR_zero (s : bool) : toR (S754_zero s) = 0.
Proof. reflexivity. Qed.

(** [5 * delta], line 100 *)
Lemma smoothingSpeed_spec (delta : number) :
  isFinite delta = true -> 0 < toR delta <= 1 ->
  isFinite (smoothingSpeed delta) = true
  /\ 0 <= toR (smoothingSpeed delta) <= 6
  /\ Rabs (toR (smoothingSpeed delta) - 5 * toR delta) <= EPSILON * (5 * toR delta) + eta.
Proof.
  intros Hf Hd. unfold smoothingSpeed.
  assert (R5 : rounds (5 * toR delta) (mul five delta)).
  { rewrite <- toR_five. apply mul_spec; [reflexivity | exact Hf |].
    rewrite toR_five. apply modest. lra. }
  pose proof (rounds_within _ 5 _ R5 ltac:(lra)) as W.
  destruct R5 as (F & E & P).
  pose proof EPSILON_small. pose proof eta_small. pose proof eta_pos. pose proof EPSILON_pos.
  split; [exact F|]. split; [split; [apply P; lra | lra]|].
  rewrite (Rabs_pos_eq (5 * toR delta)) in E by lra. exact E.
Qed.

(** [THREE.MathUtils.lerp] on angles, with a factor between 0 and 6 *)
Lemma lerp_spec (x y t : number) :
  angle x -> angle y -> isFinite t = true -> 0 <= toR t <= 6 ->
  isFinite (lerp x y t) = true
  /\ Rabs (toR (lerp x y t) - ((1 - toR t) * toR x + toR t * toR y)) <= slack.
Proof.
  intros [Fx Bx] [Fy By] Ft Ht. unfold lerp.
  apply Rabs_bounds in Bx. apply Rabs_bounds in By.
  pose proof EPSILON_small. pose proof eta_small. pose proof eta_pos. pose proof EPSILON_pos.
  set (X := toR x) in *. set (Y := toR y) in *. set (T := toR t) in *.
  (* 1 - t *)
  assert (Ra : rounds (1 - T) (sub one t)).
  { rewrite <- toR_one. apply sub_spec; [reflexivity | exact Ft |].
    rewrite toR_one. apply modest. fold T. lra. }
  pose proof (rounds_within _ 5 _ Ra ltac:(lra)) as Wa.
  destruct Ra as (Fa & _ & _).
  set (a := toR (sub one t)) in *.
  assert (Ba : - 6 <= a <= 6) by lra.
  (* (1 - t) * x *)
  pose proof (product_bounds a X 6 8 Ba Bx) as Bax.
  assert (Rp : rounds (a * X) (mul (sub one t) x)).
  { apply mul_spec; [exact Fa | exact Fx |]. apply modest. fold a X. lra. }
  pose proof (rounds_within _ (6 * 8) _ Rp Bax) as Wp.
  destruct Rp as (Fp & _ & _).
  set (p := toR (mul (sub one t) x)) in *.
  (* t * y *)
  pose proof (product_bounds T Y 6 8 ltac:(lra) By) as Bty.
  assert (Rq : rounds (T * Y) (mul t y)).
  { apply mul_spec; [exact Ft | exact Fy |]. apply modest. fold T Y. lra. }
  pose proof (rounds_within _ (6 * 8) _ Rq Bty) as Wq.
  destruct Rq as (Fq & _ & _).
  set (q := toR (mul t y)) in *.
  (* the sum *)
  assert (Bpq : - 98 <= p + q <= 98) by lra.
  assert (Rr : rounds (p + q) (add (mul (sub one t) x) (mul t y))).
  { apply add_spec; [exact Fp | exact Fq |]. apply modest. fold p q. lra. }
  pose proof (rounds_within _ 98 _ Rr Bpq) as Wr.
  destruct Rr as (Fr & _ & _).
  split; [exact Fr|].
  set (r := toR (add (mul (sub one t) x) (mul t y))) in *.
  (* the error that [1 - t] carries into the product *)
  pose proof (product_bounds (a - (1 - T)) X (EPSILON * 5 + eta) 8 Wa Bx) as Bc.
  rewrite slack_eq. apply Rabs_within.
  replace (r - ((1 - T) * X + T * Y))
    with ((r - (p + q)) + (p - a * X) + (a - (1 - T)) * X + (q - T * Y)) by ring.
  lra.
Qed.

End Lerp.

(** ** The smoothing callback over binary64 *)

Section Ticks.
Import Double.

Lemma useFrame_entries (e c rotation : number * number * number) (delta : number) :
  let c' := fst (useFrame (Some rotation) e delta c) in
  idx0 c' = lerp (idx0 c) (idx0 e) (smoothingSpeed delta)
  /\ idx1 c' = lerp (idx1 c) (idx1 e) (smoothingSpeed delta)
  /\ idx2 c' = idx2 c
  /\ snd (useFrame (Some rotation) e delta c) = Some (idx0 c', idx1 c', idx2 rotation).
Proof.
  destruct e as [[e0 e1] e2], c as [[c0 c1] c2], rotation as [[r0 r1] r2].
  now repeat split.
Qed.

(** What a value within [s] of the interpolated one gives for the
    distance to the target. *)
Lemma eased (x y t r s : R) :
  0 <= t ->
  Rabs (r - ((1 - t) * x + t * y)) <= s ->
  ArtifactModel.distance r y <= Rabs (1 - t) * ArtifactModel.distance x y + s
  /\ (s < (1 - Rabs (1 - t)) * ArtifactModel.distance x y ->
      ArtifactModel.distance r y < ArtifactModel.distance x y)
  /\ (t <= 1 -> Rmin x y - s <= r <= Rmax x y + s).
Proof.
  intros Ht H. unfold ArtifactModel.distance.
  assert (D : Rabs (r - y) <= Rabs (1 - t) * Rabs (x - y) + s).
  { rewrite <- Rabs_mult.
    replace (r - y) with ((r - ((1 - t) * x + t * y)) + (1 - t) * (x - y)) by ring.
    pose proof (Rabs_triang (r - ((1 - t) * x + t * y)) ((1 - t) * (x - y))). lra. }
  split; [exact D|]. split; [intros Hs; lra|].
  intros H1. apply Rabs_bounds in H.
  unfold Rmin, Rmax. destruct (Rle_dec x y); split; nra.
Qed.

(** C3, as the code has it.  One tick of the smoothing callback with a
    group attached, in binary64, for angles of magnitude at most 8 and a
    positive elapsed time of at most one second.  The factor [t] is
    [5 * delta] rounded, and is not negative.  Each of the X and Y angles
    becomes the interpolated value [(1 - t) * current + t * target] up to
    the rounding slack 2^-44.  So its distance to the target is at most
    [|1 - t|] times the old distance plus the slack; it is strictly
    smaller than the old distance once [1 - |1 - t|] times the old
    distance exceeds the slack; and while [t <= 1] the new angle lies
    between the old angle and the target up to the slack.  The third
    entry is not written, and the group displays the new X and Y
    angles and keeps its Z angle. *)
Theorem smoothing_tick_binary64
  (externalRotation currentRotation rotation : number * number * number)
  (delta : number) :
  angle (idx0 currentRotation) -> angle (idx1 currentRotation) ->
  angle (idx0 externalRotation) -> angle (idx1 externalRotation) ->
  isFinite delta = true -> 0 < toR delta <= 1 ->
  let c' := fst (useFrame (Some rotation) externalRotation delta currentRotation) in
  let t := toR (smoothingSpeed delta) in
  let smoothed (current target result : number) :=
    isFinite result = true
    /\ Rabs (toR result - ((1 - t) * toR current + t * toR target)) <= slack
    /\ ArtifactModel.distance (toR result) (toR target)
       <= Rabs (1 - t) * ArtifactModel.distance (toR current) (toR target) + slack
    /\ (slack < (1 - Rabs (1 - t)) * ArtifactModel.distance (toR current) (toR target) ->
        ArtifactModel.distance (toR result) (toR target)
        < ArtifactModel.distance (toR current) (toR target))
    /\ (t <= 1 ->
        Rmin (toR current) (toR target) - slack <= toR result
        <= Rmax (toR current) (toR target) + slack) in
  isFinite (smoothingSpeed delta) = true
  /\ 0 <= t
  /\ Rabs (t - 5 * toR delta) <= EPSILON * (5 * toR delta) + eta
  /\ smoothed (idx0 currentRotation) (idx0 externalRotation) (idx0 c')
  /\ smoothed (idx1 currentRotation) (idx1 externalRotation) (idx1 c')
  /\ idx2 c' = idx2 currentRotation
  /\ snd (useFrame (Some rotation) externalRotation delta currentRotation)
     = Some (idx0 c', idx1 c', idx2 rotation).
Proof.
  intros A0 A1 B0 B1 Fd Hd c' t smoothed.
  destruct (smoothingSpeed_spec delta Fd Hd) as (Ft & Ht & Et).
  destruct (useFrame_entries externalRotation currentRotation rotation delta)
    as (E0 & E1 & E2 & E3).
  fold t in Ht, Et.
  assert (S : forall current target,
             angle current -> angle target ->
             smoothed current target (lerp current target (smoothingSpeed delta))).
  { intros current target Ac Atg.
    destruct (lerp_spec current target (smoothingSpeed delta) Ac Atg Ft Ht) as [F E].
    fold t in E.
    destruct (eased (toR current) (toR target) t
                    (toR (lerp current target (smoothingSpeed delta))) slack
                    (proj1 Ht) E) as (P1 & P2 & P3).
    subst smoothed. cbv beta. splits; assumption. }
  split; [exact Ft|]. split; [exact (proj1 Ht)|]. split; [exact Et|].
  subst c'. rewrite E3, E0, E1, E2.
  split; [now apply S|]. split; [now apply S|]. split; reflexivity.
Qed.

Lemma toR_bound (s : bool) (m : positive) (e k : Z) :
  (0 <= k)%Z -> (Zpos m <= 2 ^ k)%Z -> Rabs (toR (S754_finite s m e)) <= bpow (k + e).
Proof.
  intros Hk Hm. rewrite toR_finite, Rabs_mult.
  replace (Rabs (if s then -1 else 1)) with 1
    by (destruct s; [rewrite Rabs_left | rewrite Rabs_right]; lra).
  pose proof (bpow_pos e).
  rewrite Rabs_pos_eq by (apply Rmult_le_pos; [apply IZR_le; lia | lra]).
  rewrite bpow_add, <- (bpow_IZR k Hk), Rmult_1_l.
  apply Rmult_le_compat_r; [lra | now apply IZR_le].
Qed.

Lemma toR_positive (m : positive) (e : Z) : 0 < toR (S754_finite false m e).
Proof.
  cbn [toR]. apply Rmult_lt_0_compat; [apply IZR_lt; lia | apply bpow_pos].
Qed.

Lemma angle_zero : angle zero.
Proof. split; [reflexivity|]. unfold zero. rewrite toR_zero, Rabs_R0. lra. Qed.

Lemma angle_one : angle one.
Proof. split; [reflexivity|]. rewrite toR_one, Rabs_pos_eq; lra. Qed.

Lemma tenth_is_short : 0 < toR tenth <= 1.
Proof.
  split; [apply toR_positive|].
  pose proof (toR_bound false 7205759403792794 (-56) 56 ltac:(lia) ltac:(cbn; lia)) as H.
  change (56 + -56)%Z with 0%Z in H. rewrite bpow_0 in H.
  pose proof (Rle_abs (toR tenth)). unfold tenth in *. lra.
Qed.

Lemma smoothing_tick_binary64_witness :
  let c' := fst (useFrame (Some (zero, zero, zero)) (one, one, zero) tenth (zero, zero, zero)) in
  let t := toR (smoothingSpeed tenth) in
  isFinite (idx0 c') = true
  /\ ArtifactModel.distance (toR (idx0 c')) (toR one)
     <= Rabs (1 - t) * ArtifactModel.distance (toR zero) (toR one) + slack.
Proof.
  destruct (smoothing_tick_binary64 (one, one, zero) (zero, zero, zero) (zero, zero, zero)
              tenth angle_zero angle_zero angle_one angle_one eq_refl tenth_is_short)
    as (_ & _ & _ & (F & _ & D & _) & _).
  split; [exact F | exact D].
Defined.

(** C3, as the claim has it, fails.  Half a second between two ticks is
    a positive elapsed time, and the X angle jumps from 0 past the
    target 1 to 2.5, farther from the target than it was.  And a tick of
    a sixtieth of a second moves an angle that sits on its target 0.9
    off it by 2^-53: the distance grows from zero. *)
Lemma smoothing_binary64_counterexample :
  let still := Some (zero, zero, zero) in
  let c' := fst (useFrame still (one, one, zero) half (zero, zero, zero)) in
  let d' := fst (useFrame still (nineTenths, one, zero) sixtieth (nineTenths, one, zero)) in
  isFinite half = true /\ 0 < toR half
  /\ toR (idx0 c') = 2.5
  /\ ArtifactModel.distance (toR zero) (toR one)
     < ArtifactModel.distance (toR (idx0 c')) (toR one)
  /\ toR zero < toR one < toR (idx0 c')
  /\ sixtieth = div one sixty /\ 0 < toR sixtieth
  /\ angle nineTenths
  /\ idx0 d' = S754_finite false 8106479329266892 (-53)
  /\ ArtifactModel.distance (toR nineTenths) (toR nineTenths) = 0
  /\ ArtifactModel.distance (toR (idx0 d')) (toR nineTenths) = bpow (-53)
  /\ 0 < bpow (-53).
Proof.
  cbv zeta.
  assert (E : idx0 (fst (useFrame (Some (zero, zero, zero)) (one, one, zero) half
                           (zero, zero, zero)))
              = S754_finite false 5629499534213120 (-51)) by (vm_compute; reflexivity).
  assert (E' : idx0 (fst (useFrame (Some (zero, zero, zero)) (nineTenths, one, zero)
                            sixtieth (nineTenths, one, zero)))
               = S754_finite false 8106479329266892 (-53)) by (vm_compute; reflexivity).
  rewrite E, E'.
  assert (V : toR (S754_finite false 5629499534213120 (-51)) = 2.5).
  { rewrite (toR_pow2 false _ 5 50 (-51)) by (lia || reflexivity).
    change (50 + -51)%Z with (-1)%Z. rewrite bpow_m1. lra. }
  rewrite V, toR_one. unfold zero. rewrite toR_zero.
  pose proof (bpow_pos (-53)) as P.
  unfold ArtifactModel.distance.
  split; [reflexivity|]. split; [apply toR_positive|]. split; [reflexivity|].
  split; [unfold Rabs; repeat destruct Rcase_abs; lra|].
  split; [lra|].
  split; [vm_compute; reflexivity|]. split; [apply toR_positive|].
  split.
  { split; [reflexivity|].
    pose proof (toR_bound false 8106479329266893 (-53) 53 ltac:(lia) ltac:(cbn; lia)) as H.
    change (53 + -53)%Z with 0%Z in H. rewrite bpow_0 in H. unfold nineTenths. lra. }
  split; [reflexivity|].
  split; [replace (toR nineTenths - toR nineTenths) with 0 by ring; apply Rabs_R0|].
  split; [|exact P].
  unfold nineTenths. cbn [toR].
  replace (IZR 8106479329266892 * bpow (-53) - IZR 8106479329266893 * bpow (-53))
    with (- bpow (-53)) by lra.
  rewrite Rabs_Ropp. apply Rabs_pos_eq. lra.
Qed.

End Ticks.

(** ** Two runs on the same source *)

Section Twins.
Import THREE StoreRelations ArtifactModel.

Lemma twins_ids (R : loc -> loc -> Prop) (a : Node) :
  forall b, twins R a b -> Forall2 R (ids a) (ids b).
Proof.
  induction a as [ia ca IH] using Node_induction. intros b H.
  inversion H as [? ib ? cb HR HF]; subst. rewrite !ids_node. constructor; [exact HR|].
  clear H HR. induction HF as [|x y xs ys Hxy _ IHF]; [constructor|].
  inversion IH as [|? ? Hx Hxs]; subst. cbn [flat_map].
  apply Forall2_app; [now apply Hx | now apply IHF].
Qed.

Lemma twins_impl (R R' : loc -> loc -> Prop) (a : Node) :
  forall b,
    twins R a b ->
    (forall x y, In x (ids a) -> In y (ids b) -> R x y -> R' x y) ->
    twins R' a b.
Proof.
  induction a as [ia ca IH] using Node_induction. intros b H Himp.
  inversion H as [? ib ? cb HR HF]; subst. rewrite !ids_node in Himp.
  constructor; [apply Himp; [now left | now left | exact HR]|].
  assert (Hkids : forall x y, In x (flat_map ids ca) -> In y (flat_map ids cb) ->
                              R x y -> R' x y)
    by (intros x y Hx Hy; apply Himp; now right).
  clear H HR Himp. induction HF as [|x y xs ys Hxy _ IHF]; [constructor|].
  inversion IH as [|? ? Hx Hxs]; subst. cbn [flat_map] in Hkids. constructor.
  - apply Hx; [exact Hxy|]. intros u v Hu Hv. apply Hkids; apply in_or_app; now left.
  - apply IHF; [exact Hxs|]. intros u v Hu Hv. apply Hkids; apply in_or_app; now right.
Qed.

(** Two copies of one graph are twins of each other. *)
Lemma twins_of_one (R1 R2 : loc -> loc -> Prop) (t : Node) :
  forall a b,
    twins R1 t a -> twins R2 t b ->
    twins (fun x y => exists z, R1 z x /\ R2 z y) a b.
Proof.
  induction t as [it ct IH] using Node_induction. intros a b Ha Hb.
  inversion Ha as [? ia ? ca HRa HFa]; subst.
  inversion Hb as [? ib ? cb HRb HFb]; subst.
  constructor; [now exists it|].
  clear Ha Hb HRa HRb. revert cb HFb.
  induction HFa as [|x y xs ys Hxy _ IHF]; intros cb HFb.
  - inversion HFb; subst. constructor.
  - inversion HFb as [|? y' ? ys' Hxy' HFb']; subst.
    inversion IH as [|? ? Hx Hxs]; subst.
    constructor; [now apply Hx | now apply IHF].
Qed.

Lemma twins_and (R1 R2 : loc -> loc -> Prop) (a : Node) :
  forall b, twins R1 a b -> twins R2 a b -> twins (fun x y => R1 x y /\ R2 x y) a b.
Proof.
  induction a as [ia ca IH] using Node_induction. intros b H1 H2.
  inversion H1 as [? ib ? cb HR1 HF1]; subst.
  inversion H2 as [? ? ? ? HR2 HF2]; subst.
  constructor; [now split|].
  clear H1 H2 HR1 HR2. induction HF1 as [|x y xs ys Hxy _ IHF]; [constructor|].
  inversion HF2; subst. inversion IH; subst. constructor; auto.
Qed.

(** Copying a graph yields a twin whose objects hold what the
    originals held. *)
Lemma clone_twins_children (vals : loc -> Object3D) (children : list Node) :
  Forall (fun t => forall s,
            (forall l, In l (ids t) -> (l < nextObject s)%nat /\ objects s l = vals l) ->
            twins (fun a b => objects (snd (Object3D_clone t s)) b = vals a)
                  t (fst (Object3D_clone t s)))
         children ->
  forall s,
    (forall l, In l (flat_map ids children) ->
               (l < nextObject s)%nat /\ objects s l = vals l) ->
    Forall2 (twins (fun a b => objects (snd (forEach Object3D_clone children s)) b = vals a))
            children (fst (forEach Object3D_clone children s)).
Proof.
  induction 1 as [|c cs Hc _ IH]; intros s Hs; [constructor|].
  cbn [forEach flat_map] in *.
  assert (Hs1 : forall l, In l (ids c) -> (l < nextObject s)%nat /\ objects s l = vals l)
    by (intros l Hl; apply Hs, in_or_app; now left).
  specialize (Hc s Hs1).
  destruct (clone_cloned c s) as (C1 & C2 & _ & _ & C5 & _).
  destruct (Object3D_clone c s) as [c' sa]. cbn [fst snd] in *.
  assert (Hs2 : forall l, In l (flat_map ids cs) ->
                          (l < nextObject sa)%nat /\ objects sa l = vals l).
  { intros l Hl. destruct (Hs l) as [Hlt Hv]; [apply in_or_app; now right|].
    split; [lia|]. now rewrite C5. }
  specialize (IH sa Hs2).
  assert (Hall : Forall (fun t => forall s0,
            cloned (ids t) (ids (fst (Object3D_clone t s0))) s0 (snd (Object3D_clone t s0))) cs)
    by (apply Forall_forall; intros t _; apply clone_cloned).
  destruct (cloned_children cs Hall sa) as (_ & _ & _ & _ & D5 & _).
  destruct (forEach Object3D_clone cs sa) as [cs' sb]. cbn [fst snd] in *.
  constructor; [|exact IH].
  apply (twins_impl _ _ c c' Hc). intros x y _ Hy Hxy.
  rewrite D5; [exact Hxy|]. rewrite C1 in Hy. apply in_seq in Hy. lia.
Qed.

Lemma clone_twins (vals : loc -> Object3D) (t : Node) :
  forall s,
    (forall l, In l (ids t) -> (l < nextObject s)%nat /\ objects s l = vals l) ->
    twins (fun a b => objects (snd (Object3D_clone t s)) b = vals a)
          t (fst (Object3D_clone t s)).
Proof.
  induction t as [id children IH] using Node_induction. intros s Hs.
  rewrite ids_node in Hs. cbn [Object3D_clone].
  destruct (cloned_newObject id s) as (_ & R2 & _ & _ & R5 & _).
  assert (Eroot : objects (snd (newObject (objects s id) s)) (fst (newObject (objects s id) s))
                  = vals id).
  { cbn. rewrite upd_same. apply Hs. now left. }
  assert (Efst : fst (newObject (objects s id) s) = nextObject s) by reflexivity.
  destruct (newObject (objects s id) s) as [id' s1]. cbn [fst snd] in *.
  assert (Hs1 : forall l, In l (flat_map ids children) ->
                          (l < nextObject s1)%nat /\ objects s1 l = vals l).
  { intros l Hl. destruct (Hs l) as [Hlt Hv]; [now right|].
    split; [cbn [length] in R2; lia|]. now rewrite R5. }
  pose proof (clone_twins_children vals children IH s1 Hs1) as Hkids.
  assert (Hall : Forall (fun t => forall s0,
            cloned (ids t) (ids (fst (Object3D_clone t s0))) s0 (snd (Object3D_clone t s0)))
                 children)
    by (apply Forall_forall; intros t _; apply clone_cloned).
  destruct (cloned_children children Hall s1) as (_ & _ & _ & _ & D5 & _).
  destruct (forEach Object3D_clone children s1) as [cs' s2]. cbn [fst snd] in *.
  constructor; [|exact Hkids].
  rewrite D5; [exact Eroot|]. cbn [length] in R2. lia.
Qed.

(** Twins whose objects have the same geometry and the same stored world
    matrix are measured alike. *)
Lemma worldBox_twins (sA sB : Store) (a b : Node) :
  sameBoxes sA sB ->
  twins (fun x y => kind (objects sA x) = kind (objects sB y)
                    /\ matrixWorld (objects sA x) = matrixWorld (objects sB y)) a b ->
  map (worldBox sA) (ids a) = map (worldBox sB) (ids b).
Proof.
  intros Hb H. apply twins_ids in H.
  induction H as [|x y xs ys [Hk Hm] _ IH]; [reflexivity|].
  cbn [map]. rewrite IH. f_equal.
  unfold kind in Hk. injection Hk as _ Hg. unfold worldBox. rewrite Hg, Hm.
  destruct (geometry (objects sB y)); [now rewrite Hb | reflexivity].
Qed.

Lemma twins_nodes (R : loc -> loc -> Prop) (a : Node) :
  forall b, twins R a b -> Forall2 (twins R) (nodes a) (nodes b).
Proof.
  induction a as [ia ca IH] using Node_induction. intros b H.
  inversion H as [? ib ? cb HR HF]; subst. cbn [nodes]. constructor; [exact H|].
  clear H HR. induction HF as [|x y xs ys Hxy _ IHF]; [constructor|].
  inversion IH as [|? ? Hx Hxs]; subst. cbn [flat_map].
  apply Forall2_app; [now apply Hx | now apply IHF].
Qed.

Lemma twins_head (R : loc -> loc -> Prop) (a b : Node) :
  twins R a b -> R (id_of a) (id_of b).
Proof. intros H. now inversion H. Qed.

(** The box that the second traversal accumulates, node by node *)
Lemma expandByMeshes_fold (s : Store) (ns : list Node) :
  forall acc h s1, measured s s1 ->
    fst (fst (fold_left (fun a n => expandByMeshes n a) ns (acc, h, s1)))
    = fold_left (fun b n => if isMesh (objects s (id_of n))
                            then union b (unions (map (worldBox s) (ids n))) else b)
                ns acc.
Proof.
  induction ns as [|n ns IH]; intros acc h s1 Hm; [reflexivity|].
  cbn [fold_left]. unfold expandByMeshes at 2. pose proof Hm as (Eo & _). rewrite Eo.
  destruct (isMesh (objects s (id_of n))).
  - pose proof (expandByObject_fold n s1 acc) as Hb.
    pose proof (expandByObject_measured n s1 acc) as Hm'.
    destruct (expandByObject s1 n acc) as [b2 s2]. cbn [fst snd] in *.
    rewrite IH by now apply (measured_trans s s1 s2).
    now rewrite Hb, (worldBoxes_measured s s1 _ Hm).
  - now apply IH.
Qed.

Lemma Forall2_existsb {A B} (R : A -> B -> Prop) (f : A -> bool) (g : B -> bool)
  (xs : list A) (ys : list B) :
  Forall2 R xs ys -> (forall x y, R x y -> f x = g y) -> existsb f xs = existsb g ys.
Proof.
  intros H Hfg. induction H as [|x y xs ys Hxy _ IH]; [reflexivity|].
  cbn [existsb]. now rewrite (Hfg x y Hxy), IH.
Qed.

Lemma Forall2_fold_left {A B C} (R : A -> B -> Prop) (F : C -> A -> C) (G : C -> B -> C)
  (xs : list A) (ys : list B) :
  Forall2 R xs ys -> (forall x y acc, R x y -> F acc x = G acc y) ->
  forall acc, fold_left F xs acc = fold_left G ys acc.
Proof.
  intros H HFG. induction H as [|x y xs ys Hxy _ IH]; intros acc; [reflexivity|].
  cbn [fold_left]. now rewrite (HFG x y acc Hxy), IH.
Qed.

Lemma computeBox_twins (sA sB : Store) (a b : Node) :
  sameBoxes sA sB ->
  twins (fun x y => kind (objects sA x) = kind (objects sB y)
                    /\ matrixWorld (objects sA x) = matrixWorld (objects sB y)) a b ->
  fst (computeBox sA a) = fst (computeBox sB b).
Proof.
  intros Hb H. unfold computeBox.
  pose proof (traverse_expandByMeshes_flag sA a makeEmpty false sA (measured_refl sA)) as FA.
  pose proof (traverse_expandByMeshes_flag sB b makeEmpty false sB (measured_refl sB)) as FB.
  rewrite !traverse_fold in *.
  pose proof (expandByMeshes_fold sA (nodes a) makeEmpty false sA (measured_refl sA)) as BA.
  pose proof (expandByMeshes_fold sB (nodes b) makeEmpty false sB (measured_refl sB)) as BB.
  pose proof (expandByMeshes_measured sA (nodes a) (makeEmpty, false, sA) (measured_refl sA))
    as MA.
  pose proof (expandByMeshes_measured sB (nodes b) (makeEmpty, false, sB) (measured_refl sB))
    as MB.
  destruct (fold_left (fun a n => expandByMeshes n a) (nodes a) (makeEmpty, false, sA))
    as [[bA hA] sA1].
  destruct (fold_left (fun a n => expandByMeshes n a) (nodes b) (makeEmpty, false, sB))
    as [[bB hB] sB1].
  cbn [fst snd] in *.
  assert (Eh : hA = hB).
  { rewrite FA, FB. cbn [orb].
    apply (Forall2_existsb _ _ _ _ _ (twins_ids _ _ _ H)).
    intros x y [Hk _]. unfold kind in Hk. now injection Hk. }
  assert (Eb : bA = bB).
  { rewrite BA, BB.
    apply (Forall2_fold_left _ _ _ _ _ (twins_nodes _ _ _ H)).
    intros x y acc Hxy.
    destruct (twins_head _ _ _ Hxy) as [Hk _]. unfold kind in Hk. injection Hk as -> _.
    now rewrite (worldBox_twins sA sB x y Hb Hxy). }
  clear FA FB BA BB. subst hB bB. destruct (negb hA); [|reflexivity].
  rewrite !setFromObject_unions.
  rewrite (worldBoxes_measured sA sA1 _ MA), (worldBoxes_measured sB sB1 _ MB).
  now rewrite (worldBox_twins sA sB a b Hb H).
Qed.

Lemma NoDup_app_disjoint {A} (l1 l2 : list A) :
  NoDup (l1 ++ l2) -> forall a, In a l1 -> ~ In a l2.
Proof.
  induction l1 as [|x l1 IH]; intros H a Ha; [destruct Ha|].
  cbn in H. apply NoDup_cons_iff in H. destruct H as [Hx H].
  destruct Ha as [-> | Ha]; [|now apply IH].
  intros Hin. apply Hx, in_or_app. now right.
Qed.

Lemma updateMatrixWorld_children_rematrixed (parent : option Matrix4) (cs : list Node) :
  forall s,
    rematrixed (flat_map ids cs)
               s (fold_left (fun s c => updateMatrixWorld parent c s) cs s).
Proof.
  induction cs as [|c cs IH]; intros s; [apply rematrixed_refl|].
  cbn [fold_left flat_map].
  eapply rematrixed_trans; [apply updateMatrixWorld_rematrixed | apply IH].
Qed.

(** On twins with the same poses and no address used twice, the update
    of the world matrices stores the same matrices. *)
Lemma updateMatrixWorld_twins_children (ca : list Node) :
  Forall (fun a => forall b p sA sB,
            twins (fun x y => pose (objects sA x) = pose (objects sB y)) a b ->
            NoDup (ids a) -> NoDup (ids b) ->
            twins (fun x y => matrixWorld (objects (updateMatrixWorld p a sA) x)
                              = matrixWorld (objects (updateMatrixWorld p b sB) y)) a b)
         ca ->
  forall cb p sA sB,
    Forall2 (twins (fun x y => pose (objects sA x) = pose (objects sB y))) ca cb ->
    NoDup (flat_map ids ca) -> NoDup (flat_map ids cb) ->
    Forall2 (twins (fun x y =>
               matrixWorld (objects (fold_left (fun s c => updateMatrixWorld p c s) ca sA) x)
               = matrixWorld (objects (fold_left (fun s c => updateMatrixWorld p c s) cb sB) y)))
            ca cb.
Proof.
  induction 1 as [|a ca Ha _ IH]; intros cb p sA sB HF NA NB.
  - inversion HF; subst. constructor.
  - inversion HF as [|? b ? cb' Hab HF']; subst. cbn [fold_left flat_map] in *.
    pose proof (NoDup_app_remove_r _ _ NA) as NA1.
    pose proof (NoDup_app_remove_l _ _ NA) as NA2.
    pose proof (NoDup_app_remove_r _ _ NB) as NB1.
    pose proof (NoDup_app_remove_l _ _ NB) as NB2.
    specialize (Ha b p sA sB Hab NA1 NB1).
    destruct (updateMatrixWorld_rematrixed a p sA) as (_ & PA & _).
    destruct (updateMatrixWorld_rematrixed b p sB) as (_ & PB & _).
    set (sA1 := updateMatrixWorld p a sA) in *.
    set (sB1 := updateMatrixWorld p b sB) in *.
    destruct (updateMatrixWorld_children_rematrixed p ca sA1) as (_ & _ & FA).
    destruct (updateMatrixWorld_children_rematrixed p cb' sB1) as (_ & _ & FB).
    constructor.
    + apply (twins_impl _ _ a b Ha). intros x y Hx Hy Hxy.
      rewrite FA by (now apply (NoDup_app_disjoint _ _ NA)).
      rewrite FB by (now apply (NoDup_app_disjoint _ _ NB)).
      exact Hxy.
    + apply IH; auto.
      apply Forall2_impl
        with (R1 := twins (fun x y => pose (objects sA x) = pose (objects sB y)));
        [|exact HF'].
      intros u v Huv. apply (twins_impl _ _ u v Huv). intros x y _ _ Hxy.
      now rewrite PA, PB.
Qed.

Lemma updateMatrixWorld_twins (a : Node) :
  forall b p sA sB,
    twins (fun x y => pose (objects sA x) = pose (objects sB y)) a b ->
    NoDup (ids a) -> NoDup (ids b) ->
    twins (fun x y => matrixWorld (objects (updateMatrixWorld p a sA) x)
                      = matrixWorld (objects (updateMatrixWorld p b sB) y)) a b.
Proof.
  induction a as [ia ca IH] using Node_induction. intros b p sA sB H NA NB.
  inversion H as [? ib ? cb Hp HF]; subst. rewrite ids_node in NA, NB.
  apply NoDup_cons_iff in NA. destruct NA as [NAr NA].
  apply NoDup_cons_iff in NB. destruct NB as [NBr NB].
  cbn [updateMatrixWorld].
  unfold pose in Hp. injection Hp as P1 _ P3 P4. rewrite P1, P3, P4.
  set (m := compose (position (objects sB ib)) (quaternion (objects sB ib))
                    (scale (objects sB ib))).
  set (mw := match p with None => m | Some q => multiplyMatrices q m end).
  set (sA1 := modify ia (set_matrices m mw) sA).
  set (sB1 := modify ib (set_matrices m mw) sB).
  destruct (updateMatrixWorld_children_rematrixed (Some mw) ca sA1) as (_ & _ & FA).
  destruct (updateMatrixWorld_children_rematrixed (Some mw) cb sB1) as (_ & _ & FB).
  constructor.
  - rewrite FA, FB by assumption. unfold sA1, sB1.
    now rewrite !objects_modify, !Nat.eqb_refl.
  - apply (updateMatrixWorld_twins_children ca IH cb (Some mw) sA1 sB1); auto.
    apply Forall2_impl
      with (R1 := twins (fun x y => pose (objects sA x) = pose (objects sB y)));
      [|exact HF].
    intros u v Huv. apply (twins_impl _ _ u v Huv). intros x y _ _ Hxy.
    unfold sA1, sB1. now rewrite !pose_set_matrices.
Qed.

Lemma materialSetup_pose (n : Node) (s : Store) (l : loc) :
  pose (objects (materialSetup n s) l) = pose (objects s l).
Proof.
  unfold materialSetup. destruct (isMesh (objects s (id_of n))); [|reflexivity].
  set (j := id_of n).
  set (s2 := modify j (set_receiveShadow true) (modify j (set_castShadow true) s)).
  assert (H2 : forall l', pose (objects s2 l') = pose (objects s l')).
  { intros l'. unfold s2. rewrite !objects_modify.
    destruct (Nat.eqb_spec l' j); [subst; now rewrite Nat.eqb_refl | reflexivity]. }
  destruct (material (objects s2 j)) as [|m|ms].
  - apply H2.
  - destruct (applySettings_spec m s2) as (_ & _ & A3 & _).
    destruct (applySettings m s2) as [m' s3]. cbn [fst snd] in *.
    rewrite objects_modify, A3.
    destruct (Nat.eqb_spec l j); [subst; apply (H2 j) | apply H2].
  - destruct (Array_map_applySettings ms s2) as (_ & _ & A3 & _).
    destruct (Array_map applySettings ms s2) as [ms' s3]. cbn [fst snd] in *.
    rewrite objects_modify, A3.
    destruct (Nat.eqb_spec l j); [subst; apply (H2 j) | apply H2].
Qed.

Lemma materialSetup_traversal_pose (t : Node) (s : Store) (l : loc) :
  pose (objects (traverse materialSetup t s) l) = pose (objects s l).
Proof.
  rewrite traverse_fold.
  apply (fold_left_invariant (fun s n => materialSetup n s)
           (fun s' => pose (objects s' l) = pose (objects s l))); [|reflexivity].
  intros a n _ Ha. now rewrite materialSetup_pose.
Qed.

Lemma Forall2_impl_in {A B} (R R' : A -> B -> Prop) (xs : list A) (ys : list B) :
  Forall2 R xs ys ->
  (forall a b, In a xs -> In b ys -> R a b -> R' a b) ->
  Forall2 R' xs ys.
Proof.
  induction 1 as [|x y xs ys Hxy _ IH]; intros Himp; constructor.
  - apply Himp; [now left | now left | exact Hxy].
  - apply IH. intros a b Ha Hb. apply Himp; now right.
Qed.

Lemma seq_tail_differs (root : loc) (rest : list loc) (n k : nat) :
  root :: rest = seq n k -> NoDup (root :: rest) /\ forall l, In l rest -> l <> root.
Proof.
  intros E. assert (N : NoDup (root :: rest)) by (rewrite E; apply seq_NoDup).
  split; [exact N|]. apply NoDup_cons_iff in N. destruct N as [N _].
  intros l Hl ->. contradiction.
Qed.

(** Two runs of the preparation that find the same objects at the
    addresses of the source measure the same box. *)
Lemma prepare_twins (scene : Node) (sX sY : Store) :
  allocated sX scene ->
  allocated sY scene ->
  (forall l, In l (ids scene) -> objects sY l = objects sX l) ->
  sameBoxes sX sY ->
  fst (computeBox (snd (prepare scene sX)) (fst (prepare scene sX)))
  = fst (computeBox (snd (prepare scene sY)) (fst (prepare scene sY))).
Proof.
  intros HaX HaY Hsame Hboxes.
  assert (Hboxes' : sameBoxes (snd (prepare scene sX)) (snd (prepare scene sY))).
  { intros g. rewrite !prepare_geometries. apply Hboxes. }
  destruct (prepare_spec scene sX)
    as (IX & _ & _ & _ & _ & _ & _ & _ & _ & _ & KX & _).
  destruct (prepare_spec scene sY)
    as (IY & _ & _ & _ & _ & _ & _ & _ & _ & _ & KY & _).
  pose proof (prepare_stages scene sX) as EX.
  pose proof (prepare_stages scene sY) as EY.
  cbv zeta in EX, EY. rewrite EX, EY in *. cbn [fst snd] in *. clear EX EY.
  assert (TX : twins (fun a b => objects (snd (Object3D_clone scene sX)) b = objects sX a)
                     scene (fst (Object3D_clone scene sX))).
  { apply clone_twins. intros l Hl. split; [|reflexivity].
    exact (proj1 (Forall_forall _ _) HaX l Hl). }
  assert (TY : twins (fun a b => objects (snd (Object3D_clone scene sY)) b = objects sX a)
                     scene (fst (Object3D_clone scene sY))).
  { apply clone_twins. intros l Hl. split; [|now apply Hsame].
    exact (proj1 (Forall_forall _ _) HaY l Hl). }
  pose proof (twins_of_one _ _ scene _ _ TX TY) as T. clear TX TY.
  set (cX := fst (Object3D_clone scene sX)) in *.
  set (cY := fst (Object3D_clone scene sY)) in *.
  set (saX := snd (Object3D_clone scene sX)) in *.
  set (saY := snd (Object3D_clone scene sY)) in *.
  set (sbX := traverse materialSetup cX saX) in *.
  set (sbY := traverse materialSetup cY saY) in *.
  assert (PX : forall l, pose (objects sbX l) = pose (objects saX l))
    by (intros l; apply materialSetup_traversal_pose).
  assert (PY : forall l, pose (objects sbY l) = pose (objects saY l))
    by (intros l; apply materialSetup_traversal_pose).
  clearbody sbX sbY saX saY cX cY.
  destruct cX as [rX kX], cY as [rY kY]. cbn [id_of] in *.
  rewrite ids_node in IX, IY.
  destruct (seq_tail_differs _ _ _ _ IX) as [NX DX].
  destruct (seq_tail_differs _ _ _ _ IY) as [NY DY].
  rewrite <- ids_node in NX, NY.
  set (scX := modify rX (set_scale (Vector3_set 1 1 1)) _) in *.
  set (scY := modify rY (set_scale (Vector3_set 1 1 1)) _) in *.
  apply computeBox_twins; [exact Hboxes'|]. apply twins_and.
  - apply (twins_impl _ _ _ _ T). intros x y _ _ (z & H1 & H2).
    rewrite KX, KY. congruence.
  - apply updateMatrixWorld_twins; [|exact NX | exact NY].
    inversion T as [? ? ? ? (z & H1 & H2) HF]; subst. constructor.
    + assert (Hr : rotation (objects sbX rX) = rotation (objects sbY rY)).
      { pose proof (PX rX) as QX. pose proof (PY rY) as QY.
        rewrite H1 in QX. rewrite H2 in QY. rewrite <- QY in QX.
        unfold pose in QX. now injection QX. }
      unfold scX, scY. rewrite !objects_modify, !Nat.eqb_refl.
      unfold pose. cbn [position rotation quaternion scale set_scale set_rotation
                        set_position]. now rewrite Hr.
    + apply (Forall2_impl_in _ _ _ _ HF). intros u v Hu Hv Huv.
      apply (twins_impl _ _ _ _ Huv). intros x y Hx Hy (w & G1 & G2).
      assert (Hx' : x <> rX) by (apply DX, in_flat_map; now exists u).
      assert (Hy' : y <> rY) by (apply DY, in_flat_map; now exists v).
      apply Nat.eqb_neq in Hx', Hy'.
      unfold scX, scY. rewrite !objects_modify, Hx', Hy', PX, PY. congruence.
Qed.

End Twins.

(** ** Running the effect again *)

Section Rerun.
Import THREE StoreRelations ArtifactModel.

Lemma normalize_root_position (scene : Node) (s : Store) :
  position (objects (snd (normalize scene s)) (id_of (fst (fst (normalize scene s)))))
  = Vector3_sub (Vector3_set 0 0 0)
      (getCenter (fst (computeBox (snd (prepare scene s)) (fst (prepare scene s))))).
Proof.
  rewrite (normalize_stages scene s). cbn [fst snd].
  destruct (prepare_spec scene s) as (_ & _ & _ & _ & Ppos & _).
  destruct (computeBox_measured (snd (prepare scene s)) (fst (prepare scene s))) as (E & _).
  rewrite objects_modify, Nat.eqb_refl, E. cbn [position set_position]. now rewrite Ppos.
Qed.

Lemma normalize_scale (scene : Node) (s : Store) :
  snd (fst (normalize scene s))
  = scaleFactor (fst (computeBox (snd (prepare scene s)) (fst (prepare scene s)))).
Proof. now rewrite (normalize_stages scene s). Qed.

(** What the whole effect does to the geometries *)
Lemma normalize_measured (scene : Node) (s : Store) (g : loc) :
  geometries (snd (normalize scene s)) g = geometries s g
  \/ (boundingBox (geometries s g) = None
      /\ geometries (snd (normalize scene s)) g
         = mkBufferGeometry (vertices (geometries s g))
                            (Some (setFromPoints (vertices (geometries s g))))).
Proof.
  rewrite (normalize_stages scene s). cbn [snd geometries modify setObject].
  destruct (computeBox_measured (snd (prepare scene s)) (fst (prepare scene s)))
    as (_ & _ & _ & _ & H).
  specialize (H g). now rewrite prepare_geometries in H.
Qed.

(** The geometry of a surface of the source has its box after the run. *)
Lemma normalize_fills (scene : Node) (s : Store) (l g : loc) :
  allocated s scene ->
  In l (ids scene) -> isMesh (objects s l) = true -> geometry (objects s l) = Some g ->
  boundingBox (geometries (snd (normalize scene s)) g) = Some (boxOf (geometries s g)).
Proof.
  intros Ha Hl Hmesh Hg.
  rewrite (normalize_stages scene s). cbn [snd geometries modify setObject].
  pose proof (prepare_kinds scene s Ha) as Hk.
  assert (Hin : In (kind (objects s l)) (map (fun l => kind (objects s l)) (ids scene)))
    by now apply (in_map (fun l => kind (objects s l))).
  rewrite <- Hk in Hin. apply in_map_iff in Hin. destruct Hin as (l' & Ek & Hl').
  unfold kind in Ek. rewrite Hmesh, Hg in Ek. injection Ek as Em Eg.
  rewrite (computeBox_fills _ _ l' g Hl' Em Eg).
  now rewrite prepare_geometries.
Qed.

(** C9, as the code has it.  Normalisation writes no object of the scene
    graph it is given and none of its materials: every object and every
    material that existed before the run holds afterwards what it held
    before, the objects of the copy are all new, and so are the materials
    of its surfaces.  The geometries are shared with the copy, and of
    them the run writes one field: measuring fills in the [boundingBox]
    that was [null], with the box of the vertices, and it does so for the
    geometry of every surface of the source.  A second run on the same
    source publishes the same scale factor and places the root of its copy
    where the first run placed it: nothing drifts. *)
Theorem normalization_writes_only_missing_boxes (scene : Node) (s : Store) :
  let clone := fst (fst (normalize scene s)) in
  let s' := snd (normalize scene s) in
  (forall l, (l < nextObject s)%nat -> objects s' l = objects s l)
  /\ (forall m, (m < nextMaterial s)%nat -> materials s' m = materials s m)
  /\ Forall (fun l => (nextObject s <= l < nextObject s')%nat) (ids clone)
  /\ Forall (fun l => isMesh (objects s' l) = true ->
                      Forall (fun m => (nextMaterial s <= m < nextMaterial s')%nat)
                             (attached (material (objects s' l))))
            (ids clone)
  /\ (forall g,
         geometries s' g = geometries s g
         \/ (boundingBox (geometries s g) = None
             /\ geometries s' g
                = mkBufferGeometry (vertices (geometries s g))
                                   (Some (setFromPoints (vertices (geometries s g))))))
  /\ (allocated s scene ->
      (forall l g,
          In l (ids scene) -> isMesh (objects s l) = true ->
          geometry (objects s l) = Some g ->
          boundingBox (geometries s' g) = Some (boxOf (geometries s g)))
      /\ let again := normalize scene s' in
         snd (fst again) = snd (fst (normalize scene s))
         /\ position (objects (snd again) (id_of (fst (fst again))))
            = position (objects s' (id_of clone))).
Proof.
  destruct (normalize_keeps scene s) as (K1 & K2 & K3 & K4 & K5 & K6).
  cbv zeta in *. splits; auto.
  - apply normalize_measured.
  - intros Ha. split; [intros l g; now apply normalize_fills|].
    assert (Ha' : allocated (snd (normalize scene s)) scene).
    { unfold allocated in *. eapply Forall_impl; [|exact Ha]. cbn beta. intros l Hl. lia. }
    assert (Hsame : forall l, In l (ids scene) ->
                              objects (snd (normalize scene s)) l = objects s l).
    { intros l Hl. apply K1. exact (proj1 (Forall_forall _ _) Ha l Hl). }
    assert (Hboxes : sameBoxes s (snd (normalize scene s))).
    { intros g. destruct (normalize_measured scene s g) as [-> | [N ->]]; [reflexivity|].
      unfold boxOf. now rewrite N. }
    pose proof (prepare_twins scene s (snd (normalize scene s)) Ha Ha' Hsame Hboxes) as Hbox.
    rewrite !normalize_root_position, !normalize_scale, <- Hbox. now split.
Qed.

(** C9, as the claim has it, fails: the sample asset whose geometry has
    no box yet is not left as it was.  The geometry of its mesh, which the
    copy shares, has [boundingBox = null] before the run and the box of
    its vertices after it. *)
Lemma source_geometry_counterexample :
  let s := Samples.unmeasured in
  let s' := snd (normalize Samples.scene s) in
  In 1%nat (ids Samples.scene)
  /\ isMesh (objects s 1%nat) = true
  /\ geometry (objects s 1%nat) = Some 0%nat
  /\ boundingBox (geometries s 0%nat) = None
  /\ boundingBox (geometries s' 0%nat) = Some (setFromPoints Samples.corners)
  /\ geometries s' 0%nat <> geometries s 0%nat.
Proof.
  cbv zeta.
  assert (H : boundingBox (geometries (snd (normalize Samples.scene Samples.unmeasured)) 0%nat)
              = Some (setFromPoints Samples.corners)).
  { apply (normalize_fills Samples.scene Samples.unmeasured 1%nat 0%nat).
    - repeat constructor.
    - right. left. reflexivity.
    - reflexivity.
    - reflexivity. }
  split; [right; left; reflexivity|].
  split; [reflexivity|]. split; [reflexivity|]. split; [reflexivity|].
  split; [exact H|].
  intros E. rewrite E in H. discriminate.
Qed.

End Rerun.

(** ** The sample asset, normalised *)

Section Sample.
Import THREE ArtifactModel.

(** Resolves the minima and maxima of numerals in the goal. *)
Ltac minmax :=
  repeat match goal with
         | |- context [Rmin ?a ?b] =>
             first [rewrite (Rmin_left a b) by lra | rewrite (Rmin_right a b) by lra]
         | |- context [Rmax ?a ?b] =>
             first [rewrite (Rmax_left a b) by lra | rewrite (Rmax_right a b) by lra]
         end.

(** With the transform of the group reset, the mesh spans the box from
    (1, 0, 0) to (3, 4, 6). *)
Example sample_box :
  fst (computeBox (snd (prepare Samples.scene Samples.store))
                  (fst (prepare Samples.scene Samples.store)))
  = bounds (mkVector3 1 0 0) (mkVector3 3 4 6).
Proof.
  unfold computeBox.
  cbn -[Rmin Rmax Rplus Rmult Rminus Rdiv Rinv IZR cos sin Rlt_dec].
  replace (0 / 2) with 0 by lra. rewrite cos_0, sin_0.
  assert (M : forall p,
    Vector3_applyMatrix4 p
      (multiplyMatrices
         (compose (Vector3_set 0 0 0)
            (mkQuaternion (0 * 1 * 1 + 1 * 0 * 0) (1 * 0 * 1 - 0 * 1 * 0)
                          (1 * 1 * 0 + 0 * 0 * 1) (1 * 1 * 1 - 0 * 0 * 0))
            (Vector3_set 1 1 1))
         (compose (mkVector3 1 0 0) (mkQuaternion 0 0 0 1) (mkVector3 1 1 1)))
    = mkVector3 (vx p + 1) (vy p) (vz p)).
  { intros p. unfold Vector3_applyMatrix4, multiplyMatrices, compose. cbn. f_equal; field. }
  unfold Box3_applyMatrix4.
  assert (E : isEmpty (bounds (mkVector3 0 0 0) (mkVector3 2 4 6)) = false).
  { cbn. unfold Rltb. repeat (destruct Rlt_dec; [lra|]). reflexivity. }
  rewrite E, !M. cbn [vx vy vz].
  unfold setFromPoints, makeEmpty. cbn [fold_left expandByPoint].
  unfold Vector3_min, Vector3_max. cbn [vx vy vz]. minmax. f_equal; f_equal; lra.
Qed.

(** So the copy is published with its root at (-2, -2, -3), the negated
    centre of that box, and with the scale factor 4 / 6. *)
Example sample_normalised :
  position (objects (snd (normalize Samples.scene Samples.store))
                    (id_of (fst (fst (normalize Samples.scene Samples.store)))))
  = mkVector3 (-2) (-2) (-3)
  /\ snd (fst (normalize Samples.scene Samples.store)) = 4 / 6.
Proof.
  rewrite normalize_root_position, normalize_scale, sample_box.
  assert (E : isEmpty (bounds (mkVector3 1 0 0) (mkVector3 3 4 6)) = false).
  { cbn. unfold Rltb. repeat (destruct Rlt_dec; [lra|]). reflexivity. }
  split.
  - unfold getCenter. rewrite E.
    unfold Vector3_sub, Vector3_set, multiplyScalar, addVectors. cbn [vx vy vz].
    f_equal; lra.
  - unfold scaleFactor, getSize.
    rewrite E. cbn [subVectors vx vy vz]. unfold Math_max. minmax.
    rewrite or_else_nonzero by lra. unfold targetSize. lra.
Qed.

End Sample.

(** ** More on the detection loop *)

Section HandTracking.
Import App Tracking.

(** [predict] by what it reads of the frame *)
Lemma predict_by_reading (f : Frame) (st : AppState) :
  predict f st
  = if strict_neq (currentTime f) (lastVideoTime st) then
      let st1 := snd (detectForVideo f (setLastVideoTime (currentTime f) st)) in
      match reading f with
      | NoHand => (Normal, setRequestRef (rafHandle f) st1)
      | ShortHand => (Throw, st1)
      | Point x y =>
          (Normal,
           setRequestRef (rafHandle f)
             (setRotation ((y - 0.5) * PI * 2, (x - 0.5) * PI * 4, 0) st1))
      end
    else (Normal, setRequestRef (rafHandle f) st).
Proof.
  unfold predict, reading, detectForVideo.
  destruct (strict_neq _ _); [|reflexivity].
  destruct (landmarks (results f)) as [|hand rest]; [reflexivity|].
  destruct (nth_error hand 9); reflexivity.
Qed.

(** X1.  Of a frame, [predict] reads the timestamp, the handle that
    [requestAnimationFrame] returns, and the x and y of point 9 of the
    first hand, and nothing else: two frames that agree on these leave
    the same state.  The other points, the depth, further hands and the
    world landmarks play no part. *)
Theorem predict_reads_one_point (f g : Frame) (st : AppState) :
  currentTime f = currentTime g ->
  rafHandle f = rafHandle g ->
  reading f = reading g ->
  predict f st = predict g st.
Proof.
  intros Ht Hh Hr. rewrite !predict_by_reading, Ht, Hh, Hr. reflexivity.
Qed.

Lemma predict_reads_one_point_witness :
  predict (bareFrame 0) init = predict (busyFrame 0) init.
Proof.
  apply (predict_reads_one_point (bareFrame 0) (busyFrame 0) init); reflexivity.
Defined.

Lemma predict_throw_cases (f : Frame) (st : AppState) :
  fst (predict f st) = Throw
  <-> currentTime f <> lastVideoTime st /\ reading f = ShortHand.
Proof.
  rewrite predict_by_reading.
  unfold strict_neq. destruct (Req_dec_T (currentTime f) (lastVideoTime st)) as [E | E].
  - cbn. split; [discriminate | tauto].
  - destruct (reading f) as [| |x y]; cbn.
    + split; [discriminate | intros [_ H]; discriminate].
    + tauto.
    + split; [discriminate | intros [_ H]; discriminate].
Qed.

(** X2.  [predict] throws exactly on a frame with a new timestamp whose
    first hand has fewer than ten points.  The timestamp is recorded by
    then, but the target and the animation-frame handle are as before:
    no next frame was requested, so the loop stops there. *)
Theorem predict_throws_on_short_hand (f : Frame) (fs : list Frame) (st : AppState) :
  (fst (predict f st) = Throw
   <-> currentTime f <> lastVideoTime st /\ reading f = ShortHand)
  /\ (fst (predict f st) = Throw ->
      rotation (snd (predict f st)) = rotation st
      /\ requestRef (snd (predict f st)) = requestRef st
      /\ lastVideoTime (snd (predict f st)) = currentTime f
      /\ run (f :: fs) st = snd (predict f st)).
Proof.
  split; [apply predict_throw_cases|].
  cbn [run]. rewrite predict_by_reading.
  destruct (strict_neq (currentTime f) (lastVideoTime st)); [|discriminate].
  destruct (reading f) as [| |x y]; cbn; try discriminate. auto.
Qed.

Lemma predict_throws_on_short_hand_witness :
  fst (predict (shortFrame 0) init) = Throw.
Proof.
  apply (proj2 (proj1 (predict_throws_on_short_hand (shortFrame 0) [] init))).
  split; [cbn; lra | reflexivity].
Defined.

Lemma predict_detections (f : Frame) (st : AppState) :
  detections (snd (predict f st))
  = ((if strict_neq (currentTime f) (lastVideoTime st) then 1 else 0) + detections st)%nat.
Proof.
  rewrite predict_by_reading.
  destruct (strict_neq _ _); [|reflexivity].
  destruct (reading f); reflexivity.
Qed.

(** X3.  Over a run of frames none of which throws, the detector is
    called once for every frame whose timestamp differs from that of the
    frame before it, and never else. *)
Theorem detector_runs_once_per_new_timestamp (fs : list Frame) :
  Forall complete fs ->
  forall st, detections (run fs st) = (detections st + changes (lastVideoTime st) fs)%nat.
Proof.
  induction 1 as [|f fs Hf _ IH]; intros st; [cbn; lia|].
  cbn [run changes].
  pose proof (predict_detections f st) as Hd.
  pose proof (predict_lastVideoTime f st) as Ht.
  pose proof (predict_throw_cases f st) as [Hthrow _].
  destruct (predict f st) as [[|] st1]; cbn [fst snd] in *.
  - rewrite IH, Hd, Ht. lia.
  - exfalso. apply Hf. now apply Hthrow.
Qed.

Lemma detector_runs_once_per_new_timestamp_witness :
  let fs := [bareFrame 0; busyFrame 0; Samples.frameWithoutHand 1; busyFrame 1; bareFrame 2] in
  detections (run fs init) = (detections init + changes (lastVideoTime init) fs)%nat.
Proof.
  apply (detector_runs_once_per_new_timestamp
           [bareFrame 0; busyFrame 0; Samples.frameWithoutHand 1; busyFrame 1; bareFrame 2]).
  repeat constructor; discriminate.
Defined.

Lemma inRange_target (x y : R) :
  0 <= x <= 1 -> 0 <= y <= 1 -> inRange ((y - 0.5) * PI * 2, (x - 0.5) * PI * 4, 0).
Proof.
  intros Hx Hy. pose proof PI_RGT_0 as Hpi.
  unfold inRange, THREE.idx0, THREE.idx1. cbn [fst snd]. split; split; nra.
Qed.

(** X4.  In exact arithmetic, as long as point 9 lies within the image
    (x and y between 0 and 1) the target stays within the ranges that
    the comments of lines 62 and 63 give: the X angle within [-PI, PI]
    and the Y angle within [-2 PI, 2 PI]. *)
Theorem target_stays_in_range (fs : list Frame) :
  Forall inImage fs ->
  forall st, inRange (rotation st) -> inRange (rotation (run fs st)).
Proof.
  induction 1 as [|f fs Hf _ IH]; intros st Hst; [exact Hst|].
  cbn [run]. rewrite predict_by_reading. unfold inImage in Hf.
  destruct (strict_neq (currentTime f) (lastVideoTime st)); [|now apply IH].
  destruct (reading f) as [| |x y]; cbn zeta.
  - now apply IH.
  - exact Hst.
  - apply IH. cbn. now apply inRange_target.
Qed.

Lemma target_stays_in_range_witness :
  inRange (rotation (run [bareFrame 0; busyFrame 1; shortFrame 2; bareFrame 3] init)).
Proof.
  apply (target_stays_in_range [bareFrame 0; busyFrame 1; shortFrame 2; bareFrame 3]).
  - repeat constructor; cbn; lra.
  - pose proof PI_RGT_0. unfold inRange. cbn. lra.
Defined.

End HandTracking.

(** ** The materials of the copy *)

Section MaterialCopies.
Import THREE StoreRelations ArtifactModel Copies.

Lemma slots_cons (s : Store) (l : loc) (ls : list loc) :
  slots s (l :: ls)
  = (if isMesh (objects s l) then attached (material (objects s l)) else []) ++ slots s ls.
Proof. unfold slots. cbn [filter]. now destruct (isMesh (objects s l)). Qed.

Lemma slots_ext (sA sB : Store) (ls : list loc) :
  (forall l, In l ls -> isMesh (objects sB l) = isMesh (objects sA l)
                        /\ material (objects sB l) = material (objects sA l)) ->
  slots sB ls = slots sA ls.
Proof.
  induction ls as [|l ls IH]; intros H; [reflexivity|].
  rewrite !slots_cons. destruct (H l (or_introl eq_refl)) as [-> ->].
  rewrite IH; [reflexivity|]. intros l' Hl'. apply H. now right.
Qed.

Lemma slots_restyled (sA sB : Store) (ls : list loc) :
  restyled sA sB -> slots sB ls = slots sA ls.
Proof.
  intros (_ & _ & _ & L). apply slots_ext. intros l _.
  specialize (L l). unfold look in L. now injection L as -> _ -> _ _.
Qed.

Lemma slots_pairs (sA sB : Store) (xs ys : list loc) :
  map (objects sB) ys = map (objects sA) xs -> slots sB ys = slots sA xs.
Proof.
  revert ys. induction xs as [|x xs IH]; intros [|y ys] H; try discriminate; [reflexivity|].
  cbn [map] in H. injection H as Hy Hys.
  rewrite !slots_cons, Hy. now rewrite (IH ys Hys).
Qed.

(** What the set-up callback leaves in the material slot of its object *)
Lemma materialSetup_slot (n : Node) (s : Store) :
  let s' := materialSetup n s in
  let taken := if isMesh (objects s (id_of n))
               then attached (material (objects s (id_of n))) else [] in
  (if isMesh (objects s' (id_of n)) then attached (material (objects s' (id_of n))) else [])
  = seq (nextMaterial s) (length taken)
  /\ nextMaterial s' = (nextMaterial s + length taken)%nat.
Proof.
  cbv zeta. unfold materialSetup.
  destruct (isMesh (objects s (id_of n))) eqn:Emesh.
  2:{ rewrite Emesh. cbn. split; [reflexivity | lia]. }
  set (j := id_of n) in *.
  set (s2 := modify j (set_receiveShadow true) (modify j (set_castShadow true) s)).
  assert (Ho : objects s2 j = set_receiveShadow true (set_castShadow true (objects s j))).
  { subst s2. cbn. now rewrite !upd_same. }
  assert (Hnm : nextMaterial s2 = nextMaterial s) by reflexivity.
  rewrite Ho. cbn [material set_receiveShadow set_castShadow].
  destruct (material (objects s j)) as [|m|ms] eqn:Eslot.
  - rewrite Ho. cbn. rewrite Emesh, Eslot. cbn. split; [reflexivity | lia].
  - destruct (applySettings_spec m s2) as (A1 & A2 & A3 & _).
    destruct (applySettings m s2) as [m' s3]. cbn [fst snd] in *.
    cbn. rewrite upd_same, A3, Ho. cbn. rewrite Emesh. cbn. subst m'.
    split; [now rewrite Hnm | lia].
  - destruct (Array_map_applySettings ms s2) as (A1 & A2 & A3 & _).
    destruct (Array_map applySettings ms s2) as [ms' s3]. cbn [fst snd] in *.
    cbn. rewrite upd_same, A3, Ho. cbn. rewrite Emesh. cbn. subst ms'.
    split; [now rewrite Hnm | lia].
Qed.

Lemma materialSetup_others (ns : list Node) :
  forall s l, ~ In l (map id_of ns) ->
    objects (fold_left (fun s n => materialSetup n s) ns s) l = objects s l.
Proof.
  induction ns as [|n ns IH]; intros s l Hl; [reflexivity|].
  cbn [fold_left map] in *. rewrite IH by (intros H; apply Hl; now right).
  destruct (materialSetup_spec 0%nat n s (Nat.le_0_l _)) as (_ & _ & S3 & _).
  apply S3. intros ->. apply Hl. now left.
Qed.

(** Over a run of distinct objects, the set-up hands out the new
    materials one by one, in the order of the slots. *)
Lemma materialSetup_slots (ns : list Node) :
  NoDup (map id_of ns) ->
  forall s,
    let s' := fold_left (fun s n => materialSetup n s) ns s in
    slots s' (map id_of ns) = seq (nextMaterial s) (length (slots s (map id_of ns)))
    /\ nextMaterial s' = (nextMaterial s + length (slots s (map id_of ns)))%nat.
Proof.
  induction ns as [|n ns IH]; intros Hnd s; cbv zeta.
  - cbn. split; [reflexivity | lia].
  - cbn [map] in Hnd. inversion Hnd as [|? ? Hn Hnd']; subst.
    cbn [fold_left map]. rewrite !slots_cons.
    destruct (materialSetup_slot n s) as [M1 M2]. cbv zeta in M1, M2.
    destruct (materialSetup_spec 0%nat n s (Nat.le_0_l _)) as (_ & _ & S3 & _).
    destruct (IH Hnd' (materialSetup n s)) as [I1 I2]. cbv zeta in I1, I2.
    assert (Hrest : slots (materialSetup n s) (map id_of ns) = slots s (map id_of ns)).
    { apply slots_ext. intros l Hl. rewrite S3; [now split|]. intros ->. contradiction. }
    rewrite Hrest in I1, I2.
    rewrite (materialSetup_others ns (materialSetup n s) (id_of n) Hn).
    rewrite M1, I1, I2, M2, length_app, seq_app. split; [reflexivity | lia].
Qed.

(** X5.  The set-up gives every material slot of a surface of the copy
    a material of its own: the slots of the copy hold the addresses from
    the old allocation mark on, one after the other, so no two slots
    share a material, even where the source shared one, and nothing else
    is allocated. *)
Theorem copy_materials_are_not_shared (scene : Node) (s : Store) :
  allocated s scene ->
  let clone := fst (fst (normalize scene s)) in
  let s' := snd (normalize scene s) in
  slots s' (ids clone) = seq (nextMaterial s) (length (slots s (ids scene)))
  /\ NoDup (slots s' (ids clone))
  /\ nextMaterial s' = (nextMaterial s + length (slots s (ids scene)))%nat.
Proof.
  intros Ha.
  assert (H : slots (snd (normalize scene s)) (ids (fst (fst (normalize scene s))))
              = seq (nextMaterial s) (length (slots s (ids scene)))
              /\ nextMaterial (snd (normalize scene s))
                 = (nextMaterial s + length (slots s (ids scene)))%nat).
  { rewrite (normalize_stages scene s). cbn [fst snd].
    rewrite (prepare_stages scene s). cbn [fst snd].
    set (clone := fst (Object3D_clone scene s)).
    set (sa := snd (Object3D_clone scene s)).
    set (sb := traverse materialSetup clone sa).
    set (root := id_of clone).
    set (sc := modify root _ (modify root _ (modify root _ sb))).
    set (s1 := updateMatrixWorld None clone sc).
    set (s2 := snd (computeBox s1 clone)).
    set (s' := modify root _ s2).
    destruct (clone_spec scene s) as (C1 & _ & _ & C4 & _ & C6).
    fold clone sa in C1, C4, C6.
    assert (Hcopy : slots sa (ids clone) = slots s (ids scene)).
    { apply slots_pairs. apply C6.
      - apply Forall_forall. reflexivity.
      - intros l Hl. exact (proj1 (Forall_forall _ _) Ha l Hl). }
    assert (Hnd : NoDup (map id_of (nodes clone))).
    { change (NoDup (ids clone)). rewrite C1. apply seq_NoDup. }
    destruct (materialSetup_slots (nodes clone) Hnd sa) as [T1 T2]. cbv zeta in T1, T2.
    rewrite <- traverse_fold in T1, T2. fold sb (ids clone) in T1, T2.
    rewrite Hcopy, C4 in T1, T2.
    assert (Hr : restyled sb s').
    { apply (restyled_trans sb sc).
      { subst sc. eapply restyled_trans; [eapply restyled_trans|];
          apply restyled_modify; reflexivity. }
      apply (restyled_trans sc s1).
      { exact (proj1 (updateMatrixWorld_rematrixed clone None sc)). }
      apply (restyled_trans s1 s2).
      { apply measured_restyled, computeBox_measured. }
      apply restyled_modify. reflexivity. }
    rewrite (slots_restyled sb s' _ Hr).
    destruct Hr as (_ & -> & _). now split. }
  cbv zeta. destruct H as [H1 H2]. splits; auto.
  rewrite H1. apply seq_NoDup.
Qed.

Lemma copy_materials_are_not_shared_witness :
  NoDup (slots (snd (normalize Samples.scene Samples.store))
               (ids (fst (fst (normalize Samples.scene Samples.store))))).
Proof.
  refine (proj1 (proj2 (copy_materials_are_not_shared Samples.scene Samples.store _))).
  repeat constructor.
Defined.

End MaterialCopies.

(** ** The shape of the copy *)

Section Shape.
Import THREE StoreRelations ArtifactModel.

(** X6.  The published copy has the shape of the source.  Node by node
    it is a surface where the source is, holds the same geometry (shared,
    not copied) and, apart from the root, stands as the source node does
    relative to its parent. *)
Theorem copy_has_the_shape_of_the_source (scene : Node) (s : Store) :
  allocated s scene ->
  let clone := fst (fst (normalize scene s)) in
  let s' := snd (normalize scene s) in
  twins (fun a b =>
           isMesh (objects s' b) = isMesh (objects s a)
           /\ geometry (objects s' b) = geometry (objects s a)
           /\ (b <> id_of clone -> pose (objects s' b) = pose (objects s a)))
        scene clone.
Proof.
  intros Ha. rewrite (normalize_stages scene s). cbn [fst snd].
  destruct (prepare_spec scene s)
    as (_ & _ & _ & _ & _ & _ & _ & _ & _ & Eclone & K & _).
  pose proof (computeBox_measured (snd (prepare scene s)) (fst (prepare scene s))) as Hm.
  destruct Hm as (Hobj & _).
  set (box := fst (computeBox _ _)). clearbody box.
  set (s2 := snd (computeBox _ _)) in *. clearbody s2.
  pose proof (prepare_stages scene s) as Est. cbv zeta in Est.
  rewrite Est in *. cbn [fst snd] in *. clear Est Eclone.
  set (clone := fst (Object3D_clone scene s)) in *.
  set (sa := snd (Object3D_clone scene s)) in *.
  set (sb := traverse materialSetup clone sa) in *.
  set (root := id_of clone) in *.
  set (sc := modify root _ (modify root _ (modify root _ sb))) in *.
  set (s1 := updateMatrixWorld None clone sc) in *.
  assert (Htw : twins (fun a b => objects sa b = objects s a) scene clone).
  { apply clone_twins. intros l Hl. split; [|reflexivity].
    exact (proj1 (Forall_forall _ _) Ha l Hl). }
  apply (twins_impl _ _ _ _ Htw). intros a b _ _ E.
  rewrite objects_modify, Hobj.
  assert (Hk : kind (objects s1 b) = kind (objects s a)) by (rewrite K; now rewrite E).
  unfold kind in Hk. injection Hk as K1 K2.
  destruct (Nat.eqb_spec b root) as [-> | Hne].
  - cbn [isMesh geometry set_position]. splits; auto. intros H. now contradiction H.
  - splits; auto. intros _.
    destruct (updateMatrixWorld_rematrixed clone None sc) as (_ & P & _).
    fold s1 in P. rewrite P. subst sc. rewrite !objects_modify.
    apply Nat.eqb_neq in Hne. rewrite Hne.
    subst sb. now rewrite materialSetup_traversal_pose, E.
Qed.

Lemma copy_has_the_shape_of_the_source_witness :
  let clone := fst (fst (normalize Samples.scene Samples.store)) in
  let s' := snd (normalize Samples.scene Samples.store) in
  twins (fun a b =>
           isMesh (objects s' b) = isMesh (objects Samples.store a)
           /\ geometry (objects s' b) = geometry (objects Samples.store a)
           /\ (b <> id_of clone -> pose (objects s' b) = pose (objects Samples.store a)))
        Samples.scene clone.
Proof.
  apply (copy_has_the_shape_of_the_source Samples.scene Samples.store).
  repeat constructor.
Defined.

End Shape.

(** ** Assets without a mesh *)

Section Meshless.
Import THREE StoreRelations ArtifactModel Wireframes.









End Meshless.

(** ** Scaling about a point *)

Section Placing.
Import THREE StoreRelations ArtifactModel Render.

Lemma multiplyMatrices_placeM (k : R) (v : Vector3) (a b : Matrix4) :
  affine b -> multiplyMatrices (placeM k v a) b = placeM k v (multiplyMatrices a b).
Proof.
  intros (B1 & B2 & B3 & B4). unfold multiplyMatrices, placeM. cbn.
  rewrite B1, B2, B3, B4. apply Matrix4_ext; ring.
Qed.

Lemma compose_placeM (k : R) (v : Vector3) (q : Quaternion) :
  compose v q (Vector3_set k k k)
  = placeM k v (compose (Vector3_set 0 0 0) q (Vector3_set 1 1 1)).
Proof. unfold compose, placeM, Vector3_set. cbn. apply Matrix4_ext; ring. Qed.

Lemma applyMatrix4_placeM (k : R) (v p : Vector3) (m : Matrix4) :
  affine m ->
  Vector3_applyMatrix4 p (placeM k v m)
  = addVectors (multiplyScalar (Vector3_applyMatrix4 p m) k) v.
Proof.
  intros (M1 & M2 & M3 & M4).
  unfold Vector3_applyMatrix4, placeM, addVectors, multiplyScalar. cbn.
  rewrite M1, M2, M3, M4. f_equal; field.
Qed.

Lemma Rmin_place (k a b v : R) : 0 <= k -> Rmin (a * k + v) (b * k + v) = Rmin a b * k + v.
Proof. intros Hk. unfold Rmin. repeat destruct Rle_dec; nra. Qed.

Lemma Rmax_place (k a b v : R) : 0 <= k -> Rmax (a * k + v) (b * k + v) = Rmax a b * k + v.
Proof. intros Hk. unfold Rmax. repeat destruct Rle_dec; nra. Qed.

Lemma expandByPoint_place (k : R) (v : Vector3) (b : Box3) (p : Vector3) :
  0 <= k ->
  expandByPoint (Box3_place k v b) (addVectors (multiplyScalar p k) v)
  = Box3_place k v (expandByPoint b p).
Proof.
  intros Hk. destruct b as [|mn mx]; [reflexivity|].
  cbn. unfold Vector3_min, Vector3_max, addVectors, multiplyScalar. cbn.
  now rewrite !Rmin_place, !Rmax_place.
Qed.

Lemma setFromPoints_place (k : R) (v : Vector3) (ps : list Vector3) :
  0 <= k ->
  setFromPoints (map (fun p => addVectors (multiplyScalar p k) v) ps)
  = Box3_place k v (setFromPoints ps).
Proof.
  intros Hk. unfold setFromPoints, makeEmpty.
  change emptyBox with (Box3_place k v emptyBox) at 1.
  generalize emptyBox. induction ps as [|p ps IH]; intros b; [reflexivity|].
  cbn [map fold_left]. now rewrite expandByPoint_place, IH.
Qed.

Lemma Box3_applyMatrix4_placeM (k : R) (v : Vector3) (b : Box3) (m : Matrix4) :
  0 <= k ->
  affine m ->
  b = emptyBox \/ isEmpty b = false ->
  Box3_applyMatrix4 b (placeM k v m) = Box3_place k v (Box3_applyMatrix4 b m).
Proof.
  intros Hk Hm [-> | Hb]; [reflexivity|].
  unfold Box3_applyMatrix4. rewrite Hb. destruct b as [|mn mx]; [reflexivity|].
  rewrite !(applyMatrix4_placeM k v _ m Hm).
  exact (setFromPoints_place k v
           [ Vector3_applyMatrix4 (mkVector3 (vx mn) (vy mn) (vz mn)) m;
             Vector3_applyMatrix4 (mkVector3 (vx mn) (vy mn) (vz mx)) m;
             Vector3_applyMatrix4 (mkVector3 (vx mn) (vy mx) (vz mn)) m;
             Vector3_applyMatrix4 (mkVector3 (vx mn) (vy mx) (vz mx)) m;
             Vector3_applyMatrix4 (mkVector3 (vx mx) (vy mn) (vz mn)) m;
             Vector3_applyMatrix4 (mkVector3 (vx mx) (vy mn) (vz mx)) m;
             Vector3_applyMatrix4 (mkVector3 (vx mx) (vy mx) (vz mn)) m;
             Vector3_applyMatrix4 (mkVector3 (vx mx) (vy mx) (vz mx)) m ] Hk).
Qed.

Lemma union_place (k : R) (v : Vector3) (a b : Box3) :
  0 <= k -> union (Box3_place k v a) (Box3_place k v b) = Box3_place k v (union a b).
Proof.
  intros Hk. destruct a as [|amin amax], b as [|bmin bmax]; try reflexivity.
  cbn. unfold Vector3_min, Vector3_max, addVectors, multiplyScalar. cbn.
  now rewrite !Rmin_place, !Rmax_place.
Qed.

Lemma unions_place (k : R) (v : Vector3) (boxes : list Box3) :
  0 <= k -> unions (map (Box3_place k v) boxes) = Box3_place k v (unions boxes).
Proof.
  intros Hk. induction boxes as [|b bs IH]; [reflexivity|].
  cbn [map]. now rewrite !unions_cons, IH, union_place.
Qed.

Lemma Rltb_place (k a b v : R) : 0 < k -> Rltb (a * k + v) (b * k + v) = Rltb a b.
Proof. intros Hk. unfold Rltb. repeat destruct Rlt_dec; try reflexivity; nra. Qed.

Lemma isEmpty_place (k : R) (v : Vector3) (b : Box3) :
  0 < k -> isEmpty (Box3_place k v b) = isEmpty b.
Proof.
  intros Hk. destruct b as [|mn mx]; [reflexivity|]. cbn. now rewrite !Rltb_place.
Qed.

Lemma getSize_place (k : R) (v : Vector3) (b : Box3) :
  0 < k -> getSize (Box3_place k v b) = multiplyScalar (getSize b) k.
Proof.
  intros Hk. unfold getSize. rewrite isEmpty_place by exact Hk.
  destruct (isEmpty b); [unfold multiplyScalar, Vector3_set; cbn; f_equal; ring|].
  destruct b as [|mn mx]; [unfold multiplyScalar, Vector3_set; cbn; f_equal; ring|].
  unfold Box3_place, subVectors, addVectors, multiplyScalar. cbn. f_equal; ring.
Qed.

(** Scaled by [k] about the origin and then moved by the negation of
    its old centre, a box has its centre at [k - 1] times the old one. *)
Lemma getCenter_place (k : R) (b : Box3) :
  0 < k ->
  getCenter (Box3_place k (negated (getCenter b)) b) = multiplyScalar (getCenter b) (k - 1).
Proof.
  intros Hk. unfold getCenter at 1. rewrite isEmpty_place by exact Hk.
  unfold getCenter. destruct (isEmpty b) eqn:E.
  { unfold multiplyScalar, Vector3_set. cbn. f_equal; ring. }
  destruct b as [|mn mx]; [discriminate|].
  unfold Box3_place, multiplyScalar, addVectors, negated. cbn. f_equal; lra.
Qed.

(** Two runs of the world-matrix update over the same children, the
    second under a parent matrix that is the first's followed by a
    scaling and a translation. *)
Lemma updateMatrixWorld_placed_children
  (root : loc) (k : R) (v : Vector3) (children : list Node) :
  Forall (fun t => forall pA sA sB done,
            Forall (fun l => l <> root) (ids t) ->
            samePoses root sA sB -> affine pA -> placed k v done sA sB ->
            samePoses root (updateMatrixWorld (Some pA) t sA)
                           (updateMatrixWorld (Some (placeM k v pA)) t sB)
            /\ placed k v (done ++ ids t)
                 (updateMatrixWorld (Some pA) t sA)
                 (updateMatrixWorld (Some (placeM k v pA)) t sB))
         children ->
  forall pA sA sB done,
    Forall (fun l => l <> root) (flat_map ids children) ->
    samePoses root sA sB -> affine pA -> placed k v done sA sB ->
    samePoses root
      (fold_left (fun s c => updateMatrixWorld (Some pA) c s) children sA)
      (fold_left (fun s c => updateMatrixWorld (Some (placeM k v pA)) c s) children sB)
    /\ placed k v (done ++ flat_map ids children)
         (fold_left (fun s c => updateMatrixWorld (Some pA) c s) children sA)
         (fold_left (fun s c => updateMatrixWorld (Some (placeM k v pA)) c s) children sB).
Proof.
  induction 1 as [|c cs Hc _ IH]; intros pA sA sB done Hne Hp Ha Hs.
  - cbn. now rewrite app_nil_r.
  - cbn [fold_left flat_map] in *. apply Forall_app in Hne. destruct Hne as [Hne1 Hne2].
    destruct (Hc pA sA sB done Hne1 Hp Ha Hs) as [Hp' Hs'].
    rewrite app_assoc. now apply IH.
Qed.

Lemma updateMatrixWorld_placed (root : loc) (k : R) (v : Vector3) (t : Node) :
  forall pA sA sB done,
    Forall (fun l => l <> root) (ids t) ->
    samePoses root sA sB -> affine pA -> placed k v done sA sB ->
    samePoses root (updateMatrixWorld (Some pA) t sA)
                   (updateMatrixWorld (Some (placeM k v pA)) t sB)
    /\ placed k v (done ++ ids t)
         (updateMatrixWorld (Some pA) t sA)
         (updateMatrixWorld (Some (placeM k v pA)) t sB).
Proof.
  induction t as [id children IH] using Node_induction.
  intros pA sA sB done Hne Hp Ha Hs.
  cbn [updateMatrixWorld]. rewrite ids_node in *.
  inversion Hne as [|? ? Hid Hkids]; subst.
  pose proof (Hp id Hid) as Hpose. unfold pose in Hpose.
  injection Hpose as P1 _ P3 P4. rewrite P1, P3, P4.
  set (m := compose (position (objects sA id)) (quaternion (objects sA id))
                    (scale (objects sA id))).
  assert (Hm : affine m) by apply compose_affine.
  rewrite (multiplyMatrices_placeM k v pA m Hm).
  set (mw := multiplyMatrices pA m).
  assert (Hmw : affine mw) by now apply multiplyMatrices_affine.
  change (id :: flat_map ids children) with ([id] ++ flat_map ids children).
  rewrite app_assoc.
  apply (updateMatrixWorld_placed_children root k v children IH); auto.
  - intros l Hl. rewrite !pose_set_matrices. now apply Hp.
  - intros l Hl. rewrite !objects_modify.
    destruct (Nat.eqb_spec l id) as [->|Hne'].
    + cbn. now split.
    + apply Hs. apply in_app_or in Hl. destruct Hl as [Hl | [Hl | []]]; [exact Hl|].
      congruence.
Qed.

(** The same at the root, which has no parent: the first run finds it
    at the origin with scale 1, the second at [v] with scale [k]. *)
Lemma updateMatrixWorld_placed_root (clone : Node) (sc sB : Store) (k : R) (v : Vector3) :
  Forall (fun l => l <> id_of clone) (flat_map ids (children_of clone)) ->
  position (objects sc (id_of clone)) = Vector3_set 0 0 0 ->
  scale (objects sc (id_of clone)) = Vector3_set 1 1 1 ->
  position (objects sB (id_of clone)) = v ->
  quaternion (objects sB (id_of clone)) = quaternion (objects sc (id_of clone)) ->
  scale (objects sB (id_of clone)) = Vector3_set k k k ->
  samePoses (id_of clone) sc sB ->
  placed k v (ids clone) (updateMatrixWorld None clone sc) (updateMatrixWorld None clone sB).
Proof.
  destruct clone as [root children]. cbn [id_of children_of].
  intros Hne Pc Sc Pb Qb Sb Hposes.
  cbn [updateMatrixWorld]. rewrite ids_node.
  rewrite Pc, Sc, Pb, Qb, Sb, (compose_placeM k v).
  set (mA := compose (Vector3_set 0 0 0) (quaternion (objects sc root)) (Vector3_set 1 1 1)).
  change (root :: flat_map ids children) with ([root] ++ flat_map ids children).
  apply (updateMatrixWorld_placed_children root k v children).
  - apply Forall_forall. intros t _. apply updateMatrixWorld_placed.
  - exact Hne.
  - intros l Hl. rewrite !pose_set_matrices. now apply Hposes.
  - apply compose_affine.
  - intros l [<- | []]. rewrite !objects_modify, !Nat.eqb_refl. cbn.
    split; [apply compose_affine | reflexivity].
Qed.

(** The box of the surfaces follows the world matrices. *)
Lemma surfacesOf_placed (k : R) (v : Vector3) (sA sB : Store) (ls : list loc) :
  0 <= k ->
  placed k v ls sA sB ->
  (forall l, kind (objects sB l) = kind (objects sA l)) ->
  sameBoxes sA sB ->
  Forall (fun l =>
            match geometry (objects sA l) with
            | Some g =>
                isMesh (objects sA l) = true
                /\ (boxOf (geometries sA g) = emptyBox
                    \/ isEmpty (boxOf (geometries sA g)) = false)
            | None => True
            end) ls ->
  surfacesOf sB ls = Box3_place k v (surfacesOf sA ls).
Proof.
  intros Hk0 Hs Hk Hbox Hv. unfold surfacesOf.
  rewrite <- (unions_place k v _ Hk0), map_map. f_equal.
  induction ls as [|l ls IH]; [reflexivity|].
  inversion Hv as [|? ? Hl Hv']; subst.
  assert (IH' := IH (fun l' H => Hs l' (or_intror H)) Hv'). clear IH.
  pose proof (Hk l) as Hkl. unfold kind in Hkl. injection Hkl as K1 K2.
  cbn [filter]. rewrite K1. destruct (isMesh (objects sA l)); [|exact IH'].
  cbn [map]. rewrite IH'. f_equal.
  unfold worldBox. rewrite K2.
  destruct (geometry (objects sA l)) as [g|]; [|reflexivity].
  destruct (Hs l (or_introl eq_refl)) as [Haff ->]. rewrite Hbox.
  apply Box3_applyMatrix4_placeM; tauto.
Qed.

End Placing.

Section Fitting.
Import THREE ArtifactModel.

Lemma Rltb_false (a b : R) : Rltb a b = false -> b <= a.
Proof. unfold Rltb. destruct (Rlt_dec a b); [discriminate | lra]. Qed.

Lemma getSize_nonneg (box : Box3) :
  0 <= vx (getSize box) /\ 0 <= vy (getSize box) /\ 0 <= vz (getSize box).
Proof.
  unfold getSize. destruct (isEmpty box) eqn:E; [cbn; lra|].
  destruct box as [|mn mx]; [cbn; lra|].
  cbn in E. apply orb_false_iff in E. destruct E as [E Ez].
  apply orb_false_iff in E. destruct E as [Ex Ey].
  apply Rltb_false in Ex, Ey, Ez. cbn. lra.
Qed.

Lemma Math_max_bounds (a b c : R) :
  a <= Math_max a b c /\ b <= Math_max a b c /\ c <= Math_max a b c
  /\ (Math_max a b c = a \/ Math_max a b c = b \/ Math_max a b c = c).
Proof.
  unfold Math_max, Rmax. repeat destruct Rle_dec; splits; auto; lra.
Qed.

Lemma Math_max_scale (k a b c : R) :
  0 <= k -> Math_max (k * a) (k * b) (k * c) = k * Math_max a b c.
Proof.
  intros Hk. unfold Math_max. now rewrite <- !RmaxRmult.
Qed.

(** The factor is positive, takes no side beyond the target size and
    takes the largest side to it. *)
Lemma scaleFactor_fits (box : Box3) :
  let size := getSize box in
  let k := scaleFactor box in
  0 < k
  /\ 0 <= k * vx size <= 4 /\ 0 <= k * vy size <= 4 /\ 0 <= k * vz size <= 4
  /\ (size <> Vector3_set 0 0 0 ->
      Math_max (k * vx size) (k * vy size) (k * vz size) = 4).
Proof.
  cbv zeta. unfold scaleFactor, targetSize.
  destruct (getSize_nonneg box) as (Hx & Hy & Hz).
  destruct (getSize box) as [a b c] eqn:Esize. cbn [vx vy vz] in *.
  destruct (Math_max_bounds a b c) as (Ma & Mb & Mc & Mcase).
  set (maxDim := Math_max a b c) in *.
  unfold or_else. destruct (Req_dec_T maxDim 0) as [E0 | Hne].
  - assert (a = 0 /\ b = 0 /\ c = 0) as (-> & -> & ->) by lra.
    splits; try lra. intros H. now contradiction H.
  - assert (Hpos : 0 < maxDim) by lra.
    assert (Hk : 0 < 4.0 / maxDim) by (apply Rdiv_lt_0_compat; lra).
    assert (Hbound : forall d, 0 <= d <= maxDim -> 0 <= 4.0 / maxDim * d <= 4).
    { intros d Hd.
      assert (E : 4.0 / maxDim * maxDim = 4).
      { unfold Rdiv. rewrite Rmult_assoc, Rinv_l by lra. lra. }
      split; nra. }
    splits; try (apply Hbound; lra); auto.
    intros _. rewrite Math_max_scale by lra. fold maxDim.
    unfold Rdiv. rewrite Rmult_assoc, Rinv_l by lra. lra.
Qed.

End Fitting.

(** ** The model on screen *)

Section Rendering.
Import THREE StoreRelations ArtifactModel Render.

Lemma effect_stages (scene : Node) (c0 : Component) (s : Store) :
  effect (Some scene) c0 s
  = (mkComponent (Some (fst (fst (normalize scene s)))) (snd (fst (normalize scene s)))
                 (currentRotation c0) (groupRef c0),
     snd (normalize scene s)).
Proof.
  unfold effect. now destruct (normalize scene s) as [[clone k] s'].
Qed.

Lemma scaled_is_zero (c : Vector3) (k : R) :
  multiplyScalar c (k - 1) = Vector3_set 0 0 0 <-> k = 1 \/ c = Vector3_set 0 0 0.
Proof.
  destruct c as [x y z]. unfold multiplyScalar, Vector3_set. cbn [vx vy vz]. split.
  - intros H. injection H as Hx Hy Hz.
    destruct (Req_dec_T k 1) as [E | Hne]; [now left | right].
    assert (x = 0) by nra. assert (y = 0) by nra. assert (z = 0) by nra. now subst.
  - intros [-> | H]; [f_equal; ring|]. injection H as -> -> ->. f_equal; ring.
Qed.

(** X8.  The model on screen.  The component hands the copy to
    [<primitive>] with the published factor as [scale], which is written
    into the scale of the copy's root, whose position holds the negated
    centre.  So the surfaces are scaled about the origin of the root and
    then moved by the negated centre of the unscaled box: the box on
    screen has the size of the normalised box times the factor, its
    largest side is the target size 4, and its centre is the old centre
    times [factor - 1], which is the origin only when the factor is 1 or
    the surfaces were centred on the origin to begin with. *)
Theorem rendered_model_is_scaled_about_its_root
  (scene : Node) (s : Store) (c0 : Component) :
  allocated s scene ->
  validMesh s scene ->
  hasSurface s scene ->
  let c := fst (effect (Some scene) c0 s) in
  let s' := snd (effect (Some scene) c0 s) in
  let clone := fst (fst (normalize scene s)) in
  let box := surfacesBox s' clone in
  let k := modelScale c in
  let shown := surfacesBox (commit (render c) s') clone in
  render c = pivot clone (k, k, k)
  /\ k = scaleFactor box
  /\ shown = Box3_place k (negated (getCenter box)) box
  /\ getSize shown = multiplyScalar (getSize box) k
  /\ getCenter shown = multiplyScalar (getCenter box) (k - 1)
  /\ (getCenter shown = Vector3_set 0 0 0 <-> k = 1 \/ getCenter box = Vector3_set 0 0 0)
  /\ (getSize box <> Vector3_set 0 0 0 ->
      Math_max (vx (getSize shown)) (vy (getSize shown)) (vz (getSize shown)) = 4).
Proof.
  intros Ha Hv Hs. cbv zeta.
  rewrite effect_stages. cbn [fst snd]. unfold render. cbn [processedScene modelScale commit].
  rewrite normalize_scale, (normalize_stages scene s). cbn [fst snd].
  destruct (prepare_spec scene s)
    as (Hids & _ & _ & _ & Ppos & _ & _ & _ & Psc & _ & _ & [sc Hsc]).
  pose proof (prepare_validMesh scene s Ha Hv) as Hv1.
  pose proof (prepare_hasSurface scene s Ha Hs) as Hs1.
  pose proof (computeBox_measured (snd (prepare scene s)) (fst (prepare scene s))) as Hm.
  set (clone := fst (prepare scene s)) in *.
  set (s1 := snd (prepare scene s)) in *.
  clearbody clone s1.
  rewrite (computeBox_surfaces s1 clone (validMesh_kinds _ _ Hv1) Hs1).
  set (sm := snd (computeBox s1 clone)) in *. clearbody sm.
  set (box := surfacesBox s1 clone).
  set (ctr := getCenter box).
  set (k := scaleFactor box).
  set (s' := modify (id_of clone) (fun o => set_position (Vector3_sub (position o) ctr) o) sm).
  pose proof Hm as (Eobj & _).
  pose proof (measured_sameBoxes _ _ Hm) as Hbm.
  assert (Eb : surfacesBox s' clone = box).
  { unfold surfacesBox, s'. rewrite surfacesOf_set_position. now apply surfacesOf_measured. }
  rewrite Eb.
  destruct (scaleFactor_fits box) as (Hk & _ & _ & _ & Hmax). fold k in Hk, Hmax.
  cbv zeta in Hmax.
  set (sB := modify (id_of clone) (set_scale (Vector3_set k k k)) s').
  set (s2 := updateMatrixWorld None clone sB).
  pose proof (children_differ_from_root clone _ _ Hids) as Hne.
  destruct (updateMatrixWorld_rematrixed clone None sc) as (_ & Hpose1 & _).
  rewrite <- Hsc in Hpose1.
  assert (Hroot : pose (objects s1 (id_of clone)) = pose (objects sc (id_of clone)))
    by apply Hpose1.
  unfold pose in Hroot. injection Hroot as R1 _ R3 R4.
  assert (EB : objects sB (id_of clone)
               = set_scale (Vector3_set k k k)
                   (set_position (Vector3_sub (position (objects s1 (id_of clone))) ctr)
                                 (objects s1 (id_of clone)))).
  { unfold sB, s'. now rewrite !objects_modify, !Nat.eqb_refl, Eobj. }
  assert (Hother : forall l, l <> id_of clone -> objects sB l = objects s1 l).
  { intros l Hl. unfold sB, s'. rewrite !objects_modify.
    apply Nat.eqb_neq in Hl. now rewrite Hl, Eobj. }
  assert (Hplaced : placed k (negated ctr) (ids clone) s1 s2).
  { rewrite Hsc. unfold s2.
    apply updateMatrixWorld_placed_root.
    - exact Hne.
    - now rewrite <- R1.
    - now rewrite <- R4.
    - rewrite EB. cbn [position set_scale set_position]. rewrite Ppos.
      unfold Vector3_sub, negated, Vector3_set. cbn. f_equal; ring.
    - rewrite EB. cbn [quaternion set_scale set_position]. exact R3.
    - rewrite EB. reflexivity.
    - intros l Hl. rewrite (Hother l Hl). apply Hpose1. }
  assert (Hkind : forall l, kind (objects s2 l) = kind (objects s1 l)).
  { intros l. apply kind_of_look.
    destruct (updateMatrixWorld_rematrixed clone None sB) as ((_ & _ & _ & L2) & _).
    fold s2 in L2. rewrite L2.
    destruct (Nat.eq_dec l (id_of clone)) as [-> | Hl]; [now rewrite EB | now rewrite Hother]. }
  assert (Hboxes : sameBoxes s1 s2).
  { intros g. unfold s2. rewrite updateMatrixWorld_geometries. apply Hbm. }
  assert (Eshown : surfacesBox s2 clone = Box3_place k (negated ctr) box).
  { unfold surfacesBox.
    apply (surfacesOf_placed k (negated ctr) s1 s2 (ids clone)); auto. lra. }
  rewrite Eshown.
  assert (Ec : getCenter (Box3_place k (negated ctr) box) = multiplyScalar ctr (k - 1))
    by now apply getCenter_place.
  splits.
  - reflexivity.
  - reflexivity.
  - reflexivity.
  - now apply getSize_place.
  - exact Ec.
  - rewrite Ec. apply scaled_is_zero.
  - intros Hsize. rewrite getSize_place by exact Hk.
    unfold multiplyScalar. cbn [vx vy vz].
    rewrite !(Rmult_comm _ k). now apply Hmax.
Qed.

Lemma sample_allocated : allocated Samples.store Samples.scene.
Proof. repeat constructor. Qed.

Lemma sample_validMesh : validMesh Samples.store Samples.scene.
Proof.
  constructor; [exact I|]. constructor; [|constructor].
  split; [reflexivity|]. right. cbn. unfold Rltb.
  repeat (destruct Rlt_dec; [lra|]). reflexivity.
Qed.

Lemma sample_hasSurface : hasSurface Samples.store Samples.scene.
Proof. right. left. reflexivity. Qed.

Lemma rendered_model_is_scaled_about_its_root_witness :
  let c := fst (effect (Some Samples.scene) init Samples.store) in
  let s' := snd (effect (Some Samples.scene) init Samples.store) in
  let clone := fst (fst (normalize Samples.scene Samples.store)) in
  let box := surfacesBox s' clone in
  getCenter (surfacesBox (commit (render c) s') clone)
  = multiplyScalar (getCenter box) (modelScale c - 1).
Proof.
  exact (proj1 (proj2 (proj2 (proj2 (proj2
           (rendered_model_is_scaled_about_its_root Samples.scene Samples.store init
              sample_allocated sample_validMesh sample_hasSurface)))))).
Defined.

End Rendering.

(** ** Runs of smoothing ticks *)

Section SmoothingRuns.
Import Double Runs.

Lemma ticks_entries (e : number * number * number) (deltas : list number) :
  forall c r,
    idx0 (ticks e deltas c r)
    = fold_left (fun x delta => lerp x (idx0 e) (smoothingSpeed delta)) deltas (idx0 c)
    /\ idx1 (ticks e deltas c r)
       = fold_left (fun x delta => lerp x (idx1 e) (smoothingSpeed delta)) deltas (idx1 c)
    /\ idx2 (ticks e deltas c r) = idx2 c.
Proof.
  induction deltas as [|delta deltas IH]; intros c r; [now repeat split|].
  cbn [ticks fold_left].
  destruct (useFrame_entries e c r delta) as (E0 & E1 & E2 & E3). cbv zeta in *.
  destruct (useFrame (Some r) e delta c) as [c' [r'|]]; [|discriminate].
  cbn [fst snd] in *. destruct (IH c' r') as (I0 & I1 & I2).
  now rewrite I0, I1, I2, E0, E1, E2.
Qed.

Lemma decay_bounds (deltas : list number) : Forall short deltas -> 0 <= decay deltas <= 1.
Proof.
  induction 1 as [|delta deltas (Fd & Hpos & H1) _ IH]; cbn [decay]; [lra|].
  destruct (smoothingSpeed_spec delta Fd Hpos) as (_ & Ht & _).
  assert (0 <= Rabs (1 - toR (smoothingSpeed delta)) <= 1)
    by (split; [apply Rabs_pos | apply Rabs_within; lra]).
  nra.
Qed.

(** One angle over a run of short ticks *)
Lemma lerp_run (y : number) (lo hi : R) (deltas : list number) :
  Forall short deltas ->
  isFinite y = true -> - 7 <= lo -> lo <= toR y <= hi -> hi <= 7 ->
  forall x j,
    isFinite x = true -> 0 <= j -> j + INR (length deltas) * slack <= 1 ->
    lo - j <= toR x <= hi + j ->
    let x' := fold_left (fun x delta => lerp x y (smoothingSpeed delta)) deltas x in
    isFinite x' = true
    /\ lo - (j + INR (length deltas) * slack) <= toR x'
       <= hi + (j + INR (length deltas) * slack)
    /\ ArtifactModel.distance (toR x') (toR y)
       <= decay deltas * ArtifactModel.distance (toR x) (toR y)
          + INR (length deltas) * slack.
Proof.
  intros Hd Fy Hlo Hy Hhi.
  pose proof (decay_bounds deltas Hd) as Hdec. revert Hdec.
  assert (Ay : angle y) by (split; [exact Fy | apply Rabs_within; lra]).
  assert (Hs : 0 < slack) by apply bpow_pos.
  induction Hd as [|delta deltas (Fd & Hpos & H1) Hd' IH]; intros Hdec x j Fx Hj Hn Hx.
  - cbn [fold_left length INR decay]. split; [exact Fx|]. split; lra.
  - cbn [fold_left decay]. rewrite length_cons, S_INR in *.
    pose proof (decay_bounds deltas Hd') as Hdec'. specialize (IH Hdec').
    pose proof (pos_INR (length deltas)) as Hlen.
    assert (Ax : angle x) by (split; [exact Fx | apply Rabs_within; nra]).
    destruct (smoothingSpeed_spec delta Fd Hpos) as (Ft & Ht & _).
    destruct (lerp_spec x y (smoothingSpeed delta) Ax Ay Ft Ht) as [F E].
    destruct (eased (toR x) (toR y) (toR (smoothingSpeed delta))
                    (toR (lerp x y (smoothingSpeed delta))) slack (proj1 Ht) E)
      as (D & _ & B).
    specialize (B H1).
    assert (Hmin : lo - j <= Rmin (toR x) (toR y))
      by (unfold Rmin; destruct Rle_dec; lra).
    assert (Hmax : Rmax (toR x) (toR y) <= hi + j)
      by (unfold Rmax; destruct Rle_dec; lra).
    destruct (IH (lerp x y (smoothingSpeed delta)) (j + slack) F) as (F' & B' & D');
      [lra | lra | lra |].
    split; [exact F'|]. split; [lra|].
    set (a := Rabs (1 - toR (smoothingSpeed delta))) in *.
    set (d1 := ArtifactModel.distance (toR (lerp x y (smoothingSpeed delta))) (toR y)) in *.
    set (d0 := ArtifactModel.distance (toR x) (toR y)) in *.
    assert (decay deltas * d1 <= decay deltas * (a * d0 + slack))
      by (apply Rmult_le_compat_l; lra).
    assert (decay deltas * slack <= 1 * slack)
      by (apply Rmult_le_compat_r; lra).
    nra.
Qed.

(** X9.  Over a run of short ticks against a fixed target, each of the X and
    Y angles stays between its start and its target, and its distance to
    the target is at most the product of the factors [|1 - t|] times the
    distance at the start, both up to the rounding slack of 2^-44 per
    tick; the third entry is as it was. *)
Theorem smoothing_run_stays_between
  (externalRotation currentRotation rotation : number * number * number)
  (deltas : list number) :
  Forall short deltas ->
  INR (length deltas) * slack <= 1 ->
  moderate (idx0 currentRotation) -> moderate (idx1 currentRotation) ->
  moderate (idx0 externalRotation) -> moderate (idx1 externalRotation) ->
  let c' := ticks externalRotation deltas currentRotation rotation in
  let room := INR (length deltas) * slack in
  let kept (current target result : number) :=
    isFinite result = true
    /\ Rmin (toR current) (toR target) - room <= toR result
       <= Rmax (toR current) (toR target) + room
    /\ ArtifactModel.distance (toR result) (toR target)
       <= decay deltas * ArtifactModel.distance (toR current) (toR target) + room in
  0 <= decay deltas <= 1
  /\ kept (idx0 currentRotation) (idx0 externalRotation) (idx0 c')
  /\ kept (idx1 currentRotation) (idx1 externalRotation) (idx1 c')
  /\ idx2 c' = idx2 currentRotation.
Proof.
  intros Hd Hn C0 C1 E0 E1 c' room kept.
  destruct (ticks_entries externalRotation deltas currentRotation rotation)
    as (T0 & T1 & T2).
  assert (K : forall current target,
             moderate current -> moderate target ->
             kept current target
                  (fold_left (fun x delta => lerp x target (smoothingSpeed delta))
                             deltas current)).
  { intros current target [Fc Bc] [Ft Bt].
    apply Rabs_bounds in Bc. apply Rabs_bounds in Bt.
    pose proof (Rmin_l (toR current) (toR target)).
    pose proof (Rmin_r (toR current) (toR target)).
    pose proof (Rmax_l (toR current) (toR target)).
    pose proof (Rmax_r (toR current) (toR target)).
    assert (- 7 <= Rmin (toR current) (toR target))
      by (unfold Rmin; destruct Rle_dec; lra).
    assert (Rmax (toR current) (toR target) <= 7)
      by (unfold Rmax; destruct Rle_dec; lra).
    destruct (lerp_run target (Rmin (toR current) (toR target))
                (Rmax (toR current) (toR target)) deltas Hd Ft
                ltac:(lra) ltac:(lra) ltac:(lra) current 0 Fc ltac:(lra) ltac:(lra)
                ltac:(lra)) as (F & B & D).
    subst kept room. cbv beta. split; [exact F|]. split; lra. }
  subst c'. rewrite T0, T1, T2.
  split; [now apply decay_bounds|].
  split; [now apply K|]. split; [now apply K | reflexivity].
Qed.

Lemma tenth_is_a_short_tick : short tenth.
Proof.
  split; [reflexivity|]. split; [exact tenth_is_short|].
  assert (E : smoothingSpeed tenth = half) by (vm_compute; reflexivity).
  rewrite E.
  pose proof (toR_bound false 4503599627370496 (-53) 53 ltac:(lia) ltac:(cbn; lia)) as H.
  change (53 + -53)%Z with 0%Z in H. rewrite bpow_0 in H.
  pose proof (Rle_abs (toR half)). unfold half in *. lra.
Qed.

Lemma moderate_zero : moderate zero.
Proof. split; [reflexivity|]. unfold zero. rewrite toR_zero, Rabs_R0. lra. Qed.

Lemma moderate_one : moderate one.
Proof. split; [reflexivity|]. rewrite toR_one, Rabs_pos_eq; lra. Qed.

Lemma three_ticks_fit : INR (length [tenth; tenth; tenth]) * slack <= 1.
Proof.
  cbn [length]. rewrite slack_eq. pose proof EPSILON_small. pose proof EPSILON_pos.
  replace (INR 3) with 3 by (cbn; lra). lra.
Qed.

Lemma smoothing_run_stays_between_witness :
  let c' := ticks (one, one, zero) [tenth; tenth; tenth] (zero, zero, zero) (zero, zero, zero) in
  let room := INR (length [tenth; tenth; tenth]) * slack in
  isFinite (idx0 c') = true
  /\ Rmin (toR zero) (toR one) - room <= toR (idx0 c') <= Rmax (toR zero) (toR one) + room.
Proof.
  refine (let H := proj1 (proj2 (smoothing_run_stays_between (one, one, zero) (zero, zero, zero)
                  (zero, zero, zero) [tenth; tenth; tenth]
                  (Forall_cons _ tenth_is_a_short_tick
                     (Forall_cons _ tenth_is_a_short_tick
                        (Forall_cons _ tenth_is_a_short_tick (Forall_nil _))))
                  three_ticks_fit moderate_zero moderate_zero moderate_one moderate_one))
          in conj (proj1 H) (proj1 (proj2 H))).
Defined.

End SmoothingRuns.
